(** * Generative core of the Syberia music remixer

    A shallow embedding of the three generator classes of the repository,

    - [LSystem]          (js/l-system.js),
    - [CellularAutomata] (js/cellular-automata.js),
    - [MarkovChain]      (js/markov-chain.js),

    with the note names of [PianoRollVisualizer], the properties of them
    that the specification states and, in the last part, further properties
    that the code has.

    Conventions of the embedding.
    - JavaScript integers are [Z], array lengths, indices and loop counters
      are [nat]. The probabilities that [updateProbabilities] is given are
      the doubles that they are ([float], the primitive binary64 numbers),
      since the number of copies it makes depends on how their product with
      100 is rounded. The other numbers ([Math.random()], durations, the
      results of divisions) are exact rationals [Q]: they stand for the
      doubles of the code up to the rounding of each operation, as long as
      no operation overflows, and the properties stated of them are stated
      for magnitudes at which none does.
    - An array is a [list]; reading past its end gives [Undefined] and
      writing past its end extends it, as in JavaScript.
    - A method that assigns to a field of [this] takes the object and returns
      the new object next to its result; a method that only reads [this]
      takes the object and returns its result.
    - What a method writes to the console is returned as a list of
      [console_event]s.
    - A counted [for] loop is [for_loop]; a [while] loop is run with a fuel
      argument and answers [None] when the fuel does not suffice. *)

From Stdlib Require Import PrimFloat.
From Stdlib Require FloatOps SpecFloat FloatAxioms.
From Stdlib Require Import ZArith QArith Qround Lia Lqa Ascii String.
From stdpp Require Import base decidable option list sorting strings pretty gmap.

(** A decimal literal of a double is the nearest double, as it is in
    JavaScript. *)
Set Warnings "-inexact-float".

Open Scope string_scope.
Open Scope Z_scope.
Open Scope nat_scope.
Open Scope list_scope.

(** ** JavaScript prelude *)

Module JS.

(** The values that flow through the generators: numbers (integers here),
    [undefined] (array reads out of range, missing properties) and [null]
    (what [JSON.stringify] writes for [undefined] inside an array). *)
Inductive value : Type :=
| Num (z : Z)
| Undefined
| Null.

#[global] Instance value_eq_dec : EqDecision value.
Proof. solve_decision. Defined.

#[global] Instance value_inhabited : Inhabited value := populate Undefined.

Inductive console_event : Type :=
| console_log (msg : string)
| console_warn (msg : string)
| console_error (msg : string).

(** [a[i]] for reading, at an index that is a length or a loop counter
    ([get]) and at an index computed with subtraction ([getZ]), where a
    negative index names no element. *)
Definition get {A} (undef : A) (a : list A) (i : nat) : A :=
  default undef (a !! i).

Definition getZ {A} (undef : A) (a : list A) (i : Z) : A :=
  if (i <? 0)%Z then undef else get undef a (Z.to_nat i).

(** [a[i] = v]: in range the cell is overwritten, out of range the array
    grows to length [i + 1] and the cells in between are holes, which read
    as [undef]. *)
Definition set {A} (undef : A) (a : list A) (i : nat) (v : A) : list A :=
  if decide (i < length a) then <[i := v]> a
  else a ++ replicate (i - length a) undef ++ [v].

(** [a.slice(start, end)] for [0 <= start] and [0 <= end]. *)
Definition slice {A} (start end_ : nat) (a : list A) : list A :=
  take (end_ - start) (drop start a).

(** [a.slice(start)] for [start] of either sign: a negative [start] counts
    from the end and is clamped at the beginning. *)
Definition slice_from {A} (start : Z) (a : list A) : list A :=
  if (start <? 0)%Z
  then drop (Z.to_nat (Z.max 0 (Z.of_nat (length a) + start))) a
  else drop (Z.to_nat start) a.

(** What one round of a loop body does: it runs to its end, or it leaves
    the loop by [break]; in both cases with the variables it has
    assigned. *)
Inductive loop_step (S : Type) : Type :=
| Continue (s : S)
| Break (s : S).
Arguments Continue {S} s.
Arguments Break {S} s.

(** [for (let i = lo; i < lo + n; i++) body], on the variables [s] that
    the body assigns. *)
Fixpoint for_loop {S} (n lo : nat) (body : nat → S → loop_step S) (s : S) : S :=
  match n with
  | O => s
  | Datatypes.S n' =>
      match body lo s with
      | Continue s' => for_loop n' (Datatypes.S lo) body s'
      | Break s' => s'
      end
  end.

(** [while (cond) body]: [None] when [fuel] rounds were not enough to
    leave the loop. *)
Fixpoint while_loop {S} (fuel : nat) (cond : S → bool)
    (body : S → loop_step S) (s : S) : option S :=
  match fuel with
  | O => None
  | Datatypes.S fuel' =>
      if cond s then
        match body s with
        | Continue s' => while_loop fuel' cond body s'
        | Break s' => Some s'
        end
      else Some s
  end.

(** [for (const x of xs) s = body(x, s)]. *)
Definition for_of {A S} (xs : list A) (body : A → S → S) (s : S) : S :=
  fold_left (λ s x, body x s) xs s.

(** [Math.ceil(n / m)] for array lengths [n] and [m > 0]; for [m = 0] the
    quotient is [NaN] or [Infinity], which no caller below lets happen. *)
Definition ceil_div (n m : nat) : nat :=
  if n mod m =? 0 then n / m else Datatypes.S (n / m).

(** The comparisons [===], [<] and [<=] of numbers. *)
#[global] Instance Qeq_decision (x y : Q) : Decision (x == y)%Q.
Proof. unfold Qeq. apply _. Defined.

#[global] Instance Qlt_decision (x y : Q) : Decision (x < y)%Q.
Proof. unfold Qlt. apply _. Defined.

#[global] Instance Qle_decision (x y : Q) : Decision (x <= y)%Q.
Proof. unfold Qle. apply _. Defined.

(** [Math.floor(x)] and [Math.round(x)]; [Math.round] rounds halves up. *)
Definition Math_floor (x : Q) : Z := Qfloor x.
Definition Math_round (x : Q) : Z := Qfloor (x + (1 # 2))%Q.

(** Doubles. A double is a number, an infinity or [NaN]; [double_value]
    reads which, from the sign, the mantissa and the exponent of the
    double. The operations on doubles are the primitive ones
    ([PrimFloat.mul], [PrimFloat.leb], ...), which round as the code's
    do. *)
Inductive number (A : Type) : Type :=
| Value (a : A)
| Infinity (negative : bool)
| NaN.
Arguments Value {A} a.
Arguments Infinity {A} negative.
Arguments NaN {A}.

Definition double_value (x : float) : number Q :=
  match FloatOps.Prim2SF x with
  | SpecFloat.S754_zero _ => Value 0%Q
  | SpecFloat.S754_finite negative m e =>
      Value ((if negative then -1 else 1) * inject_Z (Zpos m) * 2 ^ e)%Q
  | SpecFloat.S754_infinity negative => Infinity negative
  | SpecFloat.S754_nan => NaN
  end.

(** [Math.round(x)] of a double. *)
Definition Math_round_double (x : float) : number Z :=
  match double_value x with
  | Value q => Value (Math_round q)
  | Infinity negative => Infinity negative
  | NaN => NaN
  end.

(** The number of rounds of [for (let i = 0; i < count; i++)]: none when
    [count] is [NaN] or not positive, and [None] when no round is the last,
    which is so for [count = Infinity]. *)
Definition loop_rounds (count : number Z) : option nat :=
  match count with
  | Value n => Some (Z.to_nat n)
  | Infinity true | NaN => Some 0
  | Infinity false => None
  end.

(** An array has at most [2^32 - 1] elements: [push] on an array of that
    length throws a [RangeError]. *)
Definition max_array_length : Z := 4294967295.

(** A [Map]: its entries in insertion order, one per key. The same
    functions serve for an object used as a dictionary whose entries are
    only read by key or summed over. *)
Section map.
Context {K V : Type} `{EqDecision K}.

Fixpoint Map_get (k : K) (m : list (K * V)) : option V :=
  match m with
  | [] => None
  | (k', v) :: m' => if decide (k' = k) then Some v else Map_get k m'
  end.

Definition Map_has (k : K) (m : list (K * V)) : bool :=
  bool_decide (is_Some (Map_get k m)).

(** [m.get(k)] followed by a write into the array or object it
    returns, which the entry of [m] shares: the entry becomes [f v].
    Every caller has made sure that the entry exists. *)
Fixpoint Map_alter (f : V → V) (k : K) (m : list (K * V)) : list (K * V) :=
  match m with
  | [] => []
  | (k', v) :: m' =>
      if decide (k' = k) then (k', f v) :: m' else (k', v) :: Map_alter f k m'
  end.

(** [m.set(k, v)]: an existing entry keeps its place. *)
Definition Map_set (k : K) (v : V) (m : list (K * V)) : list (K * V) :=
  if Map_has k m then Map_alter (λ _, v) k m else m ++ [(k, v)].
End map.

(** A [Set]: its elements in insertion order. *)
Definition Set_add {A} `{EqDecision A} (x : A) (s : list A) : list A :=
  if decide (x ∈ s) then s else s ++ [x].

(** [Math.floor(Math.random() * n)] for the number [r] that
    [Math.random()] returned. *)
Definition random_index (r : Q) (n : nat) : nat :=
  Z.to_nat (Qfloor (r * inject_Z (Z.of_nat n))).

(** [String(v)], also what a template literal writes for [v]. *)
Definition to_string (v : value) : string :=
  match v with
  | Num z => pretty z
  | Undefined => "undefined"
  | Null => "null"
  end.

End JS.

Import JS.

(** ** js/l-system.js *)

Module LSystem.

Record t : Type := mk {
  axiom : string;
  rules : gmap ascii string;
  result : string
}.

(** [constructor(axiom, rules)] *)
Definition new (axiom : string) (rules : gmap ascii string) : t :=
  {| axiom := axiom; rules := rules; result := axiom |}.

(** The body of [for (const symbol of current)] in [generate]:
    [if (this.rules[symbol]) next += this.rules[symbol]; else next += symbol].
    The test is JavaScript truthiness: a missing rule gives [undefined] and
    an empty replacement gives the empty string, both of which are falsy. *)
Definition rewrite_symbol (rules : gmap ascii string) (symbol : ascii)
    (next : string) : string :=
  match rules !! symbol with
  | Some (String c r) => next +:+ String c r
  | Some EmptyString | None => next +:+ String symbol EmptyString
  end.

Fixpoint rewrite (rules : gmap ascii string) (current next : string) : string :=
  match current with
  | EmptyString => next
  | String symbol rest => rewrite rules rest (rewrite_symbol rules symbol next)
  end.

(** [generate(iterations)]: the derivation, and the object with [result]
    overwritten by it. *)
Definition generate (ls : t) (iterations : nat) : string * t :=
  let current :=
    for_loop iterations 0
      (λ _ current, Continue (rewrite (rules ls) current EmptyString))
      (axiom ls) in
  (current, {| axiom := axiom ls; rules := rules ls; result := current |}).

(** The [defaultTransform] object of [applyToMusic]. *)
Definition defaultTransform : gmap ascii (Z → Z) :=
  list_to_map
    [ ("A"%char, λ note, Z.min (note + 1) 127);
      ("B"%char, λ note, Z.max (note - 1) 0);
      ("C"%char, λ note, 120 - note);
      ("D"%char, λ note, note);
      ("E"%char, λ note, note);
      ("F"%char, λ note, note) ]%Z.

(** One round of the segment loop of [applyToMusic]. *)
Definition applyToMusic_body (result : string) (sequence : list Z)
    (transforms : gmap ascii (Z → Z)) (segmentSize : nat)
    (i : nat) (transformed : list Z) : loop_step (list Z) :=
  let symbol := String.get i result in
  let startIdx := i * segmentSize in
  let endIdx := Nat.min ((i + 1) * segmentSize) (length sequence) in
  if decide (length sequence ≤ startIdx) then Break transformed
  else
    let segment := slice startIdx endIdx sequence in
    match symbol ≫= (λ c, transforms !! c) with
    | Some f => Continue (transformed ++ (f <$> segment))
    | None => Continue (transformed ++ segment)
    end.

(** [applyToMusic(sequence, transformations)]; [transformations] is [None]
    when the caller leaves it out. *)
Definition applyToMusic (ls : t) (sequence : list Z)
    (transformations : option (gmap ascii (Z → Z)))
    : list Z * list console_event :=
  if String.length (result ls) =? 0
  then (sequence, [console_warn "L-System not generated yet"])
  else
    let transforms := default defaultTransform transformations in
    let segmentSize := ceil_div (length sequence) (String.length (result ls)) in
    (for_loop (String.length (result ls)) 0
       (applyToMusic_body (result ls) sequence transforms segmentSize) [],
     []).

(** What [applyToMusic] does to a note of the window that belongs to the
    derivation symbol at index [i]: it applies the function that
    [transforms] has for the symbol, or keeps the note when it has none. *)
Definition window_transform (result : string) (transforms : gmap ascii (Z → Z))
    (i : nat) (note : Z) : Z :=
  match String.get i result ≫= (λ c, transforms !! c) with
  | Some f => f note
  | None => note
  end.

(** What the specification says [generate] computes: every symbol with a
    rule is replaced by the rule's replacement, every other symbol is kept,
    and this map is iterated from the axiom. *)
Fixpoint spec_rewrite (rules : gmap ascii string) (s : string) : string :=
  match s with
  | EmptyString => EmptyString
  | String symbol rest =>
      match rules !! symbol with
      | Some replacement => replacement
      | None => String symbol EmptyString
      end +:+ spec_rewrite rules rest
  end.

Definition spec_generate (axiom : string) (rules : gmap ascii string)
    (iterations : nat) : string :=
  Nat.iter iterations (spec_rewrite rules) axiom.

(** The catalogue entry [fibonacci] of [createPredefined]. *)
Definition fibonacci : t :=
  new "A" (list_to_map [("A"%char, "AB"); ("B"%char, "A")]).

(** The object [transformations] of [getTransformation]. [random] is the
    number that [Math.random()] returns when the function of [M] is
    called; [%] is the remainder with the sign of the dividend. *)
Definition transformations (random : Q) : gmap ascii (Z → Z) :=
  list_to_map
    [ ("A"%char, λ note, Z.min (note + 2) 127);
      ("B"%char, λ note, Z.max (note - 2) 0);
      ("C"%char, λ note, Z.min (note + 7) 127);
      ("D"%char, λ note, Z.max (note - 7) 0);
      ("E"%char, λ note, Z.min (note + 12) 127);
      ("F"%char, λ note, Z.max (note - 12) 0);
      ("G"%char, λ note, 127 - note);
      ("H"%char, λ note, note);
      ("I"%char, λ note, 60 + (note - 60) * -1);
      ("J"%char, λ note, Z.rem note 12 + 60);
      ("K"%char, λ note,
         let mod_ := Z.rem note 12 in
         if decide (mod_ = 0) then note
         else if decide (mod_ = 4) then note
         else if decide (mod_ = 7) then note
         else note + 1);
      ("L"%char, λ note,
         let mod_ := Z.rem note 12 in
         if decide (mod_ = 2) then note
         else if decide (mod_ = 5) then note
         else if decide (mod_ = 9) then note
         else note - 1);
      ("M"%char, λ note, note + (Math_floor (random * 3) - 1)) ]%Z.

(** [getTransformation(symbol)]: the function of the symbol, or the
    identity. *)
Definition getTransformation (symbol : ascii) (random : Q) : Z → Z :=
  default (λ note, note) (transformations random !! symbol).

(** The object [systems] of [createPredefined]. *)
Definition systems : gmap string (string * gmap ascii string) :=
  list_to_map
    [ ("fibonacci", ("A", list_to_map [("A"%char, "AB"); ("B"%char, "A")]));
      ("cantor", ("A", list_to_map [("A"%char, "ABA"); ("B"%char, "BBB")]));
      ("dragon", ("FX", list_to_map [("X"%char, "X+YF+"); ("Y"%char, "-FX-Y")]));
      ("koch", ("F", list_to_map [("F"%char, "F+F-F-F+F")]));
      ("sierpinski",
       ("A", list_to_map [("A"%char, "B-A-B"); ("B"%char, "A+B+A")]));
      ("tree", ("X", list_to_map [("X"%char, "F[+X][-X]FX"); ("F"%char, "FF")]));
      ("binary", ("A", list_to_map [("A"%char, "AB"); ("B"%char, "BA")]));
      ("syberia",
       ("S", list_to_map [("S"%char, "SMTS"); ("M"%char, "TMT"); ("T"%char, "SM")])) ].

(** The names that every object inherits from [Object.prototype]: for
    these [systems[type]] is not [undefined], although [systems] has no
    entry. *)
Definition Object_prototype : list string :=
  [ "constructor"; "__defineGetter__"; "__defineSetter__"; "hasOwnProperty";
    "__lookupGetter__"; "__lookupSetter__"; "isPrototypeOf";
    "propertyIsEnumerable"; "toString"; "valueOf"; "__proto__";
    "toLocaleString" ].

(** [createPredefined(type)]. For an inherited name the call builds an
    object whose [axiom] and [rules] are [undefined], which is no [t]: the
    answer is [None] then. *)
Definition createPredefined (type : string) : option t * list console_event :=
  if decide (type ∈ Object_prototype) then (None, [])
  else
    match systems !! type with
    | Some (axiom, rules) => (Some (new axiom rules), [])
    | None =>
        (Some fibonacci,
         [console_warn
            ("L-System type '" +:+ type +:+ "' not found, using fibonacci instead")])
    end.

End LSystem.

(** ** js/cellular-automata.js *)

Module CellularAutomata.

Record t : Type := mk {
  rule : Z;
  size : nat;
  ruleTable : gmap string Z;
  currentState : list value;
  history : list (list value)
}.

(** The 32-bit signed integer that the operators [&] and [<<] make of a
    number. *)
Definition ToInt32 (z : Z) : Z := ((z + 2 ^ 31) mod 2 ^ 32 - 2 ^ 31)%Z.

(** [i.toString(2)] *)
Fixpoint pos_toString2 (p : positive) (acc : string) : string :=
  match p with
  | xH => String "1" acc
  | xO p' => pos_toString2 p' (String "0" acc)
  | xI p' => pos_toString2 p' (String "1" acc)
  end.

Definition toString2 (i : nat) : string :=
  match N.of_nat i with
  | N0 => "0"
  | Npos p => pos_toString2 p EmptyString
  end.

(** [s.padStart(targetLength, pad)] for a one-character [pad]. *)
Fixpoint repeat_char (n : nat) (pad : ascii) (s : string) : string :=
  match n with
  | O => s
  | S n' => String pad (repeat_char n' pad s)
  end.

Definition padStart (targetLength : nat) (pad : ascii) (s : string) : string :=
  repeat_char (targetLength - String.length s) pad s.

(** [generateRuleTable(rule)] *)
Definition generateRuleTable (rule : Z) : gmap string Z :=
  for_loop 8 0
    (λ i table,
       let pattern := padStart 3 "0" (toString2 i) in
       Continue
         (<[pattern :=
              if decide (Z.land (ToInt32 rule)
                           (ToInt32 (Z.shiftl 1 (Z.of_nat i mod 32))) ≠ 0%Z)
              then 1%Z else 0%Z]> table))
    ∅.

(** [constructor(rule, size, initialState)]; [initialState] is [None] when
    it is left out or [null]. *)
Definition new (rule : Z) (size : nat) (initialState : option (list value)) : t :=
  let currentState :=
    match initialState with
    | Some init =>
        if decide (length init = size) then init
        else JS.set Undefined (replicate size (Num 0)) (size / 2) (Num 1)
    | None => JS.set Undefined (replicate size (Num 0)) (size / 2) (Num 1)
    end in
  {| rule := rule; size := size; ruleTable := generateRuleTable rule;
     currentState := currentState; history := [currentState] |}.

(** [getNextCellState(left, center, right)] *)
Definition getNextCellState (ca : t) (left center right : value) : value :=
  let pattern := to_string left +:+ to_string center +:+ to_string right in
  match ruleTable ca !! pattern with
  | Some bit => Num bit
  | None => Undefined
  end.

(** One round of the loop of [evolve]. *)
Definition evolve_body (ca : t) (i : nat) (nextState : list value)
    : loop_step (list value) :=
  let left :=
    getZ Undefined (currentState ca)
      (Z.rem (Z.of_nat i - 1 + Z.of_nat (size ca)) (Z.of_nat (size ca))) in
  let center := get Undefined (currentState ca) i in
  let right := get Undefined (currentState ca) ((i + 1) mod size ca) in
  Continue (JS.set Undefined nextState i (getNextCellState ca left center right)).

(** [evolve()]: the new row and the object after the call. *)
Definition evolve (ca : t) : list value * t :=
  let nextState :=
    for_loop (size ca) 0 (evolve_body ca) (replicate (size ca) (Num 0)) in
  (nextState,
   {| rule := rule ca; size := size ca; ruleTable := ruleTable ca;
      currentState := nextState; history := history ca ++ [nextState] |}).

(** [evolveMultiple(steps)] *)
Definition evolveMultiple (ca : t) (steps : nat) : list (list value) * t :=
  for_loop steps 0
    (λ _ '(results, ca), let '(row, ca') := evolve ca in
                         Continue (results ++ [row], ca'))
    ([], ca).

(** [getHistory()] *)
Definition getHistory (ca : t) : list (list value) := history ca.

(** [toRhythm(row)] *)
Definition toRhythm (ca : t) (row : Z) : list value * list console_event :=
  let rowIndex :=
    if decide (row = (-1)%Z) then (Z.of_nat (length (history ca)) - 1)%Z else row in
  if decide (rowIndex < 0 ∨ rowIndex >= Z.of_nat (length (history ca)))%Z
  then ([], [console_error "Invalid row index"])
  else (getZ [] (history ca) rowIndex, []).

(** [mapValue(value, inMin, inMax, outMin, outMax)]; [None] is the [NaN]
    or infinity of a division by zero. The sum, the product and the quotient
    are the exact ones: the code rounds each of them to a double, and a
    double overflows to an infinity beyond [2^1024], which no exact number
    does. What is proved of [mapValue] and of the methods that call it is
    therefore stated for arguments of a bounded magnitude, at which no
    operation of the code overflows, and is a property that rounding
    keeps (a sign, an order, a count). *)
Definition mapValue (value inMin inMax outMin outMax : Q) : option Q :=
  if decide (inMax - inMin == 0)%Q then None
  else Some (outMin + (outMax - outMin) * (value - inMin) / (inMax - inMin))%Q.

(** One round of the scan of [toDurations], on the counter [i], the
    durations pushed so far and the rest that is accumulating. The inner
    [while] loop advances [noteDuration] through the zeros after the onset;
    it ends at the end of the row at the latest. *)
Definition toDurations_body (rhythm : list value) (minDuration maxDuration : Q)
    (st : nat * list (option Q) * Q) : loop_step (nat * list (option Q) * Q) :=
  let '(i, durations, currentDuration) := st in
  if decide (get Undefined rhythm i = Num 1) then
    let '(durations, currentDuration) :=
      if decide (0 < currentDuration)%Q
      then (durations ++ [Some (- currentDuration)%Q], 0%Q)
      else (durations, currentDuration) in
    let noteDuration :=
      for_loop (length rhythm) 0
        (λ _ noteDuration,
           if decide (i + noteDuration < length rhythm
                      ∧ get Undefined rhythm (i + noteDuration) = Num 0)
           then Continue (S noteDuration)
           else Break noteDuration)
        1 in
    let scaledDuration :=
      mapValue (inject_Z (Z.of_nat noteDuration)) 1
        (inject_Z (Z.of_nat (length rhythm / 2))) minDuration maxDuration in
    Continue (i + (noteDuration - 1) + 1, durations ++ [scaledDuration],
              currentDuration)
  else Continue (i + 1, durations, (currentDuration + minDuration)%Q).

(** [toDurations(row, minDuration, maxDuration)]; a duration [None] is a
    number that is not finite, by a division by zero; the rests and the
    notes are exact numbers, see [mapValue]. *)
Definition toDurations (fuel : nat) (ca : t) (row : Z) (minDuration maxDuration : Q)
    : option (list (option Q)) * list console_event :=
  let '(rhythm, out) := toRhythm ca row in
  ('(_, durations, currentDuration) ←
     while_loop fuel
       (λ '(i, _, _), bool_decide (i < length rhythm))
       (toDurations_body rhythm minDuration maxDuration)
       (0, [], 0%Q);
   Some (if decide (0 < currentDuration)%Q
         then durations ++ [Some (- currentDuration)%Q]
         else durations),
   out).

(** The loop that [applyToSequence] and [applyToPitches] both start with:
    [while (full.length < notes.length) full.push(...caRhythm)]. *)
Definition tile {A} (fuel : nat) (caRhythm : list value) (notes : list A)
    : option (list value) :=
  while_loop fuel
    (λ full, bool_decide (length full < length notes))
    (λ full, Continue (full ++ caRhythm))
    [].

(** [applyToSequence(notes, durations, row)]: the pair
    [{notes, durations}]. *)
Definition applyToSequence (fuel : nat) (ca : t) (notes durations : list value)
    (row : Z) : option (list value * list value) * list console_event :=
  let '(caRhythm, out) := toRhythm ca row in
  match tile fuel caRhythm notes with
  | None => (None, out)
  | Some fullRhythm =>
      let rhythm := slice 0 (length notes) fullRhythm in
      (Some
         (for_loop (length notes) 0
            (λ i '(newNotes, newDurations),
               if decide (get Undefined rhythm i = Num 1)
               then Continue (newNotes ++ [get Undefined notes i],
                              newDurations ++ [get Undefined durations i])
               else Continue (newNotes, newDurations))
            ([], [])),
       out)
  end.

(** [count += pattern[index]]; [None] is [NaN]. *)
Definition add_cell (count : option Z) (cell : value) : option Z :=
  match count, cell with
  | Some c, Num z => Some (c + z)%Z
  | Some c, Null => Some c
  | _, _ => None
  end.

(** [applyToPitches(notes, row, range)]; a pitch [None] is [NaN]. *)
Definition applyToPitches (fuel : nat) (ca : t) (notes : list Z) (row : Z)
    (range : Z) : option (list (option Z)) * list console_event :=
  let '(caPattern, out) := toRhythm ca row in
  match tile fuel caPattern notes with
  | None => (None, out)
  | Some fullPattern =>
      let pattern := slice 0 (length notes) fullPattern in
      (Some
         (imap
            (λ i note,
               let neighborhood := 3 in
               let count :=
                 for_loop (2 * neighborhood + 1) 0
                   (λ k count,
                      let j := (Z.of_nat k - Z.of_nat neighborhood)%Z in
                      let index :=
                        Z.rem (Z.of_nat i + j + Z.of_nat (length pattern))
                              (Z.of_nat (length pattern)) in
                      Continue (add_cell count (getZ Undefined pattern index)))
                   (Some 0%Z) in
               count ← count;
               transposition ←
                 mapValue (inject_Z count) 0
                   (inject_Z (Z.of_nat (neighborhood * 2 + 1)))
                   (inject_Z (- range)) (inject_Z range);
               Some (Z.max 0 (Z.min 127
                       (Math_round (inject_Z note + transposition)))))
            notes),
       out)
  end.

(** [generatePitches(length, minPitch, maxPitch)]; a pitch [None] is a
    number that is not finite ([NaN], [Infinity]) for another reason than
    overflow: for the exact numbers see [mapValue]. *)
Definition generatePitches (fuel : nat) (ca : t) (length_ : nat)
    (minPitch maxPitch : Z) : option (list (option Z) * t) :=
  ca' ← while_loop fuel
          (λ ca, bool_decide (length (history ca) < length_))
          (λ ca, Continue (evolve ca).2)
          ca;
  Some
    (map
       (λ i,
          let state := get [] (history ca') (i mod length (history ca')) in
          let activeCount := for_of state (λ cell sum, add_cell sum cell) (Some 0%Z) in
          activeCount ≫= λ activeCount,
            if decide (size ca' = 0) then None
            else
              let normalizedPosition :=
                (inject_Z activeCount / inject_Z (Z.of_nat (size ca')))%Q in
              Some (Math_floor
                      (inject_Z minPitch
                       + normalizedPosition * inject_Z (maxPitch - minPitch))%Q))
       (seq 0 length_),
     ca').

(** The index of a neighborhood in the rule number: its three cells read
    as a binary numeral, left cell first. *)
Definition neighborhood_index (left center right : bool) : Z :=
  (4 * Z.b2z left + 2 * Z.b2z center + Z.b2z right)%Z.

Definition bit (b : bool) : value := Num (Z.b2z b).

(** What [evolve] is to put into cell [i] of the new row: the table's
    entry for the cells around [i] in the current row, the row being read
    as a ring. *)
Definition next_cell (ca : t) (i : nat) : value :=
  getNextCellState ca
    (get Undefined (currentState ca) ((i + size ca - 1) mod size ca))
    (get Undefined (currentState ca) i)
    (get Undefined (currentState ca) ((i + 1) mod size ca)).

(** The public operations of an automaton, and the object that a call
    leaves behind when it returns. Only [evolve], [evolveMultiple] and
    [generatePitches] assign to a field. *)
Inductive operation : Type :=
| call_evolve
| call_evolveMultiple (steps : nat)
| call_getHistory
| call_toRhythm (row : Z)
| call_toDurations (row : Z) (minDuration maxDuration : Q)
| call_applyToSequence (notes durations : list value) (row : Z)
| call_applyToPitches (notes : list Z) (row : Z) (range : Z)
| call_generatePitches (length_ : nat) (minPitch maxPitch : Z).

Definition run (fuel : nat) (op : operation) (ca : t) : option t :=
  match op with
  | call_evolve => Some (evolve ca).2
  | call_evolveMultiple steps => Some (evolveMultiple ca steps).2
  | call_getHistory => Some ca
  | call_toRhythm row => Some ca
  | call_toDurations row minDuration maxDuration =>
      (toDurations fuel ca row minDuration maxDuration).1 ≫= λ _, Some ca
  | call_applyToSequence notes durations row =>
      (applyToSequence fuel ca notes durations row).1 ≫= λ _, Some ca
  | call_applyToPitches notes row range =>
      (applyToPitches fuel ca notes row range).1 ≫= λ _, Some ca
  | call_generatePitches length_ minPitch maxPitch =>
      snd <$> generatePitches fuel ca length_ minPitch maxPitch
  end.

(** A cell that is 0 or 1; a row of width [W] of such cells; an automaton
    of an elementary rule whose rows are such rows. *)
Definition binary (v : value) : Prop := v = Num 0 ∨ v = Num 1.

Definition binary_row (W : nat) (row : list value) : Prop :=
  length row = W ∧ Forall binary row.

Definition well_formed (ca : t) : Prop :=
  (0 ≤ rule ca < 256)%Z
  ∧ ruleTable ca = generateRuleTable (rule ca)
  ∧ Forall (binary_row (size ca)) (history ca)
  ∧ last (history ca) = Some (currentState ca).

(** The positions below [n] at which a rhythm, repeated end to end, has an
    onset. *)
Definition kept_positions (caRhythm : list value) (n : nat) : list nat :=
  filter (λ i, caRhythm !! (i mod length caRhythm) = Some (Num 1)) (seq 0 n).

(** The number of onsets of a row, and the entries of the result of
    [toDurations] that are rests: the negative numbers. *)
Definition onsets (rhythm : list value) : nat :=
  length (filter (λ cell, cell = Num 1) rhythm).

Definition is_rest (duration : option Q) : bool :=
  match duration with
  | Some q => bool_decide (q < 0)%Q
  | None => false
  end.

End CellularAutomata.

(** ** js/markov-chain.js *)

Module MarkovChain.

(** The transition table is a [Map] whose keys are the JSON texts of
    arrays of symbols. A key is represented by the array that its text
    denotes: [JSON.stringify] writes [undefined] as [null] and every other
    value as itself, two texts are equal exactly when these arrays are, and
    [JSON.parse] gives the array back. *)
Definition JSON_stringify (a : list value) : list value :=
  (λ v, match v with Undefined => Null | _ => v end) <$> a.

Definition JSON_parse (text : list value) : list value := text.

Record t : Type := mk {
  order : nat;
  transitionTable : list (list value * list value);
  startingStates : list (list value)
}.

(** [constructor(order)] *)
Definition new (order : nat) : t :=
  {| order := order; transitionTable := []; startingStates := [] |}.

(** One round of the loop of [train]. *)
Definition train_body (order : nat) (sequence : list value) (i : nat)
    (table : list (list value * list value))
    : loop_step (list (list value * list value)) :=
  let state := JSON_stringify (slice i (i + order) sequence) in
  let nextValue := get Undefined sequence (i + order) in
  let table := if Map_has state table then table else Map_set state [] table in
  Continue (Map_alter (λ next, next ++ [nextValue]) state table).

(** [train(sequence)]: the object after the call, which is also what the
    call returns ([this]). The loop runs for [i = 0] up to and including
    [sequence.length - order - 1]. *)
Definition train (m : t) (sequence : list value) : t * list console_event :=
  if decide (length sequence ≤ order m)
  then (m, [console_warn
              ("Sequence too short for Markov order " +:+ pretty (order m))])
  else
    ({| order := order m;
        transitionTable :=
          for_loop (S (length sequence - order m - 1)) 0
            (train_body (order m) sequence) (transitionTable m);
        startingStates :=
          startingStates m ++ [slice 0 (order m) sequence] |},
     []).

(** One round of the loop of [generate], on the sequence, the console
    output and the number of calls of [Math.random()] so far. A context is
    in the table exactly when [get] finds an array for it. *)
Definition generate_body (random : nat → Q) (m : t)
    (st : list value * list console_event * nat)
    : loop_step (list value * list console_event * nat) :=
  let '(sequence, out, calls) := st in
  let state :=
    JSON_stringify
      (slice_from (Z.of_nat (length sequence) - Z.of_nat (order m)) sequence) in
  match Map_get state (transitionTable m) with
  | Some possibleNextValues =>
      let nextValue :=
        get Undefined possibleNextValues
          (random_index (random calls) (length possibleNextValues)) in
      Continue (sequence ++ [nextValue], out, S calls)
  | None =>
      if decide (0 < length (startingStates m)) then
        let randomState :=
          get [] (startingStates m)
            (random_index (random calls) (length (startingStates m))) in
        Continue (sequence ++ [get Undefined randomState 0], out, S calls)
      else
        Break (sequence,
               out ++ [console_warn
                         "No transition found and no starting states available"],
               calls)
  end.

(** [generate(length, startState)]. [random k] is the number in [[0, 1)]
    that the [k]-th call of [Math.random()] returns; [startState] is
    [None] when it is left out or [null]. *)
Definition generate (fuel : nat) (random : nat → Q) (m : t) (length_ : nat)
    (startState : option (list value))
    : option (list value * list console_event) :=
  if decide (length (transitionTable m) = 0)
  then Some ([], [console_error "Markov chain not trained yet"])
  else
    let loop sequence calls :=
      '(sequence, out, _) ←
        while_loop fuel
          (λ '(sequence, _, _), bool_decide (length sequence < length_))
          (generate_body random m)
          (sequence, [], calls);
      Some (sequence, out) in
    let from_pool :=
      if decide (0 < length (startingStates m)) then
        let randomIndex := random_index (random 0) (length (startingStates m)) in
        loop (get [] (startingStates m) randomIndex) 1
      else Some ([], [console_error "No valid starting state available"]) in
    match startState with
    | Some s => if decide (length s = order m) then loop s 0 else from_pool
    | None => from_pool
    end.

(** The comparator [(a, b) => a - b] of the sort in [getProbabilityMatrix],
    read as "[a] may stand before [b]"; [sort] moves every [undefined] to
    the end without asking the comparator, and [null] counts as [0]. *)
Definition ToNumber (v : value) : Z :=
  match v with Num z => z | _ => 0%Z end.

Definition sort_le (a b : value) : Prop :=
  match a, b with
  | _, Undefined => True
  | Undefined, _ => False
  | _, _ => (ToNumber a ≤ ToNumber b)%Z
  end.

#[global] Instance sort_le_dec a b : Decision (sort_le a b).
Proof. destruct a, b; simpl; apply _. Defined.

(** The writes [matrix[fromState][toState]++] and
    [matrix[fromState][toState] /= total]: the entry becomes [f] of itself. *)
Definition alter_cell (f : Q → Q) (fromState toState : value)
    (matrix : list (value * list (value * Q))) : list (value * list (value * Q)) :=
  Map_alter (Map_alter f toState) fromState matrix.

(** [Object.values(row).reduce((sum, count) => sum + count, 0)] *)
Definition row_total (row : list (value * Q)) : Q :=
  for_of row (λ '(_, count) sum, (sum + count)%Q) 0%Q.

(** The four loops of [getProbabilityMatrix]: the set of the states that
    occur as from-state or as successor, *)
Definition collect_states (table : list (list value * list value)) : list value :=
  for_of table
    (λ '(state, nextStates) uniqueStates,
       let parsedState := get Undefined (JSON_parse state) 0 in
       for_of nextStates Set_add (Set_add parsedState uniqueStates))
    [].

(** the matrix of zeros over the sorted states, *)
Definition zero_matrix (states : list value) : list (value * list (value * Q)) :=
  for_of states
    (λ fromState matrix,
       Map_set fromState
         (for_of states (λ toState row, Map_set toState 0%Q row) [])
         matrix)
    [].

(** the count of the transitions, *)
Definition count_transitions (table : list (list value * list value))
    (matrix : list (value * list (value * Q))) : list (value * list (value * Q)) :=
  for_of table
    (λ '(stateStr, nextValues) matrix,
       let fromState := get Undefined (JSON_parse stateStr) 0 in
       for_of nextValues
         (λ toState matrix,
            alter_cell (λ count, (count + 1)%Q) fromState toState matrix)
         matrix)
    matrix.

(** and the division of every row with a positive total by that total. *)
Definition normalize_row (states : list value) (fromState : value)
    (matrix : list (value * list (value * Q))) : list (value * list (value * Q)) :=
  let total := row_total (default [] (Map_get fromState matrix)) in
  if decide (0 < total)%Q then
    for_of states
      (λ toState matrix,
         alter_cell (λ count, (count / total)%Q) fromState toState matrix)
      matrix
  else matrix.

Definition normalize (states : list value)
    (matrix : list (value * list (value * Q))) : list (value * list (value * Q)) :=
  for_of states (normalize_row states) matrix.

(** [getProbabilityMatrix()]: [None] is [null]. *)
Definition getProbabilityMatrix (m : t)
    : option (list value * list (value * list (value * Q)))
      * list console_event :=
  if decide (order m ≠ 1)
  then (None,
        [console_warn
           "Probability matrix only available for first-order Markov chains"])
  else
    let uniqueStates := collect_states (transitionTable m) in
    let states := merge_sort sort_le uniqueStates in
    let matrix := zero_matrix states in
    let matrix := count_transitions (transitionTable m) matrix in
    let matrix := normalize states matrix in
    (Some (states, matrix), []).

(** The transitions that the table has observed from a state: the
    successors of the contexts whose symbol is the state. *)
Definition transitions_from (table : list (list value * list value))
    (fromState : value) : list value :=
  concat ((λ '(state, nextValues),
             if decide (get Undefined (JSON_parse state) 0 = fromState)
             then nextValues else [])
          <$> table).

(** A matrix given by its entries: the rows of the states, in order, each
    with the columns of the states, in order. *)
Definition matrix_row (states : list value) (entries : value → value → Q)
    (fromState : value) : list (value * Q) :=
  (λ toState, (toState, entries fromState toState)) <$> states.

Definition matrix_of (states : list value) (entries : value → value → Q)
    : list (value * list (value * Q)) :=
  (λ fromState, (fromState, matrix_row states entries fromState)) <$> states.

(** The entries after [entries fromState toState] has become
    [f (entries fromState toState)]. *)
Definition alter_entry (f : Q → Q) (fromState toState : value)
    (entries : value → value → Q) : value → value → Q :=
  λ s t', if decide (s = fromState ∧ t' = toState) then f (entries s t')
          else entries s t'.

(** The entries that counting builds. *)
Definition counted (table : list (list value * list value))
    (entries : value → value → Q) : value → value → Q :=
  for_of table
    (λ '(stateStr, nextValues) entries,
       let fromState := get Undefined (JSON_parse stateStr) 0 in
       for_of nextValues
         (λ toState entries, alter_entry (λ count, (count + 1)%Q) fromState toState entries)
         entries)
    entries.

(** The sum of a list of numbers. *)
Definition Qsum (l : list Q) : Q := foldr Qplus 0%Q l.

(** The body of the inner loop of [updateProbabilities], for one entry
    [toState: probability] of the object of a from-state. The answer is
    [None] when the call does not return: the loop pushes [count] times, a
    push on a full array throws, and that is also how the loop for
    [count = Infinity] ends. *)
Definition add_transitions (stateKey : list value) (entry : Z * float)
    (table : list (list value * list value))
    : option (list (list value * list value)) :=
  let '(toState, probability) := entry in
  if PrimFloat.leb probability 0 then Some table
  else
    let count := Math_round_double (PrimFloat.mul probability 100) in
    let table :=
      if Map_has stateKey table then table else Map_set stateKey [] table in
    match loop_rounds count with
    | Some rounds =>
        let room :=
          (max_array_length
           - Z.of_nat (length (default [] (Map_get stateKey table))))%Z in
        if decide (rounds = 0 ∨ (Z.of_nat rounds ≤ room)%Z) then
          Some (for_loop rounds 0
                  (λ _ table,
                     Continue (Map_alter (λ next, next ++ [Num toState])
                                 stateKey table))
                  table)
        else None
    | None => None
    end.

(** The body of the outer loop, for one entry [fromState: transitions];
    after a throw nothing more is done. *)
Definition add_from_state (entry : Z * list (Z * float))
    (table : option (list (list value * list value)))
    : option (list (list value * list value)) :=
  let '(fromState, transitions) := entry in
  let stateKey := JSON_stringify [Num fromState] in
  for_of transitions (λ entry table, table ≫= add_transitions stateKey entry) table.

(** [updateProbabilities(newProbabilities)]. The argument is given by its
    [Object.entries]: the from-states with, for each, the entries of its
    object of to-states; a state is the integer that [parseInt] reads from
    the property name, a probability is a double. [None]: the call throws. *)
Definition updateProbabilities (m : t)
    (newProbabilities : list (Z * list (Z * float)))
    : option (t * list console_event) :=
  if decide (order m ≠ 1)
  then Some (m, [console_warn
                   "Updating probabilities only available for first-order Markov chains"])
  else
    table ← for_of newProbabilities add_from_state (Some []);
    Some ({| order := order m;
             transitionTable := table;
             startingStates := startingStates m |},
          []).

(** Every starting state has as many symbols as the order: [train] is the
    only method that adds one. *)
Definition starting_states_wf (m : t) : Prop :=
  Forall (λ state, length state = order m) (startingStates m).

(** The successors that the table has for the context of one symbol. *)
Definition successors (m : t) (fromState : Z) : list value :=
  default [] (Map_get (JSON_stringify [Num fromState]) (transitionTable m)).

(** The copies that [updateProbabilities] makes for one declared entry
    [toState: probability] when it returns. *)
Definition copies (entry : Z * float) : list value :=
  if PrimFloat.leb entry.2 0 then []
  else
    replicate
      (default 0 (loop_rounds (Math_round_double (PrimFloat.mul entry.2 100))))
      (Num entry.1).

(** [n] is [x] rounded to an integer as the specification's [round] does:
    the integer nearest to [x], the upper one when two are as near. *)
Definition rounds_to (x : Q) (n : Z) : Prop :=
  (inject_Z n - (1 # 2) <= x)%Q ∧ (x < inject_Z n + (1 # 2))%Q.

(** The declared entries of one from-state can be stored: no count is
    infinite, and the copies of all of them fit into one array. *)
Definition storable (transitions : list (Z * float)) : Prop :=
  Forall (λ entry, PrimFloat.leb entry.2 0 = false →
                   is_Some (loop_rounds
                              (Math_round_double (PrimFloat.mul entry.2 100))))
    transitions
  ∧ (Z.of_nat (length (concat (copies <$> transitions))) ≤ max_array_length)%Z.

(** The double [k / 100], for a number [k] of hundredths. *)
Definition hundredth (k : nat) : float :=
  PrimFloat.div (PrimFloat.of_uint63 (Uint63Axioms.of_Z (Z.of_nat k))) 100.

(** A theme as [generateWithThemes] reads it: [notes] is [None] when the
    property is missing. *)
Record theme : Type := mk_theme {
  name : string;
  notes : option (list value)
}.

(** One round of the second loop of [generateWithThemes]. *)
Definition generateWithThemes_body (themes : list theme) (themePositions : list nat)
    (i : nat) (baseSequence : list value) : loop_step (list value) :=
  match themes !! i with
  | None => Continue baseSequence
  | Some theme =>
      let position := get 0 themePositions i in
      if decide (length baseSequence ≤ position) then Continue baseSequence
      else
        match notes theme with
        | None | Some [] => Continue baseSequence
        | Some theme_notes =>
            let notesToReplace :=
              Nat.min (length theme_notes) (length baseSequence - position) in
            Continue
              (for_loop notesToReplace 0
                 (λ j baseSequence,
                    Continue (JS.set Undefined baseSequence (position + j)
                                (get Undefined theme_notes j)))
                 baseSequence)
        end
  end.

(** [generateWithThemes(length, themes)]; [themes] is [None] when it is
    [null] or left out. *)
Definition generateWithThemes (fuel : nat) (random : nat → Q) (m : t)
    (length_ : nat) (themes : option (list theme))
    : option (list value * list console_event) :=
  match themes with
  | None | Some [] => generate fuel random m length_ None
  | Some themes =>
      '(baseSequence, out) ← generate fuel random m length_ None;
      let segmentSize := length_ / length themes in
      let themePositions :=
        for_loop (length themes) 0
          (λ i themePositions, Continue (themePositions ++ [i * segmentSize]))
          [] in
      Some (for_loop (length themes) 0
              (generateWithThemes_body themes themePositions) baseSequence,
            out)
  end.

(** The models that [train] alone builds. *)
Inductive trained : t → Prop :=
| trained_new (order : nat) : trained (new order)
| trained_train (m : t) (sequence : list value) :
    trained m → trained (train m sequence).1.

(** The symbol at position [i] of a walk continues the walk as [generate]
    does: it is a successor that the table has for the [order] symbols
    before it, or, when the table has none for them, the first symbol of a
    starting state. *)
Definition walk_step_ok (m : t) (sequence : list value) (i : nat) : Prop :=
  let context := slice (i - order m) i sequence in
  match Map_get (JSON_stringify context) (transitionTable m) with
  | Some possibleNextValues =>
      ∃ v, sequence !! i = Some v ∧ v ∈ possibleNextValues
  | None =>
      ∃ state, state ∈ startingStates m
               ∧ sequence !! i = Some (get Undefined state 0)
  end.

End MarkovChain.

(** ** PianoRollVisualizer *)

Module PianoRollVisualizer.

Definition noteNames : list string :=
  ["C"; "C#"; "D"; "D#"; "E"; "F"; "F#"; "G"; "G#"; "A"; "A#"; "B"].

(** [getMidiNoteName(pitch)] for an integer [pitch]. [%] is the remainder
    with the sign of the dividend; at a negative index [noteNames] has no
    element, and the template literal writes [undefined] for it. *)
Definition getMidiNoteName (pitch : Z) : string :=
  let octave := (Math_floor (inject_Z pitch / 12) - 1)%Z in
  let note :=
    if (Z.rem pitch 12 <? 0)%Z then None
    else noteNames !! Z.to_nat (Z.rem pitch 12) in
  default "undefined" note +:+ pretty octave.

End PianoRollVisualizer.

(** * Properties *)

(** ** Loops, strings and arithmetic *)

Section loops.
Context {S : Type}.

(** A loop whose body never leaves early is the iteration of its body. *)
Lemma for_loop_iter (f : S → S) (n lo : nat) (s : S) :
  for_loop n lo (λ _ s, Continue (f s)) s = Nat.iter n f s.
Proof.
  revert lo s. induction n as [|n IH]; intros lo s; [done|].
  cbn [for_loop]. rewrite IH. apply Nat.iter_swap.
Qed.

(** Invariant rule for a counted loop: [P i s] holds before round [i], is
    kept by a round that continues, and gives [Q] at a [break] and after
    the last round. *)
Lemma for_loop_ind (P : nat → S → Prop) (Q : S → Prop)
    (body : nat → S → loop_step S) (n lo : nat) (s : S) :
  P lo s →
  (∀ i s, lo ≤ i < lo + n → P i s →
     match body i s with
     | Continue s' => P (Datatypes.S i) s'
     | Break s' => Q s'
     end) →
  (∀ s, P (lo + n) s → Q s) →
  Q (for_loop n lo body s).
Proof.
  revert lo s. induction n as [|n IH]; intros lo s HP Hstep Hend.
  - apply Hend. by rewrite Nat.add_0_r.
  - cbn [for_loop]. specialize (Hstep lo s ltac:(lia) HP) as Hlo.
    destruct (body lo s) as [s'|s']; [|done].
    apply IH; [done| |].
    + intros i t Hi. apply Hstep. lia.
    + intros t Ht. apply Hend. by replace (lo + Datatypes.S n) with (Datatypes.S lo + n) by lia.
Qed.

(** More fuel does not change the result of a [while] loop. *)
Lemma while_loop_fuel_mono (cond : S → bool) (body : S → loop_step S)
    (fuel fuel' : nat) (s r : S) :
  fuel ≤ fuel' →
  while_loop fuel cond body s = Some r →
  while_loop fuel' cond body s = Some r.
Proof.
  revert fuel' s. induction fuel as [|fuel IH]; intros fuel' s Hle; [done|].
  destruct fuel' as [|fuel']; [lia|]. cbn [while_loop].
  destruct (cond s); [|done].
  destruct (body s); [|done]. apply IH. lia.
Qed.

(** Total correctness of a [while] loop: with an invariant [P] and a
    measure that every continuing round decreases, the loop ends within
    any fuel above the measure, in a state that satisfies [Q]. *)
Lemma while_loop_total (measure : S → nat) (P Q : S → Prop)
    (cond : S → bool) (body : S → loop_step S) :
  (∀ s, P s → cond s = false → Q s) →
  (∀ s, P s → cond s = true →
     match body s with
     | Continue s' => P s' ∧ measure s' < measure s
     | Break s' => Q s'
     end) →
  ∀ fuel s, P s → measure s < fuel →
    ∃ r, while_loop fuel cond body s = Some r ∧ Q r.
Proof.
  intros Hexit Hstep fuel.
  induction fuel as [|fuel IH]; intros s HP Hfuel; [lia|].
  cbn [while_loop]. destruct (cond s) eqn:Hcond.
  - specialize (Hstep s HP Hcond). destruct (body s) as [s'|s'].
    + destruct Hstep as [HP' Hlt]. apply IH; [done|lia].
    + by exists s'.
  - exists s. auto.
Qed.
End loops.

(** A [Map] read after a write. *)
Section map_facts.
Context {K V : Type} `{EqDecision K}.
Implicit Types (m : list (K * V)) (k : K) (v : V).

Lemma Map_has_get k m : Map_has k m = true ↔ is_Some (Map_get k m).
Proof. unfold Map_has. apply bool_decide_eq_true. Qed.

Lemma Map_has_false k m : Map_has k m = false ↔ Map_get k m = None.
Proof.
  unfold Map_has. rewrite bool_decide_eq_false. symmetry. apply eq_None_not_Some.
Qed.

Lemma Map_get_app k m m' :
  Map_get k (m ++ m') = match Map_get k m with
                        | Some v => Some v
                        | None => Map_get k m'
                        end.
Proof.
  induction m as [|[k' v] m IH]; [done|]. cbn. by case_decide.
Qed.

Lemma Map_get_alter (f : V → V) k k' m :
  Map_get k' (Map_alter f k m)
  = if decide (k = k') then f <$> Map_get k' m else Map_get k' m.
Proof.
  induction m as [|[k0 v] m IH]; [by case_decide|]. cbn.
  destruct (decide (k0 = k)) as [->|Hne]; cbn.
  - destruct (decide (k = k')); [done|done].
  - destruct (decide (k0 = k')) as [->|Hne'].
    + by rewrite decide_False by congruence.
    + done.
Qed.

Lemma Map_get_set k k' v m :
  Map_get k' (Map_set k v m) = if decide (k = k') then Some v else Map_get k' m.
Proof.
  unfold Map_set. destruct (Map_has k m) eqn:Hhas.
  - rewrite Map_get_alter. case_decide as Heq; [|done]. subst k'.
    apply Map_has_get in Hhas as [v' ->]. done.
  - apply Map_has_false in Hhas. rewrite Map_get_app. cbn.
    destruct (decide (k = k')) as [<-|Hne].
    + by rewrite Hhas.
    + by destruct (Map_get k' m).
Qed.

Lemma Map_alter_length (f : V → V) k m : length (Map_alter f k m) = length m.
Proof.
  induction m as [|[k0 v] m IH]; [done|]. cbn.
  case_decide; cbn; by rewrite ?IH.
Qed.

Lemma Map_get_nonempty k m : is_Some (Map_get k m) → m ≠ [].
Proof. by intros [v Hv] ->. Qed.

Lemma Map_get_None k m : k ∉ m.*1 → Map_get k m = None.
Proof.
  induction m as [|[k' v] m IH]; [done|]. cbn.
  rewrite not_elem_of_cons. intros [Hne Hnotin].
  rewrite decide_False by done. by apply IH.
Qed.

Lemma Map_get_fmap (h : K → V) k (l : list K) :
  Map_get k ((λ s, (s, h s)) <$> l) = if decide (k ∈ l) then Some (h k) else None.
Proof.
  induction l as [|s l IH]; cbn.
  - rewrite decide_False; [done|]. apply not_elem_of_nil.
  - destruct (decide (s = k)) as [->|Hne].
    + rewrite decide_True; [done|]. apply list_elem_of_here.
    + rewrite IH. destruct (decide (k ∈ l)) as [Hin|Hnotin].
      * rewrite decide_True; [done|]. by apply list_elem_of_further.
      * rewrite decide_False; [done|]. rewrite not_elem_of_cons. split; congruence.
Qed.

Lemma Map_alter_fmap (g : V → V) (h : K → V) k (l : list K) :
  NoDup l →
  Map_alter g k ((λ s, (s, h s)) <$> l)
  = (λ s, (s, if decide (s = k) then g (h s) else h s)) <$> l.
Proof.
  induction l as [|s l IH]; [done|]. rewrite NoDup_cons. intros [Hnotin Hnodup].
  cbn. destruct (decide (s = k)) as [->|Hne].
  - f_equal. apply list_fmap_ext. intros i s Hs.
    rewrite decide_False; [done|]. intros ->. apply Hnotin.
    by eapply list_elem_of_lookup_2.
  - f_equal. by apply IH.
Qed.

Lemma for_of_Map_set (f : K → V) (l : list K) m :
  NoDup (m.*1 ++ l) →
  for_of l (λ x m, Map_set x (f x) m) m = m ++ ((λ x, (x, f x)) <$> l).
Proof.
  unfold for_of. revert m. induction l as [|x l IH]; intros m Hnodup; cbn.
  - by rewrite app_nil_r.
  - assert (x ∉ m.*1) as Hx.
    { apply NoDup_app in Hnodup as (_ & Hdisj & _). intros Hin.
      apply (Hdisj x Hin). apply list_elem_of_here. }
    unfold Map_set at 2. rewrite (proj2 (Map_has_false x m)) by (by apply Map_get_None).
    rewrite IH.
    + by rewrite <- app_assoc.
    + rewrite fmap_app. cbn. rewrite <- app_assoc. cbn.
      by rewrite (cons_middle x) in Hnodup.
Qed.
End map_facts.

Lemma append_nil_r (s : string) : s +:+ EmptyString = s.
Proof.
induction s as [|c s IH]; [done|].
change (String c (s +:+ EmptyString) = String c s). by f_equal.
Qed.

Lemma append_assoc (s1 s2 s3 : string) : (s1 +:+ s2) +:+ s3 = s1 +:+ (s2 +:+ s3).
Proof.
induction s1 as [|c s1 IH]; [done|].
change (String c ((s1 +:+ s2) +:+ s3) = String c (s1 +:+ (s2 +:+ s3))).
by f_equal.
Qed.

Lemma ceil_div_covers (n m : nat) : 0 < m → n ≤ ceil_div n m * m.
Proof.
intros Hm. unfold ceil_div.
pose proof (Nat.div_mod_eq n m) as Hdiv.
pose proof (Nat.mod_upper_bound n m ltac:(lia)) as Hmod.
destruct (Nat.eqb_spec (n mod m) 0) as [Hz|Hnz]; nia.
Qed.

(** ** LSystem *)

Section lsystem.
Import LSystem.

(** The inner loop of [generate] appends, symbol by symbol, what the
    specification's map produces, as long as no rule has an empty
    replacement. *)
Lemma rewrite_spec_rewrite (rules : gmap ascii string) (current next : string) :
  (∀ c, rules !! c ≠ Some EmptyString) →
  rewrite rules current next = next +:+ spec_rewrite rules current.
Proof.
  intros Hne. revert next.
  induction current as [|symbol rest IH]; intros next; cbn.
  - by rewrite append_nil_r.
  - rewrite IH. unfold rewrite_symbol.
    specialize (Hne symbol).
    destruct (rules !! symbol) as [[|c r]|]; [done| |];
      by rewrite append_assoc.
Qed.

(** On grammars without empty replacements [generate] is the iterated
    map of the specification, and it stores what it returns. *)
Lemma generate_refines_spec (ls : t) (iterations : nat) :
  (∀ c, rules ls !! c ≠ Some EmptyString) →
  (generate ls iterations).1 = spec_generate (axiom ls) (rules ls) iterations
  ∧ result (generate ls iterations).2 = (generate ls iterations).1.
Proof.
  intros Hne. split; [|done]. unfold generate, spec_generate. cbn.
  rewrite (for_loop_iter (λ current, rewrite (rules ls) current EmptyString)).
  induction iterations as [|n IH]; [done|].
  rewrite !Nat.iter_succ, IH. by rewrite rewrite_spec_rewrite.
Qed.

(** The scenario of the specification: two iterations of the grammar
    [A -> AB, B -> A] from the axiom [A]. *)
Lemma generate_fibonacci_2 : (generate fibonacci 2).1 = "ABA".
Proof. vm_compute. reflexivity. Qed.

(** C4. [generate] is not the iterated map of the specification on every
    grammar: a rule whose replacement is the empty string is a rule that
    exists, so the map erases its symbol, but [generate] tests the
    replacement for truthiness and keeps the symbol. With axiom [A] and the
    rule [A -> ""] (which [parseRules] reads from the text "A->") one
    iteration of the map gives the empty string and [generate(1)] returns
    [A]. *)
Theorem generate_keeps_symbol_of_erasing_rule :
  let rules : gmap ascii string := {[ "A"%char := EmptyString ]} in
  (generate (new "A" rules) 1).1 = "A"
  ∧ spec_generate "A" rules 1 = EmptyString.
Proof. split; vm_compute; reflexivity. Qed.

(** The notes that a window adds are those that the whole output has
    between the window's bounds. *)
Lemma take_window (g : nat → Z → Z) (f : Z → Z) (l : list Z) (a b : nat) :
  a ≤ b →
  (∀ j x, a ≤ j < b → g j x = f x) →
  take b (imap g l) = take a (imap g l) ++ (f <$> slice a (Nat.min b (length l)) l).
Proof.
  intros Hab Hg. replace b with (a + (b - a)) at 1 by lia.
  rewrite <- take_take_drop. f_equal. unfold slice.
  apply list_eq. intros i.
  rewrite list_lookup_fmap, !lookup_take, !lookup_drop, list_lookup_imap.
  repeat case_decide; try lia.
  - destruct (l !! (a + i)); [|done]. cbn. f_equal. apply Hg. lia.
  - rewrite lookup_ge_None_2 by lia. done.
  - done.
Qed.

(** C3. After a derivation has been generated, [applyToMusic] returns, at
    every index [j] of the input, the input's note at [j] transformed as
    the window [j / segmentSize] asks: the windows are disjoint, they are
    laid out in order, and they cover the input, so the output is as long
    as the input. *)
Theorem applyToMusic_covers_input (ls : t) (sequence : list Z)
    (transformations : option (gmap ascii (Z → Z))) :
  result ls ≠ EmptyString →
  let segmentSize := ceil_div (length sequence) (String.length (result ls)) in
  let transforms := default defaultTransform transformations in
  let output := (applyToMusic ls sequence transformations).1 in
  output
  = imap (λ j note, window_transform (result ls) transforms (j / segmentSize) note)
      sequence
  ∧ length output = length sequence.
Proof.
  intros Hne segmentSize transforms output.
  assert (0 < String.length (result ls)) as Hlen
    by (destruct (result ls); [done|cbn; lia]).
  set (expected := imap _ sequence).
  assert (output = expected) as ->; [|split; [done|apply length_imap]].
  subst output. unfold applyToMusic.
  destruct (Nat.eqb_spec (String.length (result ls)) 0) as [|_]; [lia|].
  cbn [fst]. fold transforms segmentSize.
  apply (for_loop_ind (λ i transformed, transformed = take (i * segmentSize) expected)).
  - done.
  - intros i transformed [_ Hi] ->. unfold applyToMusic_body.
    case_decide as Hstart.
    + apply take_ge. subst expected. by rewrite length_imap.
    + pose proof (ceil_div_covers (length sequence) _ Hlen) as Hcov.
      fold segmentSize in Hcov.
      assert (0 < segmentSize) as Hseg by nia.
      pose proof (take_window
        (λ j note, window_transform (result ls) transforms (j / segmentSize) note)
        (window_transform (result ls) transforms i)
        sequence (i * segmentSize) ((i + 1) * segmentSize)) as Hwin.
      fold expected in Hwin. replace (S i) with (i + 1) by lia. rewrite Hwin.
      * unfold window_transform.
        destruct (String.get i (result ls) ≫= _) as [f|]; [done|].
        by rewrite list_fmap_id.
      * lia.
      * intros j x Hj. f_equal. symmetry.
        apply Nat.div_unique with (j - i * segmentSize); lia.
  - intros transformed ->. apply take_ge. subst expected.
    rewrite length_imap.
    pose proof (ceil_div_covers (length sequence) _ Hlen) as Hcov.
    fold segmentSize in Hcov. lia.
Qed.

Lemma applyToMusic_covers_input_witness :
  let ls := (generate fibonacci 2).2 in
  (applyToMusic ls [60; 61; 62; 63; 64]%Z None).1 = [61; 62; 61; 62; 65]%Z
  ∧ length (applyToMusic ls [60; 61; 62; 63; 64]%Z None).1 = 5.
Proof.
  intros ls.
  destruct (applyToMusic_covers_input ls [60; 61; 62; 63; 64]%Z None
              ltac:(vm_compute; discriminate)) as [Hout Hlen].
  split; [|exact Hlen]. rewrite Hout. vm_compute. reflexivity.
Defined.

End lsystem.

(** ** CellularAutomata *)

Lemma land_pow2 (a i : Z) :
(0 ≤ i)%Z → Z.land a (2 ^ i) = if Z.testbit a i then (2 ^ i)%Z else 0%Z.
Proof.
intros Hi. apply Z.bits_inj'. intros n Hn.
rewrite Z.land_spec, Z.pow2_bits_eqb by lia.
destruct (Z.eqb_spec i n) as [->|Hne].
- rewrite andb_true_r. destruct (Z.testbit a n) eqn:Hb.
  + by rewrite Z.pow2_bits_true.
  + by rewrite Z.bits_0.
- rewrite andb_false_r. destruct (Z.testbit a i).
  + by rewrite Z.pow2_bits_false.
  + by rewrite Z.bits_0.
Qed.

Section automaton.
Import CellularAutomata.

(** The test [rule & (1 << i)] of [generateRuleTable] reads bit [i] of
    the rule number. *)
Lemma rule_bit (rule : Z) (i : nat) :
  (0 ≤ rule < 256)%Z → i < 8 →
  (if decide (Z.land (ToInt32 rule) (ToInt32 (Z.shiftl 1 (Z.of_nat i mod 32))) ≠ 0%Z)
   then 1%Z else 0%Z) = Z.b2z (Z.testbit rule (Z.of_nat i)).
Proof.
  intros Hrule Hi.
  assert (ToInt32 rule = rule) as ->.
  { unfold ToInt32. rewrite Z.mod_small; lia. }
  assert (0 < 2 ^ Z.of_nat i ≤ 2 ^ 7)%Z as Hpow.
  { split; [apply Z.pow_pos_nonneg; lia|apply Z.pow_le_mono_r; lia]. }
  assert (ToInt32 (Z.shiftl 1 (Z.of_nat i mod 32)) = 2 ^ Z.of_nat i)%Z as ->.
  { rewrite Z.mod_small by lia. rewrite Z.shiftl_1_l.
    unfold ToInt32. rewrite Z.mod_small; lia. }
  rewrite land_pow2 by lia.
  destruct (Z.testbit rule (Z.of_nat i)); case_decide; simpl; lia.
Qed.

(** The entry of the rule table for a neighborhood of three bits. *)
Lemma generateRuleTable_lookup (rule : Z) (l c r : bool) :
  (0 ≤ rule < 256)%Z →
  generateRuleTable rule
    !! (to_string (bit l) +:+ to_string (bit c) +:+ to_string (bit r))
  = Some (Z.b2z (Z.testbit rule (neighborhood_index l c r))).
Proof.
  intros Hrule. unfold generateRuleTable. cbn [for_loop].
  destruct l, c, r;
    match goal with
    | |- _ !! ?k = _ => let k' := eval vm_compute in k in change k with k'
    end;
    repeat
      (match goal with
       | |- <[?k1 := _]> _ !! ?k2 = _ =>
           let k := eval vm_compute in k1 in
           change k1 with k;
           first [ rewrite lookup_insert_ne by done
                 | rewrite lookup_insert_eq ]
       end);
    f_equal.
  all: match goal with
       | |- context [(Z.of_nat ?i mod 32)%Z] => exact (rule_bit rule i Hrule ltac:(lia))
       end.
Qed.

Lemma left_index (i n : nat) :
  i < n →
  Z.rem (Z.of_nat i - 1 + Z.of_nat n) (Z.of_nat n) = Z.of_nat ((i + n - 1) mod n).
Proof.
  intros Hi. rewrite Z.rem_mod_nonneg by lia.
  rewrite Nat2Z.inj_mod. f_equal. lia.
Qed.

Lemma getZ_of_nat {A} (undef : A) (a : list A) (i : nat) :
  getZ undef a (Z.of_nat i) = get undef a i.
Proof.
  unfold getZ. destruct (Z.ltb_spec (Z.of_nat i) 0); [lia|].
  by rewrite Nat2Z.id.
Qed.

Lemma evolve_cells (ca : t) :
  length (evolve ca).1 = size ca
  ∧ ∀ i, i < size ca → (evolve ca).1 !! i = Some (next_cell ca i).
Proof.
  unfold evolve. cbn [fst].
  apply (for_loop_ind
           (λ i nextState,
              length nextState = size ca
              ∧ ∀ j, j < i → nextState !! j = Some (next_cell ca j))).
  - split; [apply length_replicate|]. intros j Hj. lia.
  - intros i nextState [_ Hi] [Hlen Hcells]. unfold evolve_body.
    rewrite left_index, getZ_of_nat by lia. fold (next_cell ca i).
    unfold JS.set. rewrite decide_True by lia. split.
    + by rewrite length_insert.
    + intros j Hj. destruct (decide (j = i)) as [->|Hne].
      * apply list_lookup_insert_eq. lia.
      * rewrite list_lookup_insert_ne by done. apply Hcells. lia.
  - intros nextState [Hlen Hcells]. split; [done|].
    intros i Hi. apply Hcells. lia.
Qed.

(** C5. The constructor builds a table of eight entries in which the
    neighborhood [left, center, right], read as a binary numeral, has bit
    number [4*left + 2*center + right] of the rule number. In every later
    state of the automaton, [evolve] returns a row of the automaton's width
    whose cell [i] is the table's entry for the cells [i-1], [i] and [i+1]
    (indices taken modulo the width) of the row before the call; no cell
    of the new row is read. *)
Theorem evolve_applies_rule_table (rule : Z) (W : nat)
    (initialState : option (list value)) :
  (0 ≤ rule < 256)%Z →
  let table := ruleTable (new rule W initialState) in
  base.size table = 8
  ∧ (∀ l c r : bool,
       table !! (to_string (bit l) +:+ to_string (bit c) +:+ to_string (bit r))
       = Some (Z.b2z (Z.testbit rule (neighborhood_index l c r))))
  ∧ ∀ ca : t,
      ruleTable ca = table → size ca = W →
      let previous := currentState ca in
      let next := (evolve ca).1 in
      length next = W
      ∧ (∀ i, i < W →
           next !! i
           = Some (getNextCellState ca
                     (get Undefined previous ((i + W - 1) mod W))
                     (get Undefined previous i)
                     (get Undefined previous ((i + 1) mod W))))
      ∧ (∀ i (l c r : bool), i < W →
           previous !! ((i + W - 1) mod W) = Some (bit l) →
           previous !! i = Some (bit c) →
           previous !! ((i + 1) mod W) = Some (bit r) →
           next !! i = Some (bit (Z.testbit rule (neighborhood_index l c r)))).
Proof.
  intros Hrule table. split; [reflexivity|]. split.
  { intros l c r. by apply generateRuleTable_lookup. }
  intros ca Htable <- previous next.
  destruct (evolve_cells ca) as [Hlen Hcells].
  split; [done|]. split; [done|].
  intros i l c r Hi Hl Hc Hr. subst next. rewrite Hcells by done.
  unfold next_cell, get. fold previous. rewrite Hl, Hc, Hr. cbn [default from_option id].
  unfold getNextCellState. rewrite Htable. subst table. cbn [new ruleTable].
  by rewrite generateRuleTable_lookup.
Qed.

Lemma evolve_applies_rule_table_witness :
  base.size (ruleTable (new 30 8 None)) = 8
  ∧ (evolve (new 30 8 None)).1 !! 3 = Some (Num 1).
Proof.
  destruct (evolve_applies_rule_table 30 8 None ltac:(lia))
    as (Hsize & _ & Hevolve).
  split; [exact Hsize|].
  destruct (Hevolve (new 30 8 None) eq_refl eq_refl) as (_ & _ & Hbits).
  exact (Hbits 3 false false true ltac:(lia) eq_refl eq_refl eq_refl).
Defined.

(** The constructor's table and width stay with the automaton. *)
Lemma evolve_keeps_table (ca : t) :
  ruleTable (evolve ca).2 = ruleTable ca ∧ size (evolve ca).2 = size ca
  ∧ rule (evolve ca).2 = rule ca.
Proof. done. Qed.

(** *** History *)

Lemma evolveMultiple_history (ca : t) (steps : nat) :
  history (evolveMultiple ca steps).2 = history ca ++ (evolveMultiple ca steps).1
  ∧ length (evolveMultiple ca steps).1 = steps.
Proof.
  unfold evolveMultiple.
  apply (for_loop_ind
           (λ i st, history st.2 = history ca ++ st.1 ∧ length st.1 = i)
           (λ st, history st.2 = history ca ++ st.1 ∧ length st.1 = steps)).
  - split; [by rewrite app_nil_r|done].
  - intros i [results ca'] _ [Hhist Hlen]. cbn in *. split.
    + by rewrite Hhist, app_assoc.
    + rewrite length_app. cbn. lia.
  - by intros [results ca'].
Qed.

Lemma generatePitches_history (fuel : nat) (ca : t) (length_ : nat)
    (minPitch maxPitch : Z) :
  length_ - length (history ca) < fuel →
  ∃ pitches ca' rows,
    generatePitches fuel ca length_ minPitch maxPitch = Some (pitches, ca')
    ∧ history ca' = history ca ++ rows
    ∧ length rows = length_ - length (history ca).
Proof.
  intros Hfuel. unfold generatePitches.
  assert (∃ ca', while_loop fuel
                   (λ ca', bool_decide (length (history ca') < length_))
                   (λ ca', Continue (evolve ca').2) ca = Some ca'
                 ∧ ∃ rows, history ca' = history ca ++ rows
                           ∧ length rows = length_ - length (history ca))
    as (ca' & -> & rows & Hhist & Hrows).
  { apply (while_loop_total
             (λ ca', length_ - length (history ca'))
             (λ ca', ∃ rows, history ca' = history ca ++ rows
                             ∧ length rows ≤ length_ - length (history ca))).
    - intros ca' (rows & Hhist & Hrows) Hcond.
      apply bool_decide_eq_false in Hcond. exists rows. split; [done|].
      rewrite Hhist, length_app in Hcond. lia.
    - intros ca' (rows & Hhist & Hrows) Hcond.
      apply bool_decide_eq_true in Hcond. cbn. split.
      + exists (rows ++ [(evolve ca').1]). split.
        * by rewrite Hhist, app_assoc.
        * rewrite Hhist in Hcond. rewrite !length_app in *. cbn. lia.
      + rewrite length_app. cbn. lia.
    - exists []. split; [by rewrite app_nil_r|cbn; lia].
    - done. }
  cbn [mbind option_bind]. eexists _, ca', rows. done.
Qed.

(** C9. The history starts as the one initial row. [evolve] appends the
    row that it returns, [evolveMultiple(steps)] appends the [steps] rows
    that it returns, [generatePitches(length)] returns and appends as many
    rows as the history is short of [length], and every public operation
    that returns leaves a history of which the earlier history is a
    prefix: no row is changed or removed. *)
Theorem history_append_only :
  (∀ rule W initialState,
     history (new rule W initialState)
     = [currentState (new rule W initialState)])
  ∧ (∀ ca, history (evolve ca).2 = history ca ++ [(evolve ca).1])
  ∧ (∀ ca steps,
       history (evolveMultiple ca steps).2
       = history ca ++ (evolveMultiple ca steps).1
       ∧ length (evolveMultiple ca steps).1 = steps)
  ∧ (∀ fuel ca length_ minPitch maxPitch,
       length_ - length (history ca) < fuel →
       ∃ pitches ca' rows,
         generatePitches fuel ca length_ minPitch maxPitch = Some (pitches, ca')
         ∧ history ca' = history ca ++ rows
         ∧ length rows = length_ - length (history ca))
  ∧ (∀ fuel op ca ca',
       run fuel op ca = Some ca' →
       ∃ rows, history ca' = history ca ++ rows).
Proof.
  split; [by intros ? ? [init|]|]. split; [done|].
  split; [apply evolveMultiple_history|].
  split; [apply generatePitches_history|].
  intros fuel op ca ca' Hrun.
  assert (∀ (A : Type) (r : option A), r ≫= (λ _, Some ca) = Some ca' → ca' = ca)
    as Hread.
  { intros A [r|] Hr; cbn in Hr; congruence. }
  destruct op as [|steps| |row|row lo hi|notes durations row|notes row range
                 |length_ lo hi]; cbn in Hrun.
  - injection Hrun as <-. by exists [(evolve ca).1].
  - injection Hrun as <-. exists (evolveMultiple ca steps).1.
    apply evolveMultiple_history.
  - injection Hrun as <-. exists []. by rewrite app_nil_r.
  - injection Hrun as <-. exists []. by rewrite app_nil_r.
  - apply Hread in Hrun as ->. exists []. by rewrite app_nil_r.
  - apply Hread in Hrun as ->. exists []. by rewrite app_nil_r.
  - apply Hread in Hrun as ->. exists []. by rewrite app_nil_r.
  - destruct (generatePitches fuel ca length_ lo hi) as [[pitches ca'']|] eqn:Hgen;
      [|done].
    cbn in Hrun. injection Hrun as ->.
    destruct (generatePitches_history (S (length_ - length (history ca))) ca
                length_ lo hi ltac:(lia)) as (pitches' & ca1 & rows & Hgen' & Hhist & _).
    unfold generatePitches in Hgen, Hgen'.
    destruct (while_loop fuel _ _ ca) as [r|] eqn:Hloop; [|done].
    destruct (while_loop (S _) _ _ ca) as [r'|] eqn:Hloop'; [|done].
    cbn in Hgen, Hgen'. injection Hgen as _ <-. injection Hgen' as _ <-.
    destruct (Nat.le_ge_cases fuel (S (length_ - length (history ca)))) as [Hle|Hle].
    + eapply while_loop_fuel_mono in Hloop; [|exact Hle].
      rewrite Hloop in Hloop'. injection Hloop' as ->. eauto.
    + eapply while_loop_fuel_mono in Hloop'; [|exact Hle].
      rewrite Hloop' in Hloop. injection Hloop as ->. eauto.
Qed.

Lemma history_append_only_witness :
  ∃ pitches ca' rows,
    generatePitches 4 (new 90 8 None) 4 48 84 = Some (pitches, ca')
    ∧ history ca' = history (new 90 8 None) ++ rows
    ∧ length rows = 3.
Proof.
  destruct history_append_only as (_ & _ & _ & Hgen & _).
  exact (Hgen 4 (new 90 8 None) 4 48%Z 84%Z ltac:(cbn; lia)).
Defined.

(** *** Termination of the rhythm filters *)

(** On an empty pattern the tiling loop of [applyToSequence] and
    [applyToPitches] makes no progress. *)
Lemma tile_empty_diverges {A} (fuel : nat) (notes : list A) :
  notes ≠ [] → tile fuel [] notes = None.
Proof.
  intros Hne. unfold tile.
  induction fuel as [|fuel IH]; [done|]. cbn [while_loop].
  rewrite bool_decide_eq_true_2; [exact IH|].
  destruct notes; [done|cbn; lia].
Qed.

(** On a pattern with at least one cell it ends, with enough cells. *)
Lemma tile_terminates {A} (fuel : nat) (caRhythm : list value) (notes : list A) :
  caRhythm ≠ [] → length notes < fuel →
  ∃ full, tile fuel caRhythm notes = Some full ∧ length notes ≤ length full.
Proof.
  intros Hne Hfuel. unfold tile.
  apply (while_loop_total (λ full, length notes - length full) (λ _, True)).
  - intros full _ Hcond. apply bool_decide_eq_false in Hcond. lia.
  - intros full _ Hcond. apply bool_decide_eq_true in Hcond.
    split; [done|]. rewrite length_app.
    destruct caRhythm; [done|cbn; lia].
  - done.
  - cbn. lia.
Qed.

(** C1. A call with a row index outside the history does not return: on
    the automaton of rule 30 and width 8, whose history has the one row 0,
    [toRhythm(5)] reports the invalid index and gives the empty row, and
    the tiling loops of [applyToSequence([60], [1], 5)] and of
    [applyToPitches([60], 5, 4)] are still running after any number of
    rounds. *)
Theorem applyTo_invalid_row_never_returns (fuel : nat) :
  let ca := new 30 8 None in
  toRhythm ca 5 = ([], [console_error "Invalid row index"])
  ∧ applyToSequence fuel ca [Num 60] [Num 1] 5
    = (None, [console_error "Invalid row index"])
  ∧ applyToPitches fuel ca [60%Z] 5 4
    = (None, [console_error "Invalid row index"]).
Proof.
  intros ca. split; [done|].
  unfold applyToSequence, applyToPitches.
  change (toRhythm ca 5) with (@nil value, [console_error "Invalid row index"]).
  cbn iota. by rewrite !tile_empty_diverges.
Qed.

(** When the chosen row has at least one cell the two calls do return. *)
Lemma applyTo_nonempty_row_returns (fuel : nat) (ca : t) (row : Z) :
  (toRhythm ca row).1 ≠ [] →
  (∀ notes durations, length notes < fuel →
     is_Some (applyToSequence fuel ca notes durations row).1)
  ∧ (∀ notes range, length notes < fuel →
       is_Some (applyToPitches fuel ca notes row range).1).
Proof.
  intros Hne. unfold applyToSequence, applyToPitches.
  destruct (toRhythm ca row) as [cells out]. cbn [fst] in Hne.
  split; intros notes ? Hfuel;
    destruct (tile_terminates fuel cells notes Hne Hfuel) as (full & -> & _);
    by eexists.
Qed.

End automaton.

(** ** MarkovChain *)

Lemma random_index_lt (r : Q) (n : nat) :
(0 <= r)%Q → (r < 1)%Q → 0 < n → random_index r n < n.
Proof.
intros H0 H1 Hn. unfold random_index.
assert (0 <= r * inject_Z (Z.of_nat n))%Q as Hnonneg.
{ apply Qmult_le_0_compat; [done|].
  change 0%Q with (inject_Z 0). rewrite <- Zle_Qle. lia. }
assert (r * inject_Z (Z.of_nat n) < inject_Z (Z.of_nat n))%Q as Hlt.
{ rewrite <- (Qmult_1_l (inject_Z (Z.of_nat n))) at 2.
  apply Qmult_lt_compat_r; [|done].
  change 0%Q with (inject_Z 0). rewrite <- Zlt_Qlt. lia. }
pose proof (Qfloor_le (r * inject_Z (Z.of_nat n))) as Hfloor.
assert (Qfloor (r * inject_Z (Z.of_nat n)) < Z.of_nat n)%Z.
{ rewrite Zlt_Qlt. eapply Qle_lt_trans; eauto. }
assert (0 ≤ Qfloor (r * inject_Z (Z.of_nat n)))%Z.
{ change 0%Z with (Qfloor (inject_Z 0)). by apply Qfloor_resp_le. }
lia.
Qed.


Section markov.
Import MarkovChain.

(** *** train *)

(** C8. On a sequence that is not longer than the order, [train] writes
    one warning and returns the model as it was: no starting state is
    recorded and the transition table is the same. *)
Theorem train_short_sequence_noop (m : t) (sequence : list value) :
  length sequence ≤ order m →
  train m sequence
  = (m, [console_warn
           ("Sequence too short for Markov order " +:+ pretty (order m))])
  ∧ startingStates (train m sequence).1 = startingStates m
  ∧ transitionTable (train m sequence).1 = transitionTable m.
Proof. intros Hshort. unfold train. by rewrite decide_True. Qed.

Lemma train_short_sequence_noop_witness :
  train (new 2) [Num 60; Num 62]
  = (new 2, [console_warn "Sequence too short for Markov order 2"]).
Proof.
  exact (proj1 (train_short_sequence_noop (new 2) [Num 60; Num 62]
                  ltac:(cbn; lia))).
Defined.

Lemma train_starting_states (m : t) (sequence : list value) :
  order m < length sequence →
  startingStates (train m sequence).1
  = startingStates m ++ [slice 0 (order m) sequence].
Proof. intros Hlong. unfold train. by rewrite decide_False by lia. Qed.

Lemma train_preserves_wf (m : t) (sequence : list value) :
  starting_states_wf m → starting_states_wf (train m sequence).1.
Proof.
  intros Hwf. unfold train. case_decide as Hshort; [done|].
  unfold starting_states_wf. cbn. apply Forall_app. split; [done|].
  apply Forall_singleton. unfold slice. rewrite length_take, drop_0. lia.
Qed.

Lemma new_wf (order : nat) : starting_states_wf (new order).
Proof. apply Forall_nil. done. Qed.

Lemma updateProbabilities_preserves_wf (m m' : t)
    (newProbabilities : list (Z * list (Z * float))) (out : list console_event) :
  updateProbabilities m newProbabilities = Some (m', out) →
  starting_states_wf m → starting_states_wf m'.
Proof.
  unfold updateProbabilities. case_decide; [by intros [= <- _]|].
  destruct (for_of _ _ _); [|done]. by intros [= <- _].
Qed.

Lemma train_body_nonempty (order : nat) (sequence : list value) (i : nat)
    (table : list (list value * list value)) :
  match train_body order sequence i table with
  | Continue table' | Break table' => table' ≠ []
  end.
Proof.
  unfold train_body.
  set (state := JSON_stringify _). set (f := λ next, next ++ _).
  set (table1 := if Map_has state table then _ else _).
  assert (is_Some (Map_get state table1)) as Hhas.
  { subst table1. destruct (Map_has state table) eqn:Hhas.
    - by apply Map_has_get.
    - rewrite Map_get_set, decide_True by done. by eexists. }
  apply Map_get_nonempty in Hhas. intros Hnil.
  apply (f_equal length) in Hnil. rewrite Map_alter_length in Hnil.
  by destruct table1.
Qed.

Lemma train_table_nonempty (m : t) (sequence : list value) :
  order m < length sequence → transitionTable (train m sequence).1 ≠ [].
Proof.
  intros Hlong. unfold train. rewrite decide_False by lia.
  cbn [fst transitionTable].
  apply (for_loop_ind (λ i table, i = 0 ∨ table ≠ [])).
  - by left.
  - intros i table _ _.
    pose proof (train_body_nonempty (order m) sequence i table) as Hbody.
    destruct (train_body _ _ _ _); [by right|done].
  - intros table [|Hne]; [lia|done].
Qed.

(** *** generate *)

(** The walk of [generate]: from a seed it runs until the sequence has
    [length_] symbols, or leaves the seed as it is when that is already
    so. *)
Lemma generate_loop_length (fuel : nat) (random : nat → Q) (m : t)
    (length_ : nat) (seed : list value) (calls : nat) :
  startingStates m ≠ [] → length_ < fuel →
  ∃ r, while_loop fuel
         (λ '(sequence, _, _), bool_decide (length sequence < length_))
         (generate_body random m) (seed, [], calls) = Some r
       ∧ length r.1.1 = Nat.max length_ (length seed).
Proof.
  intros Hpool Hfuel.
  apply (while_loop_total
           (λ st, length_ - length st.1.1)
           (λ st, length seed ≤ length st.1.1
                  ∧ length st.1.1 ≤ Nat.max length_ (length seed))).
  - intros [[sequence out] k] [Hlo Hhi] Hcond.
    apply bool_decide_eq_false in Hcond. cbn in *. lia.
  - intros [[sequence out] k] [Hlo Hhi] Hcond.
    apply bool_decide_eq_true in Hcond. cbn in *.
    destruct (Map_get _ (transitionTable m)) as [possibleNextValues|].
    + cbn. rewrite length_app. cbn. lia.
    + rewrite decide_True by (destruct (startingStates m); [done|cbn; lia]).
      cbn. rewrite length_app. cbn. lia.
  - cbn. lia.
  - cbn. lia.
Qed.

Lemma generate_seeded_length (fuel : nat) (random : nat → Q) (m : t)
    (length_ : nat) (startState : option (list value)) :
  transitionTable m ≠ [] → startingStates m ≠ [] → starting_states_wf m →
  (∀ k, 0 <= random k ∧ random k < 1)%Q → length_ < fuel →
  ∃ sequence out,
    generate fuel random m length_ startState = Some (sequence, out)
    ∧ length sequence = Nat.max length_ (order m).
Proof.
  intros Htable Hpool Hwf Hrandom Hfuel. unfold generate.
  rewrite decide_False by (by destruct (transitionTable m)).
  assert (∀ seed calls, length seed = order m →
            ∃ sequence out,
              ('(sequence, out, _) ←
                 while_loop fuel
                   (λ '(sequence, _, _), bool_decide (length sequence < length_))
                   (generate_body random m) (seed, [], calls);
               Some (sequence, out)) = Some (sequence, out)
              ∧ length sequence = Nat.max length_ (order m)) as Hloop.
  { intros seed calls Hseed.
    destruct (generate_loop_length fuel random m length_ seed calls Hpool Hfuel)
      as ([[sequence out] calls'] & -> & Hlen).
    exists sequence, out. split; [done|]. by rewrite <- Hseed. }
  assert (0 < length (startingStates m)) as Hn
    by (destruct (startingStates m); [done|cbn; lia]).
  assert (length (get [] (startingStates m)
                    (random_index (random 0) (length (startingStates m))))
          = order m) as Hseed.
  { destruct (Hrandom 0) as [H0 H1].
    pose proof (random_index_lt (random 0) _ H0 H1 Hn) as Hidx.
    apply lookup_lt_is_Some in Hidx as [state Hstate].
    unfold get. rewrite Hstate. cbn.
    eapply (Forall_lookup_1 _ _ _ _ Hwf Hstate). }
  destruct startState as [s|].
  - case_decide as Hs; [by apply Hloop|].
    rewrite decide_True by done. by apply Hloop.
  - rewrite decide_True by done. by apply Hloop.
Qed.

(** C2, as the code has it. Let [m] be a model whose starting states have
    [order] symbols each, as every model has that the methods of the class
    build ([new_wf], [train_preserves_wf],
    [updateProbabilities_preserves_wf]). After [train] on a sequence longer
    than the order, [generate(length)] returns, for every start context and
    every outcome of the random choices, a sequence of exactly
    [max(length, order)] symbols: [length] symbols when [length] is at least
    the order, and the seed of [order] symbols when it is less. It never
    returns fewer. *)
Theorem generate_length (m : t) (training : list value) (random : nat → Q)
    (length_ : nat) (startState : option (list value)) (fuel : nat) :
  starting_states_wf m → order m < length training →
  (∀ k, 0 <= random k ∧ random k < 1)%Q → length_ < fuel →
  ∃ sequence out,
    generate fuel random (train m training).1 length_ startState
    = Some (sequence, out)
    ∧ length sequence = Nat.max length_ (order m).
Proof.
  intros Hwf Hlong Hrandom Hfuel.
  destruct (generate_seeded_length fuel random (train m training).1 length_
              startState) as (sequence & out & Hgen & Hlen); try done.
  - by apply train_table_nonempty.
  - rewrite train_starting_states by done. by destruct (startingStates m).
  - by apply train_preserves_wf.
  - exists sequence, out. split; [done|]. rewrite Hlen.
    unfold train. by case_decide.
Qed.

Lemma generate_length_witness :
  ∃ sequence out,
    generate 6 (λ _, 0%Q) (train (new 1) [Num 60; Num 62; Num 64]).1 5 None
    = Some (sequence, out)
    ∧ length sequence = 5.
Proof.
  apply (generate_length (new 1) [Num 60; Num 62; Num 64] (λ _, 0%Q) 5 None 6).
  - apply Forall_nil. done.
  - cbn. lia.
  - intros k. split; [done|reflexivity].
  - lia.
Defined.

(** C2, as the specification words it, fails when fewer symbols are asked
    for than the order: the seed is returned whole. An order-1 model
    trained on [[60, 62]] answers [generate(0)] with one symbol. *)
Lemma generate_returns_more_than_asked :
  let m := (train (new 1) [Num 60; Num 62]).1 in
  startingStates m = [[Num 60]]
  ∧ generate 1 (λ _, 0%Q) m 0 None = Some ([Num 60], [])
  ∧ ¬ (length [Num 60] ≤ 0).
Proof. cbn. split; [done|]. split; [done|]. cbn. lia. Qed.

(** *** updateProbabilities *)

Lemma push_copies_get (n lo : nat) (v : value) (k k' : list value)
    (table : list (list value * list value)) :
  Map_get k'
    (for_loop n lo
       (λ _ table, Continue (Map_alter (λ next, next ++ [v]) k table)) table)
  = if decide (k = k') then (λ next, next ++ replicate n v) <$> Map_get k' table
    else Map_get k' table.
Proof.
  revert lo table. induction n as [|n IH]; intros lo table; cbn [for_loop].
  - case_decide; [|done]. destruct (Map_get k' table); [|done].
    cbn. by rewrite app_nil_r.
  - rewrite IH, Map_get_alter. case_decide; [|done].
    destruct (Map_get k' table); [|done]. cbn. by rewrite <- app_assoc.
Qed.

(** [Math.round] gives the integer that [rounds_to] describes, and there
    is one such integer only. *)
Lemma Math_round_rounds_to (x : Q) : rounds_to x (Math_round x).
Proof.
  unfold rounds_to, Math_round.
  pose proof (Qfloor_le (x + (1 # 2))) as Hlo.
  pose proof (Qlt_floor (x + (1 # 2))) as Hhi.
  rewrite inject_Z_plus in Hhi. change (inject_Z 1) with 1%Q in Hhi.
  split; lra.
Qed.

Lemma rounds_to_unique (x : Q) (n n' : Z) : rounds_to x n → rounds_to x n' → n = n'.
Proof.
  unfold rounds_to. intros [Hlo Hhi] [Hlo' Hhi'].
  assert (inject_Z n < inject_Z n' + 1)%Q as H1 by lra.
  assert (inject_Z n' < inject_Z n + 1)%Q as H2 by lra.
  change 1%Q with (inject_Z 1) in H1, H2.
  rewrite <- inject_Z_plus, <- Zlt_Qlt in H1, H2. lia.
Qed.


(** What one entry adds when the call goes on after it: its copies, to
    the successors of its from-state, which gets an entry in the table if
    the probability passes the test. *)
Lemma add_transitions_get (stateKey k' : list value) (entry : Z * float)
    (table table' : list (list value * list value)) :
  add_transitions stateKey entry table = Some table' →
  Map_get k' table'
  = if decide (stateKey = k' ∧ PrimFloat.leb entry.2 0 = false)
    then Some (default [] (Map_get k' table) ++ copies entry)
    else Map_get k' table.
Proof.
  destruct entry as [toState probability]. unfold add_transitions, copies.
  cbn [fst snd]. destruct (PrimFloat.leb probability 0) eqn:Htest.
  { intros [= <-]. rewrite decide_False; [done|]. by intros [_ ?]. }
  destruct (loop_rounds _) as [rounds|]; [|done].
  case_decide; [|done]. intros [= <-]. rewrite push_copies_get.
  cbn [default from_option id].
  destruct (decide (stateKey = k')) as [<-|Hne].
  - rewrite decide_True by done.
    destruct (Map_has stateKey table) eqn:Hhas.
    + apply Map_has_get in Hhas as [next ->]. done.
    + rewrite Map_get_set, decide_True by done.
      apply Map_has_false in Hhas as ->. done.
  - rewrite decide_False by (by intros [? _]).
    destruct (Map_has stateKey table); [done|].
    by rewrite Map_get_set, decide_False.
Qed.

(** The call goes on after an entry exactly when its count is not infinite
    and its copies find room in the array. *)
Lemma add_transitions_is_Some (stateKey : list value) (entry : Z * float)
    (table : list (list value * list value)) :
  is_Some (add_transitions stateKey entry table)
  ↔ (PrimFloat.leb entry.2 0 = false →
     is_Some (loop_rounds (Math_round_double (PrimFloat.mul entry.2 100)))
     ∧ (copies entry = []
        ∨ (Z.of_nat (length (default [] (Map_get stateKey table) ++ copies entry))
           ≤ max_array_length)%Z)).
Proof.
  destruct entry as [toState probability]. unfold add_transitions, copies.
  cbn [fst snd]. destruct (PrimFloat.leb probability 0) eqn:Htest.
  { split; [done|by eexists]. }
  assert (default [] (Map_get stateKey
                        (if Map_has stateKey table then table
                         else Map_set stateKey [] table))
          = default [] (Map_get stateKey table)) as ->.
  { destruct (Map_has stateKey table) eqn:Hhas; [done|].
    rewrite Map_get_set, decide_True by done.
    apply Map_has_false in Hhas as ->. done. }
  destruct (loop_rounds _) as [rounds|].
  - cbn [default from_option id]. rewrite length_app, length_replicate.
    case_decide as Hroom.
    + split; [|by eexists]. intros _ _. split; [by eexists|].
      destruct Hroom as [->|Hroom]; [by left|right; lia].
    + split; [by intros [? [=]]|]. intros Hfits. destruct (Hfits eq_refl) as [_ Hroom'].
      exfalso. apply Hroom. destruct Hroom' as [Hnil|Hroom'].
      * left. by destruct rounds.
      * right. lia.
  - split; [by intros [? [=]]|]. intros Hfits.
    destruct (Hfits eq_refl) as [[? [=]] _].
Qed.

Lemma for_of_thrown {A B} (f : A → B → option B) (l : list A) :
  for_of l (λ x s, s ≫= f x) None = None.
Proof. unfold for_of. by induction l. Qed.

(** The entries of one from-state add their copies, in order, to the
    successors of that state and leave the other contexts alone; the
    context gets an entry in the table as soon as one probability passes
    the test; and no count was infinite. *)
Lemma add_from_state_get (fromState : Z) (transitions : list (Z * float))
    (k' : list value) (table table' : list (list value * list value)) :
  add_from_state (fromState, transitions) (Some table) = Some table' →
  default [] (Map_get k' table')
  = default [] (Map_get k' table)
    ++ (if decide ([Num fromState] = k') then concat (copies <$> transitions) else [])
  ∧ (is_Some (Map_get k' table')
     ↔ is_Some (Map_get k' table)
       ∨ [Num fromState] = k'
         ∧ Exists (λ entry, PrimFloat.leb entry.2 0 = false) transitions)
  ∧ Forall (λ entry, PrimFloat.leb entry.2 0 = false →
                     is_Some (loop_rounds
                                (Math_round_double (PrimFloat.mul entry.2 100))))
      transitions.
Proof.
  unfold add_from_state, for_of. cbn [JSON_stringify fmap list_fmap].
  revert table. induction transitions as [|entry transitions IH]; intros table.
  - cbn. intros [= <-]. split; [|split; [|done]].
    + case_decide; by rewrite app_nil_r.
    + rewrite Exists_nil. tauto.
  - cbn [fold_left mbind option_bind].
    destruct (add_transitions [Num fromState] entry table) as [table1|] eqn:Hentry.
    2:{ change (fold_left _ transitions None)
          with (for_of transitions
                  (λ entry table, table ≫= add_transitions [Num fromState] entry)
                  None).
        by rewrite for_of_thrown. }
    intros Hrest. destruct (IH table1 Hrest) as (IHsucc & IHkey & IHcounts).
    rewrite IHsucc, IHkey, Exists_cons,
      (add_transitions_get _ k' _ _ _ Hentry).
    clear IH IHsucc IHkey. rewrite fmap_cons. cbn [concat].
    split; [|split].
    + destruct (decide ([Num fromState] = k')) as [<-|Hne];
        destruct (PrimFloat.leb entry.2 0) eqn:Htest.
      * rewrite decide_False by (by intros [_ ?]).
        assert (copies entry = []) as -> by (unfold copies; by rewrite Htest).
        done.
      * rewrite decide_True by done. cbn [default from_option id].
        by rewrite <- app_assoc.
      * by rewrite decide_False by tauto.
      * by rewrite decide_False by tauto.
    + destruct (decide ([Num fromState] = k')) as [<-|Hne];
        destruct (PrimFloat.leb entry.2 0) eqn:Htest.
      * rewrite decide_False by (by intros [_ ?]).
        intuition (discriminate || done).
      * rewrite decide_True by done.
        split; [intros _; right; split; [done|by left]|intros _; left; by eexists].
      * rewrite decide_False by tauto. intuition done.
      * rewrite decide_False by tauto. intuition done.
    + constructor; [|done]. intros Htest.
      assert (is_Some (add_transitions [Num fromState] entry table)) as Hsome
        by (by eexists).
      apply add_transitions_is_Some in Hsome; [|done]. by destruct Hsome.
Qed.

Lemma add_from_states_get (newProbabilities : list (Z * list (Z * float)))
    (k' : list value) (table table' : list (list value * list value)) :
  for_of newProbabilities add_from_state (Some table) = Some table' →
  default [] (Map_get k' table')
  = default [] (Map_get k' table)
    ++ concat ((λ entry, if decide ([Num entry.1] = k')
                         then concat (copies <$> entry.2) else [])
               <$> newProbabilities)
  ∧ (is_Some (Map_get k' table')
     ↔ is_Some (Map_get k' table)
       ∨ Exists (λ entry, [Num entry.1] = k'
                          ∧ Exists (λ e, PrimFloat.leb e.2 0 = false) entry.2)
           newProbabilities)
  ∧ Forall (λ entry,
              Forall (λ e, PrimFloat.leb e.2 0 = false →
                           is_Some (loop_rounds
                                      (Math_round_double (PrimFloat.mul e.2 100))))
                entry.2)
      newProbabilities.
Proof.
  unfold for_of. revert table.
  induction newProbabilities as [|[fromState transitions] np IH]; intros table.
  - cbn. intros [= <-]. rewrite app_nil_r, Exists_nil. split; [done|]. split; [tauto|done].
  - cbn [fold_left].
    destruct (add_from_state (fromState, transitions) (Some table))
      as [table1|] eqn:Hentry.
    2:{ intros Hrest. exfalso. revert Hrest. clear. unfold add_from_state.
        induction np as [|[fromState' transitions'] np IH]; [done|].
        cbn [fold_left]. change (for_of transitions' _ None) with
          (for_of transitions'
             (λ entry table,
                table ≫= add_transitions (JSON_stringify [Num fromState']) entry)
             None).
        rewrite for_of_thrown. exact IH. }
    intros Hrest. destruct (IH table1 Hrest) as (IHsucc & IHkey & IHcounts).
    destruct (add_from_state_get fromState transitions k' table table1 Hentry)
      as (Hsucc & Hkey & Hcounts).
    rewrite IHsucc, IHkey, Hsucc, Hkey, Exists_cons.
    cbn. rewrite <- app_assoc. split; [done|]. split; [tauto|by constructor].
Qed.

(** The entries of a from-state all go through when they are [storable]
    and the successors of the state are still empty. *)
Lemma add_from_state_is_Some (fromState : Z) (transitions : list (Z * float))
    (table : list (list value * list value)) :
  Forall (λ entry, PrimFloat.leb entry.2 0 = false →
                   is_Some (loop_rounds
                              (Math_round_double (PrimFloat.mul entry.2 100))))
    transitions →
  (Z.of_nat (length (default [] (Map_get [Num fromState] table)
                     ++ concat (copies <$> transitions)))
   ≤ max_array_length)%Z →
  is_Some (add_from_state (fromState, transitions) (Some table)).
Proof.
  unfold add_from_state, for_of. cbn [JSON_stringify fmap list_fmap].
  revert table. induction transitions as [|entry transitions IH];
    intros table Hcounts Hroom; [by eexists|].
  apply Forall_cons in Hcounts as [Hcount Hcounts].
  rewrite fmap_cons in Hroom. cbn [concat] in Hroom.
  rewrite !length_app in Hroom. cbn [fold_left mbind option_bind].
  destruct (add_transitions [Num fromState] entry table) as [table1|] eqn:Hentry.
  - apply IH; [done|].
    pose proof (add_transitions_get _ [Num fromState] _ _ _ Hentry) as Hget.
    rewrite Hget. rewrite length_app. case_decide as Htest.
    + cbn [default from_option id]. rewrite length_app. lia.
    + assert (copies entry = []) as Hnil.
      { unfold copies. destruct (PrimFloat.leb entry.2 0); [done|]. tauto. }
      rewrite Hnil in Hroom. cbn [length] in Hroom. lia.
  - exfalso. apply (is_Some_None (A := list (list value * list value))).
    rewrite <- Hentry. apply add_transitions_is_Some. intros Htest.
    split; [by apply Hcount|]. right. rewrite length_app. lia.
Qed.

Lemma count_occ_replicate (n : nat) (v w : value) :
  count_occ value_eq_dec (replicate n v) w = if decide (v = w) then n else 0.
Proof.
  induction n as [|n IH]; cbn; [by case_decide|].
  rewrite IH. destruct (value_eq_dec v w); by case_decide.
Qed.

Lemma elem_of_copies (entry : Z * float) (v : value) :
  v ∈ copies entry → v = Num entry.1.
Proof.
  unfold copies. destruct (PrimFloat.leb entry.2 0); [by intros ?%elem_of_nil|].
  by intros [-> _]%elem_of_replicate.
Qed.

(** Among the copies of the entries of a from-state, those of a to-state
    are the copies of its own entry. *)
Lemma count_occ_copies (transitions : list (Z * float)) (toState : Z)
    (probability : float) :
  NoDup transitions.*1 → (toState, probability) ∈ transitions →
  count_occ value_eq_dec (concat (copies <$> transitions)) (Num toState)
  = length (copies (toState, probability)).
Proof.
  assert (∀ others : list (Z * float), toState ∉ others.*1 →
            count_occ value_eq_dec (concat (copies <$> others)) (Num toState) = 0)
    as Hother.
  { intros others Hnotin. apply count_occ_not_In. intros Hin.
    apply in_concat in Hin as (l & Hl & Hv). apply list_elem_of_In in Hl, Hv.
    apply list_elem_of_fmap in Hl as (entry & -> & Hentry).
    apply elem_of_copies in Hv as [= ->]. apply Hnotin.
    apply list_elem_of_fmap. by exists entry. }
  induction transitions as [|[to p] transitions IH]; [by intros _ ?%elem_of_nil|].
  cbn [fmap list_fmap concat fst]. rewrite NoDup_cons, elem_of_cons.
  intros [Hnotin Hnodup] [[= <- <-]|Hin]; rewrite count_occ_app.
  - rewrite Hother by done. rewrite Nat.add_0_r.
    unfold copies. cbn [fst snd]. destruct (PrimFloat.leb probability 0); [done|].
    by rewrite count_occ_replicate, decide_True, length_replicate.
  - rewrite IH by done.
    assert (count_occ value_eq_dec (copies (to, p)) (Num toState) = 0) as ->; [|done].
    apply count_occ_not_In. intros Hv%list_elem_of_In%elem_of_copies.
    injection Hv as ->. apply Hnotin. apply list_elem_of_fmap.
    by exists (to, probability).
Qed.

Lemma concat_copies_of (newProbabilities : list (Z * list (Z * float)))
    (fromState : Z) (transitions : list (Z * float)) :
  NoDup newProbabilities.*1 →
  (fromState, transitions) ∈ newProbabilities →
  concat ((λ entry, if decide ([Num entry.1] = [Num fromState])
                    then concat (copies <$> entry.2) else [])
          <$> newProbabilities)
  = concat (copies <$> transitions).
Proof.
  induction newProbabilities as [|[from tr] np IH]; [by intros _ ?%elem_of_nil|].
  cbn [fmap list_fmap concat fst snd]. rewrite NoDup_cons, elem_of_cons.
  intros [Hnotin Hnodup] [Heq|Hin].
  - injection Heq as <- <-. rewrite decide_True by done.
    assert (concat ((λ entry, if decide ([Num entry.1] = [Num fromState])
                              then concat (copies <$> entry.2) else []) <$> np)
            = []) as ->; [|by rewrite app_nil_r].
    clear IH Hnodup. induction np as [|[from tr] np IH]; [done|].
    cbn in *. rewrite not_elem_of_cons in Hnotin. destruct Hnotin as [Hne Hnotin].
    rewrite decide_False by congruence. by rewrite IH.
  - rewrite decide_False.
    + by rewrite IH.
    + intros [= ->]. apply Hnotin. apply list_elem_of_fmap.
      by exists (fromState, transitions).
Qed.

(** The call returns when the names of the from-states are distinct and
    the entries of each are [storable]. *)
Lemma add_from_states_is_Some (newProbabilities : list (Z * list (Z * float)))
    (table : list (list value * list value)) :
  NoDup newProbabilities.*1 →
  Forall (λ entry, storable entry.2) newProbabilities →
  (∀ fromState, fromState ∈ newProbabilities.*1 →
     default [] (Map_get [Num fromState] table) = []) →
  is_Some (for_of newProbabilities add_from_state (Some table)).
Proof.
  unfold for_of. revert table.
  induction newProbabilities as [|[fromState transitions] np IH];
    intros table Hnodup Hstorable Hfresh; [by eexists|].
  cbn [fmap list_fmap fst] in Hnodup, Hfresh.
  apply NoDup_cons in Hnodup as [Hnotin Hnodup].
  apply Forall_cons in Hstorable as [[Hcounts Hroom] Hstorable].
  cbn [fold_left snd] in *.
  destruct (add_from_state_is_Some fromState transitions table Hcounts)
    as [table1 Hentry].
  { rewrite Hfresh by apply list_elem_of_here. done. }
  rewrite Hentry. apply IH; [done|done|].
  intros fromState' Hin.
  destruct (add_from_state_get fromState transitions [Num fromState'] table table1
              Hentry) as (-> & _ & _).
  rewrite Hfresh by (by apply list_elem_of_further).
  rewrite decide_False; [done|]. intros [= ->]. done.
Qed.

(** C7. On a model of another order [updateProbabilities] changes nothing
    and warns. On an order-1 model, for an argument whose property names
    are distinct integers: the call returns when the entries of every
    from-state can be stored; and when it returns, it has written nothing,
    the new table does not depend on the old one, its contexts are the
    declared from-states with an entry whose probability is not at or
    below zero, and the successors of a declared from-state are declared
    to-states, each as often as its entry says: not at all when the
    probability is at or below zero, and otherwise [n] times for the
    integer [n] that is nearest to the product of the probability with 100
    as the code computes it (a float), the upper one of two; a product
    that is [NaN] gives no copy, and the product is not [Infinity]. *)
Theorem updateProbabilities_rebuilds_table (m : t)
    (newProbabilities : list (Z * list (Z * float))) :
  (order m ≠ 1 →
   updateProbabilities m newProbabilities
   = Some (m, [console_warn
                 "Updating probabilities only available for first-order Markov chains"]))
  ∧ (order m = 1 →
     NoDup newProbabilities.*1 →
     Forall (λ entry, NoDup entry.2.*1) newProbabilities →
     (Forall (λ entry, storable entry.2) newProbabilities →
      is_Some (updateProbabilities m newProbabilities))
     ∧ ∀ m' out,
         updateProbabilities m newProbabilities = Some (m', out) →
         out = []
         ∧ order m' = 1 ∧ startingStates m' = startingStates m
         ∧ (∀ m0, order m0 = 1 →
              ∃ m0', updateProbabilities m0 newProbabilities = Some (m0', [])
                     ∧ transitionTable m0' = transitionTable m')
         ∧ (∀ key, is_Some (Map_get key (transitionTable m')) →
              ∃ fromState transitions,
                (fromState, transitions) ∈ newProbabilities
                ∧ key = JSON_stringify [Num fromState]
                ∧ Exists (λ entry, PrimFloat.leb entry.2 0 = false) transitions)
         ∧ ∀ fromState transitions,
             (fromState, transitions) ∈ newProbabilities →
             (∀ v, v ∈ successors m' fromState →
                ∃ toState probability,
                  (toState, probability) ∈ transitions ∧ v = Num toState)
             ∧ ∀ toState probability,
                 (toState, probability) ∈ transitions →
                 let made :=
                   count_occ value_eq_dec (successors m' fromState) (Num toState) in
                 if PrimFloat.leb probability 0 then made = 0
                 else
                   match double_value (PrimFloat.mul probability 100) with
                   | Value product =>
                       ∃ n, rounds_to product n ∧ made = Z.to_nat n
                   | Infinity negative => negative = true ∧ made = 0
                   | NaN => made = 0
                   end).
Proof.
  split.
  { intros Horder. unfold updateProbabilities. by rewrite decide_True. }
  intros Horder Hfrom Hto.
  unfold updateProbabilities. rewrite decide_False by (by intros []).
  split.
  { intros Hstorable.
    destruct (add_from_states_is_Some newProbabilities [] Hfrom Hstorable)
      as [table ->]; [done|]. by eexists. }
  intros m' out.
  destruct (for_of newProbabilities add_from_state (Some [])) as [table|] eqn:Htable;
    [|done].
  cbn [mbind option_bind]. intros [= <- <-]. cbn [order transitionTable startingStates].
  split; [done|]. split; [done|]. split; [done|]. split.
  { intros m0 Horder0. rewrite decide_False by (by intros []).
    eexists. split; [reflexivity|done]. }
  split.
  { intros key Hkey.
    destruct (add_from_states_get newProbabilities key [] table Htable)
      as (_ & Hkeys & _).
    apply Hkeys in Hkey as [[? [=]]|Hex].
    apply Exists_exists in Hex as ([fromState transitions] & Hin & <- & Hpos).
    by exists fromState, transitions. }
  intros fromState transitions Hin. unfold successors. cbn [transitionTable].
  destruct (add_from_states_get newProbabilities [Num fromState] [] table Htable)
    as (Hsucc & _ & Hcounts).
  cbn [JSON_stringify fmap list_fmap].
  rewrite Hsucc, (concat_copies_of _ fromState transitions) by done.
  cbn [Map_get default from_option id app]. split.
  - intros v Hv. apply list_elem_of_In, in_concat in Hv as (l & Hl & Hv).
    apply list_elem_of_In in Hl, Hv.
    apply list_elem_of_fmap in Hl as ([to p] & -> & Hentry).
    apply elem_of_copies in Hv. by exists to, p.
  - intros toState probability Hentry. cbn zeta.
    rewrite (count_occ_copies transitions toState probability); [|
      exact (proj1 (Forall_forall (λ entry, NoDup entry.2.*1) _) Hto _ Hin)|done].
    unfold copies. cbn [fst snd].
    destruct (PrimFloat.leb probability 0) eqn:Htest; [done|].
    rewrite length_replicate.
    assert (is_Some (loop_rounds
                       (Math_round_double (PrimFloat.mul probability 100))))
      as Hcount.
    { pose proof (proj1 (Forall_forall _ newProbabilities) Hcounts _ Hin) as Hfrom'.
      exact (proj1 (Forall_forall _ transitions) Hfrom' _ Hentry Htest). }
    unfold Math_round_double in *.
    destruct (double_value (PrimFloat.mul probability 100))
      as [product|[]|]; cbn [loop_rounds default from_option id] in *.
    + exists (Math_round product). split; [apply Math_round_rounds_to|done].
    + done.
    + by destruct Hcount as [? [=]].
    + done.
Qed.

(** The doubles [0.145] and [0.015] have the products [14.499999999999998]
    and [1.5] with 100; the entries stand for 14 and for 2 copies. *)
Lemma updateProbabilities_rebuilds_table_witness :
  let m := (train (new 1) [Num 60; Num 62]).1 in
  let newProbabilities :=
    [(60%Z, [(62%Z, 0.145%float); (64%Z, 0.015%float); (65%Z, 0%float)])] in
  ∃ m',
    updateProbabilities m newProbabilities = Some (m', [])
    ∧ count_occ value_eq_dec (successors m' 60) (Num 62) = 14
    ∧ count_occ value_eq_dec (successors m' 60) (Num 64) = 2
    ∧ count_occ value_eq_dec (successors m' 60) (Num 65) = 0
    ∧ successors m' 62 = [].
Proof.
  intros m newProbabilities.
  destruct (updateProbabilities_rebuilds_table m newProbabilities)
    as [_ Horder1].
  destruct Horder1 as [_ Hrebuilt].
  - reflexivity.
  - apply NoDup_singleton.
  - apply Forall_singleton. by vm_compute; repeat constructor; intros Hin;
      repeat (apply elem_of_cons in Hin as [[=]|Hin]); by apply elem_of_nil in Hin.
  - destruct (updateProbabilities m newProbabilities) as [[m' out]|] eqn:Hcall;
      [|by vm_compute in Hcall].
    destruct (Hrebuilt m' out eq_refl) as (-> & _ & _ & _ & Hkeys & Hsuccessors).
    exists m'. split; [done|].
    destruct (Hsuccessors 60%Z _ (list_elem_of_here _ _)) as [_ Hcounts].
    pose proof (Hcounts 62%Z 0.145%float (list_elem_of_here _ _)) as H62.
    pose proof (Hcounts 64%Z 0.015%float
                  (list_elem_of_further _ _ _ (list_elem_of_here _ _))) as H64.
    pose proof (Hcounts 65%Z 0%float
                  (list_elem_of_further _ _ _
                     (list_elem_of_further _ _ _ (list_elem_of_here _ _)))) as H65.
    cbn zeta in H62, H64, H65.
    split; [|split; [|split]].
    + destruct H62 as (n & Hn & ->).
      rewrite (rounds_to_unique _ n 14 Hn); [done|]. by vm_compute.
    + destruct H64 as (n & Hn & ->).
      rewrite (rounds_to_unique _ n 2 Hn); [done|]. by vm_compute.
    + exact H65.
    + unfold successors.
      destruct (Map_get (JSON_stringify [Num 62]) (transitionTable m'))
        as [next|] eqn:Hget; [|done].
      destruct (Hkeys _ (mk_is_Some _ _ Hget))
        as (fromState & transitions & Hin & Hkey & _).
      apply list_elem_of_singleton in Hin as [= -> _]. done.
Defined.




(** The whole call on that model: the walk from [62] appends [undefined],
    and only the round after it, whose context [[null]] is not in the table,
    falls back on the starting state. *)
Lemma generate_through_rounded_away_context :
  let m := (train (new 1) [Num 60; Num 62]).1 in
  (updateProbabilities m [(62%Z, [(60%Z, 0.004%float)])]
   ≫= λ r, generate 4 (λ _, 0%Q) r.1 3 (Some [Num 62]))
  = Some ([Num 62; Undefined; Num 60], []).
Proof. vm_compute. reflexivity. Qed.

Lemma elem_of_Set_add (x y : value) (s : list value) :
  y ∈ Set_add x s ↔ y = x ∨ y ∈ s.
Proof.
  unfold Set_add. case_decide as Hin.
  - split; [by right|]. by intros [->|].
  - rewrite elem_of_app, list_elem_of_singleton. tauto.
Qed.

Lemma NoDup_Set_add (x : value) (s : list value) : NoDup s → NoDup (Set_add x s).
Proof.
  intros Hnodup. unfold Set_add. case_decide as Hin; [done|].
  apply NoDup_app. split; [done|]. split; [|apply NoDup_singleton].
  intros y Hy ->%list_elem_of_singleton. done.
Qed.

Lemma for_of_Set_add (l s : list value) :
  NoDup s →
  NoDup (for_of l Set_add s) ∧ ∀ y, y ∈ for_of l Set_add s ↔ y ∈ l ∨ y ∈ s.
Proof.
  unfold for_of. revert s. induction l as [|x l IH]; intros s Hnodup; cbn.
  - split; [done|]. intros y. rewrite elem_of_nil. tauto.
  - destruct (IH (Set_add x s) (NoDup_Set_add x s Hnodup)) as [Hnd Hin].
    split; [done|]. intros y. rewrite Hin, elem_of_Set_add, elem_of_cons. tauto.
Qed.

Lemma collect_states_from (table : list (list value * list value))
    (acc : list value) :
  NoDup acc →
  let result :=
    for_of table
      (λ '(state, nextStates) uniqueStates,
         let parsedState := get Undefined (JSON_parse state) 0 in
         for_of nextStates Set_add (Set_add parsedState uniqueStates))
      acc in
  NoDup result
  ∧ (∀ y, y ∈ acc → y ∈ result)
  ∧ ∀ state nextStates, (state, nextStates) ∈ table →
      get Undefined (JSON_parse state) 0 ∈ result
      ∧ ∀ v, v ∈ nextStates → v ∈ result.
Proof.
  unfold for_of at 1. revert acc.
  induction table as [|[state nextStates] table IH]; intros acc Hnodup; cbn.
  - split; [done|]. split; [done|]. by intros ? ? ?%elem_of_nil.
  - destruct (for_of_Set_add nextStates
                (Set_add (get Undefined (JSON_parse state) 0) acc)
                (NoDup_Set_add _ _ Hnodup)) as [Hnd Hin].
    destruct (IH _ Hnd) as (Hnd' & Hacc & Htable). cbn zeta in *.
    split; [done|]. split.
    + intros y Hy. apply Hacc, Hin. right. apply elem_of_Set_add. by right.
    + intros state' nextStates' [[= -> ->]|Hin']%elem_of_cons.
      * split.
        -- apply Hacc, Hin. right. apply elem_of_Set_add. by left.
        -- intros v Hv. apply Hacc, Hin. by left.
      * by apply Htable.
Qed.

Lemma collect_states_spec (table : list (list value * list value)) :
  NoDup (collect_states table)
  ∧ ∀ state nextStates, (state, nextStates) ∈ table →
      get Undefined (JSON_parse state) 0 ∈ collect_states table
      ∧ ∀ v, v ∈ nextStates → v ∈ collect_states table.
Proof.
  destruct (collect_states_from table [] (NoDup_nil_2 (A := value)))
    as (Hnd & _ & Htable).
  exact (conj Hnd Htable).
Qed.

Lemma for_of_Set_add_only (l s : list value) (y : value) :
  y ∈ for_of l Set_add s → y ∈ l ∨ y ∈ s.
Proof.
  unfold for_of. revert s. induction l as [|x l IH]; intros s Hy; cbn in Hy.
  - by right.
  - apply IH in Hy as [Hy|Hy]; [left; by apply list_elem_of_further|].
    apply elem_of_Set_add in Hy as [->|Hy]; [left; apply list_elem_of_here|by right].
Qed.

Lemma collect_states_only (table : list (list value * list value))
    (acc : list value) (y : value) :
  y ∈ for_of table
        (λ '(state, nextStates) uniqueStates,
           let parsedState := get Undefined (JSON_parse state) 0 in
           for_of nextStates Set_add (Set_add parsedState uniqueStates))
        acc →
  y ∈ acc
  ∨ ∃ state nextStates, (state, nextStates) ∈ table
      ∧ (y = get Undefined (JSON_parse state) 0 ∨ y ∈ nextStates).
Proof.
  unfold for_of at 1. revert acc.
  induction table as [|[state nextStates] table IH]; intros acc; cbn [fold_left].
  - by left.
  - intros [Hy|(state' & nextStates' & Hin & Hy)]%IH.
    + cbn zeta in Hy.
      apply for_of_Set_add_only in Hy as [Hnext|[->|Hacc]%elem_of_Set_add].
      * right. exists state, nextStates. split; [apply list_elem_of_here|by right].
      * right. exists state, nextStates. split; [apply list_elem_of_here|by left].
      * by left.
    + right. exists state', nextStates'. split; [by apply list_elem_of_further|done].
Qed.

Section matrix.
Context (states : list value) (Hstates : NoDup states).

Lemma matrix_of_ext (entries entries' : value → value → Q) :
  (∀ s t', s ∈ states → t' ∈ states → entries s t' = entries' s t') →
  matrix_of states entries = matrix_of states entries'.
Proof.
  intros Hext. unfold matrix_of, matrix_row.
  apply list_fmap_ext. intros i s Hs%list_elem_of_lookup_2. f_equal.
  apply list_fmap_ext. intros j t' Ht%list_elem_of_lookup_2. f_equal. by apply Hext.
Qed.

Lemma zero_matrix_eq : zero_matrix states = matrix_of states (λ _ _, 0%Q).
Proof using Hstates.
  unfold zero_matrix.
  rewrite (for_of_Map_set (λ _, 0%Q) states []) by done. cbn [app].
  rewrite (for_of_Map_set (λ _, (λ t', (t', 0%Q)) <$> states) states []) by done.
  done.
Qed.

Lemma alter_cell_matrix_of (f : Q → Q) (fromState toState : value)
    (entries : value → value → Q) :
  alter_cell f fromState toState (matrix_of states entries)
  = matrix_of states (alter_entry f fromState toState entries).
Proof using Hstates.
  unfold alter_cell, matrix_of.
  rewrite (Map_alter_fmap _ (matrix_row states entries)) by done.
  apply list_fmap_ext. intros i s _. f_equal. unfold matrix_row, alter_entry.
  destruct (decide (s = fromState)) as [->|Hne].
  - rewrite (Map_alter_fmap f (entries fromState)) by done.
    apply list_fmap_ext. intros j t' _. f_equal.
    destruct (decide (t' = toState)) as [->|Hne].
    + by rewrite decide_True.
    + by rewrite decide_False by tauto.
  - apply list_fmap_ext. intros j t' _. f_equal. by rewrite decide_False by tauto.
Qed.

Lemma count_transitions_matrix_of (table : list (list value * list value))
    (entries : value → value → Q) :
  count_transitions table (matrix_of states entries)
  = matrix_of states (counted table entries).
Proof using Hstates.
  unfold count_transitions, counted, for_of. revert entries.
  induction table as [|[stateStr nextValues] table IH]; intros entries; [done|].
  cbn [fold_left]. rewrite <- IH. f_equal. clear IH.
  revert entries. induction nextValues as [|toState nextValues IH];
    intros entries; [done|].
  cbn [fold_left]. by rewrite alter_cell_matrix_of, IH.
Qed.

Lemma Map_get_matrix_of (entries : value → value → Q) (fromState : value) :
  fromState ∈ states →
  Map_get fromState (matrix_of states entries)
  = Some (matrix_row states entries fromState).
Proof.
  intros Hin. unfold matrix_of.
  rewrite (Map_get_fmap (matrix_row states entries)). by rewrite decide_True.
Qed.

Lemma alter_cells_matrix_of (f : Q → Q) (fromState : value) (toStates : list value)
    (entries : value → value → Q) :
  NoDup toStates →
  for_of toStates (λ toState matrix, alter_cell f fromState toState matrix)
    (matrix_of states entries)
  = matrix_of states
      (λ s t', if decide (s = fromState ∧ t' ∈ toStates) then f (entries s t')
               else entries s t').
Proof using Hstates.
  unfold for_of. revert entries.
  induction toStates as [|toState toStates IH]; intros entries Hnodup.
  - cbn. apply matrix_of_ext. intros s t' _ _.
    rewrite decide_False; [done|]. intros [_ []%elem_of_nil].
  - apply NoDup_cons in Hnodup as [Hnotin Hnodup]. cbn [fold_left].
    rewrite alter_cell_matrix_of, IH by done.
    apply matrix_of_ext. intros s t' _ _. unfold alter_entry.
    destruct (decide (s = fromState)) as [->|Hne].
    + destruct (decide (t' = toState)) as [->|Hne].
      * rewrite (decide_False (P := fromState = fromState ∧ toState ∈ toStates)) by tauto.
        rewrite !decide_True; [done| |done]. split; [done|apply list_elem_of_here].
      * destruct (decide (t' ∈ toStates)) as [Hin|Hnin].
        -- rewrite decide_True by done. rewrite decide_False by tauto.
           rewrite decide_True; [done|]. split; [done|by apply list_elem_of_further].
        -- rewrite decide_False by tauto. rewrite decide_False by tauto.
           rewrite decide_False; [done|]. rewrite elem_of_cons. tauto.
    + rewrite !decide_False; (done || tauto).
Qed.

Lemma normalize_row_matrix_of (fromState : value) (entries : value → value → Q) :
  fromState ∈ states →
  normalize_row states fromState (matrix_of states entries)
  = matrix_of states
      (λ s t',
         let total := row_total (matrix_row states entries s) in
         if decide (s = fromState ∧ 0 < total)%Q then (entries s t' / total)%Q
         else entries s t').
Proof using Hstates.
  intros Hin. unfold normalize_row.
  rewrite Map_get_matrix_of by done. cbn [default from_option id].
  case_decide as Htotal.
  - rewrite alter_cells_matrix_of by done.
    apply matrix_of_ext. intros s t' _ Ht. cbn zeta.
    destruct (decide (s = fromState)) as [->|Hne].
    + by rewrite !decide_True.
    + by rewrite !decide_False by tauto.
  - apply matrix_of_ext. intros s t' _ _. cbn zeta.
    rewrite decide_False; [done|]. intros [-> ?]. done.
Qed.

Lemma normalize_rows_matrix_of (fromStates : list value)
    (entries : value → value → Q) :
  NoDup fromStates → fromStates ⊆ states →
  for_of fromStates (normalize_row states) (matrix_of states entries)
  = matrix_of states
      (λ s t',
         let total := row_total (matrix_row states entries s) in
         if decide (s ∈ fromStates ∧ 0 < total)%Q then (entries s t' / total)%Q
         else entries s t').
Proof using Hstates.
  unfold for_of. revert entries.
  induction fromStates as [|fromState fromStates IH]; intros entries Hnodup Hsub.
  - cbn. apply matrix_of_ext. intros s t' _ _. cbn zeta.
    rewrite decide_False; [done|]. intros [[]%elem_of_nil _].
  - apply NoDup_cons in Hnodup as [Hnotin Hnodup]. cbn [fold_left].
    rewrite normalize_row_matrix_of by (apply Hsub, list_elem_of_here).
    rewrite IH; [|done|by intros x Hx; apply Hsub, list_elem_of_further].
    apply matrix_of_ext. intros s t' _ _. cbn zeta.
    destruct (decide (s = fromState)) as [->|Hne].
    + rewrite (decide_False (P := fromState ∈ fromStates ∧ _)) by tauto.
      destruct (decide (0 < row_total (matrix_row states entries fromState))%Q).
      * rewrite !decide_True; [done| |done]. split; [apply list_elem_of_here|done].
      * rewrite !decide_False; [done| |tauto]. tauto.
    + assert (matrix_row states
                (λ s0 t'0,
                   if decide (s0 = fromState
                              ∧ 0 < row_total (matrix_row states entries s0))%Q
                   then (entries s0 t'0 / row_total (matrix_row states entries s0))%Q
                   else entries s0 t'0) s
              = matrix_row states entries s) as ->.
      { unfold matrix_row at 1 3. apply list_fmap_ext. intros j t'' _. f_equal.
        by rewrite decide_False by tauto. }
      rewrite (decide_False (P := s = fromState ∧ _)) by tauto.
      destruct (decide (s ∈ fromStates
                        ∧ 0 < row_total (matrix_row states entries s))%Q) as [[Hs Hpos]|Hn].
      * rewrite decide_True; [done|]. split; [by apply list_elem_of_further|done].
      * rewrite decide_False; [done|]. rewrite elem_of_cons. tauto.
Qed.
End matrix.

(** *** getProbabilityMatrix *)

(** Unfolding of sums and folds over a list that is given by its first
    element, without unfolding the arithmetic of [Q]. *)
Ltac sum_simpl :=
  cbn [fold_left foldr fmap list_fmap snd fst Qsum];
  change (foldr Qplus 0%Q) with Qsum.

Lemma row_total_acc (row : list (value * Q)) (acc : Q) :
  (for_of row (λ '(_, count) sum, (sum + count)%Q) acc == acc + Qsum row.*2)%Q.
Proof.
  unfold for_of. revert acc. induction row as [|[s count] row IH]; intros acc; sum_simpl.
  - ring.
  - rewrite IH. ring.
Qed.

Lemma row_total_Qsum (row : list (value * Q)) : (row_total row == Qsum row.*2)%Q.
Proof. unfold row_total. rewrite row_total_acc. ring. Qed.

Lemma matrix_row_values (states : list value) (entries : value → value → Q)
    (s : value) :
  (matrix_row states entries s).*2 = entries s <$> states.
Proof. unfold matrix_row. rewrite <- list_fmap_compose. done. Qed.


Lemma Qsum_alter_entry (fromState toState s : value)
    (entries : value → value → Q) (l : list value) :
  NoDup l →
  (Qsum (alter_entry (λ count, count + 1) fromState toState entries s <$> l)
   == Qsum (entries s <$> l)
      + (if decide (s = fromState ∧ toState ∈ l) then 1 else 0))%Q.
Proof.
  induction l as [|t' l IH]; intros Hnodup.
  - sum_simpl. rewrite decide_False; [ring|]. intros [_ []%elem_of_nil].
  - apply NoDup_cons in Hnodup as [Hnotin Hnodup]. sum_simpl.
    rewrite IH by done. unfold alter_entry at 1.
    destruct (decide (s = fromState ∧ t' = toState)) as [[-> ->]|Hne].
    + rewrite (decide_False (P := _ ∧ toState ∈ l)) by tauto.
      rewrite decide_True; [ring|]. split; [done|apply list_elem_of_here].
    + destruct (decide (s = fromState ∧ toState ∈ l)) as [[-> Hin]|Hn].
      * rewrite decide_True; [ring|]. split; [done|by apply list_elem_of_further].
      * rewrite decide_False; [ring|]. rewrite elem_of_cons. intros [-> [->|?]]; tauto.
Qed.

Lemma transitions_from_cons (stateStr nextValues : list value)
    (table : list (list value * list value)) (s : value) :
  transitions_from ((stateStr, nextValues) :: table) s
  = (if decide (get Undefined (JSON_parse stateStr) 0 = s) then nextValues else [])
    ++ transitions_from table s.
Proof. done. Qed.

Lemma counted_total (states : list value) (table : list (list value * list value))
    (entries : value → value → Q) (s : value) :
  NoDup states →
  (∀ stateStr nextValues, (stateStr, nextValues) ∈ table →
     ∀ v, v ∈ nextValues → v ∈ states) →
  (Qsum (counted table entries s <$> states)
   == Qsum (entries s <$> states)
      + inject_Z (Z.of_nat (length (transitions_from table s))))%Q.
Proof.
  intros Hnodup. unfold counted, for_of. revert entries.
  induction table as [|[stateStr nextValues] table IH]; intros entries Hin.
  - sum_simpl. change (inject_Z _) with 0%Q. ring.
  - cbn [fold_left].
    assert (∀ k n, (k, n) ∈ table → ∀ v, v ∈ n → v ∈ states) as Hin'
      by (intros k n Hk; apply (Hin k n); by apply list_elem_of_further).
    rewrite (IH _ Hin').
    rewrite transitions_from_cons, length_app, Nat2Z.inj_add, inject_Z_plus.
    assert (∀ v, v ∈ nextValues → v ∈ states) as Hnext
      by (apply (Hin stateStr); apply list_elem_of_here).
    clear IH Hin Hin'. set (fromState := get Undefined (JSON_parse stateStr) 0).
    assert (Qsum (fold_left
                    (λ entries toState,
                       alter_entry (λ count, count + 1)%Q fromState toState entries)
                    nextValues entries s <$> states)
            == Qsum (entries s <$> states)
               + inject_Z (Z.of_nat
                   (length (if decide (fromState = s) then nextValues else []))))%Q
      as ->; [|ring].
    revert entries. induction nextValues as [|toState nextValues IH]; intros entries.
    + cbn [fold_left]. case_decide; cbn [length Z.of_nat inject_Z]; ring.
    + cbn [fold_left].
      assert (∀ v, v ∈ nextValues → v ∈ states) as Hnext'
        by (intros v Hv; apply Hnext; by apply list_elem_of_further).
      rewrite (IH Hnext'), (Qsum_alter_entry _ _ _ _ _ Hnodup).
      assert (toState ∈ states) as Hto by apply Hnext, list_elem_of_here.
      destruct (decide (fromState = s)) as [->|Hne].
      * rewrite decide_True by done. cbn [length].
        rewrite Nat2Z.inj_succ, <- Z.add_1_l, inject_Z_plus. ring.
      * rewrite decide_False by (intros [-> _]; done). ring.
Qed.


Lemma Qsum_zero (l : list value) : (Qsum ((λ _, 0%Q) <$> l) == 0)%Q.
Proof. induction l as [|t' l IH]; sum_simpl; [ring|]. rewrite IH. ring. Qed.






(** The matrix of the model trained on [[60, 62, 64, 62, 60]]. *)
Lemma probability_matrix_example :
  (getProbabilityMatrix
     (train (new 1) [Num 60; Num 62; Num 64; Num 62; Num 60]).1).1
  = Some ([Num 60; Num 62; Num 64],
          [(Num 60, [(Num 60, 0%Q); (Num 62, 1%Q); (Num 64, 0%Q)]);
           (Num 62, [(Num 60, 1 # 2); (Num 62, 0 # 2); (Num 64, 1 # 2)]);
           (Num 64, [(Num 60, 0%Q); (Num 62, 1%Q); (Num 64, 0%Q)])]).
Proof. vm_compute. reflexivity. Qed.

End markov.

(** * Further properties *)

(** ** Loops *)

Section loops_more.
Context {S : Type}.

Lemma while_loop_inv (P : S → Prop) (cond : S → bool) (body : S → loop_step S)
    (fuel : nat) (s r : S) :
  while_loop fuel cond body s = Some r →
  P s →
  (∀ s, P s → cond s = true →
     match body s with Continue s' | Break s' => P s' end) →
  P r.
Proof.
  intros Hrun HP Hstep. revert s Hrun HP.
  induction fuel as [|fuel IH]; intros s Hrun HP; [done|].
  cbn [while_loop] in Hrun. destruct (cond s) eqn:Hcond.
  - specialize (Hstep s HP Hcond). destruct (body s) as [s'|s'].
    + by apply (IH s').
    + by injection Hrun as <-.
  - by injection Hrun as <-.
Qed.

Lemma while_loop_exit (cond : S → bool) (f : S → S) (fuel : nat) (s r : S) :
  while_loop fuel cond (λ s, Continue (f s)) s = Some r → cond r = false.
Proof.
  revert s. induction fuel as [|fuel IH]; intros s Hrun; [done|].
  cbn [while_loop] in Hrun. destruct (cond s) eqn:Hcond.
  - by apply (IH (f s)).
  - by injection Hrun as <-.
Qed.

Lemma for_loop_add (body : nat → S → S) (a b lo : nat) (s : S) :
  for_loop (a + b) lo (λ i s, Continue (body i s)) s
  = for_loop b (lo + a) (λ i s, Continue (body i s))
      (for_loop a lo (λ i s, Continue (body i s)) s).
Proof.
  revert lo s. induction a as [|a IH]; intros lo s; cbn [for_loop Nat.add].
  - by rewrite Nat.add_0_r.
  - rewrite IH. f_equal. lia.
Qed.
End loops_more.

(** ** LSystem *)

Section lsystem_more.
Import LSystem.

Lemma append_length (s1 s2 : string) :
  String.length (s1 +:+ s2) = String.length s1 + String.length s2.
Proof.
  induction s1 as [|c s1 IH]; [done|].
  change (S (String.length (s1 +:+ s2)) = S (String.length s1 + String.length s2)).
  by rewrite IH.
Qed.

Lemma rewrite_from_empty (rules : gmap ascii string) (current next : string) :
  rewrite rules current next = next +:+ rewrite rules current EmptyString.
Proof.
  revert next. induction current as [|symbol rest IH]; intros next.
  - cbn. by rewrite append_nil_r.
  - cbn [rewrite]. rewrite IH, (IH (rewrite_symbol _ _ EmptyString)).
    rewrite <- append_assoc. f_equal. unfold rewrite_symbol.
    by destruct (rules !! symbol) as [[|c r]|].
Qed.

Lemma rewrite_append_acc (rules : gmap ascii string) (s1 s2 next : string) :
  rewrite rules (s1 +:+ s2) next = rewrite rules s2 (rewrite rules s1 next).
Proof.
  revert next. induction s1 as [|c s1 IH]; intros next; [done|].
  change (String c s1 +:+ s2) with (String c (s1 +:+ s2)). cbn [rewrite]. apply IH.
Qed.

Lemma rewrite_append (rules : gmap ascii string) (s1 s2 : string) :
  rewrite rules (s1 +:+ s2) EmptyString
  = rewrite rules s1 EmptyString +:+ rewrite rules s2 EmptyString.
Proof. rewrite rewrite_append_acc. apply rewrite_from_empty. Qed.

Lemma generate_succ (ls : t) (n : nat) :
  (generate ls (S n)).1 = rewrite (rules ls) (generate ls n).1 EmptyString.
Proof.
  unfold generate. cbn [fst].
  rewrite !(for_loop_iter (λ current, rewrite (rules ls) current EmptyString)).
  done.
Qed.

(** X1. [generate] distributes over the concatenation of axioms: after
    [n] iterations the derivation of [s1 ++ s2] is the derivation of [s1]
    followed by the derivation of [s2], every symbol being rewritten on its
    own. *)
Theorem generate_append (rules : gmap ascii string) (s1 s2 : string) (n : nat) :
  (generate (new (s1 +:+ s2) rules) n).1
  = (generate (new s1 rules) n).1 +:+ (generate (new s2 rules) n).1.
Proof.
  induction n as [|n IH]; [done|].
  rewrite !generate_succ, IH. cbn [new LSystem.rules]. apply rewrite_append.
Qed.

Lemma rewrite_length (rules : gmap ascii string) (current next : string) :
  String.length next + String.length current
  ≤ String.length (rewrite rules current next).
Proof.
  revert next. induction current as [|symbol rest IH]; intros next.
  - cbn. lia.
  - cbn [rewrite]. etransitivity; [|apply IH]. unfold rewrite_symbol.
    destruct (rules !! symbol) as [[|c r]|]; rewrite append_length; cbn; lia.
Qed.

(** X2. A derivation never gets shorter, whatever the rules are: a symbol
    whose rule is the empty string is kept, so every symbol leaves at least
    one symbol behind, and [generate(a)] is at most as long as [generate(b)]
    when [a <= b]. *)
Theorem generate_never_shrinks (ls : t) (a b : nat) :
  a ≤ b →
  String.length (generate ls a).1 ≤ String.length (generate ls b).1.
Proof.
  induction 1 as [|b _ IH]; [done|].
  etransitivity; [exact IH|]. rewrite generate_succ.
  pose proof (rewrite_length (rules ls) (generate ls b).1 EmptyString) as Hlen.
  change (String.length EmptyString) with 0 in Hlen. lia.
Qed.

Lemma generate_never_shrinks_witness :
  String.length (generate fibonacci 2).1 ≤ String.length (generate fibonacci 5).1.
Proof. apply generate_never_shrinks. lia. Defined.

(** X3. Iterations compose: [generate(a + b)] returns what [generate(b)]
    returns on the system that has the result of [generate(a)] as its axiom
    and the same rules. *)
Theorem generate_add (ls : t) (a b : nat) :
  (generate ls (a + b)).1 = (generate (new (generate ls a).1 (rules ls)) b).1.
Proof.
  unfold generate. cbn [fst new axiom LSystem.rules].
  rewrite !(for_loop_iter (λ current, rewrite (rules ls) current EmptyString)).
  rewrite Nat.add_comm. apply Nat.iter_add.
Qed.
End lsystem_more.

Section lsystem_catalogue.
Import LSystem.

Lemma rules_of_list_nonempty (l : list (ascii * string)) (c : ascii) :
  Forall (λ rule, rule.2 ≠ EmptyString) l →
  (list_to_map l : gmap ascii string) !! c ≠ Some EmptyString.
Proof.
  intros Hall Hc. apply elem_of_list_to_map_2 in Hc.
  by apply (Forall_forall (λ rule, rule.2 ≠ EmptyString) l) in Hc.
Qed.

Lemma systems_rules_nonempty (type axiom : string) (rules : gmap ascii string) :
  systems !! type = Some (axiom, rules) → ∀ c, rules !! c ≠ Some EmptyString.
Proof.
  intros Hsys c. apply elem_of_list_to_map_2 in Hsys.
  repeat (apply elem_of_cons in Hsys as [Heq|Hsys];
          [simplify_eq; apply rules_of_list_nonempty; repeat constructor; done|]).
  by apply elem_of_nil in Hsys.
Qed.

(** X4. For a name that no object inherits, [createPredefined] returns the
    system of the catalogue under that name and writes nothing, or, when the
    catalogue has none, the fibonacci system and one warning. No rule of the
    system it returns is empty, so [generate] is the plain parallel
    substitution on it. *)
Theorem createPredefined_refines_spec (type : string) :
  type ∉ Object_prototype →
  ∃ ls out,
    createPredefined type = (Some ls, out)
    ∧ (∀ axiom rules, systems !! type = Some (axiom, rules) →
         ls = new axiom rules ∧ out = [])
    ∧ (systems !! type = None →
         ls = fibonacci
         ∧ out = [console_warn
                    ("L-System type '" +:+ type
                     +:+ "' not found, using fibonacci instead")])
    ∧ ∀ iterations,
        (generate ls iterations).1
        = spec_generate (axiom ls) (rules ls) iterations.
Proof.
  intros Hown. unfold createPredefined. rewrite decide_False by done.
  destruct (systems !! type) as [[axiom rules]|] eqn:Hsys.
  - eexists _, _. split; [done|]. split; [by intros ? ? [= <- <-]|].
    split; [done|]. intros n. apply generate_refines_spec.
    by apply (systems_rules_nonempty type axiom).
  - eexists _, _. split; [done|]. split; [done|]. split; [done|].
    intros n. apply generate_refines_spec. intros c.
    apply rules_of_list_nonempty. repeat constructor; done.
Qed.

Lemma createPredefined_refines_spec_witness :
  ∃ ls out,
    createPredefined "koch" = (Some ls, out)
    ∧ (generate ls 1).1 = spec_generate (axiom ls) (rules ls) 1.
Proof.
  destruct (createPredefined_refines_spec "koch") as (ls & out & Hcall & _ & _ & Hgen).
  - unfold Object_prototype. intros Hin.
    repeat (apply elem_of_cons in Hin as [[=]|Hin]). by apply elem_of_nil in Hin.
  - exists ls, out. split; [exact Hcall|exact (Hgen 1)].
Defined.

Lemma transformations_lookup (random : Q) symbol f :
  transformations random !! symbol = Some f →
  (symbol, f) ∈
    [ ("A"%char, λ note, Z.min (note + 2) 127);
      ("B"%char, λ note, Z.max (note - 2) 0);
      ("C"%char, λ note, Z.min (note + 7) 127);
      ("D"%char, λ note, Z.max (note - 7) 0);
      ("E"%char, λ note, Z.min (note + 12) 127);
      ("F"%char, λ note, Z.max (note - 12) 0);
      ("G"%char, λ note, 127 - note);
      ("H"%char, λ note, note);
      ("I"%char, λ note, 60 + (note - 60) * -1);
      ("J"%char, λ note, Z.rem note 12 + 60);
      ("K"%char, λ note,
         let mod_ := Z.rem note 12 in
         if decide (mod_ = 0) then note
         else if decide (mod_ = 4) then note
         else if decide (mod_ = 7) then note
         else note + 1);
      ("L"%char, λ note,
         let mod_ := Z.rem note 12 in
         if decide (mod_ = 2) then note
         else if decide (mod_ = 5) then note
         else if decide (mod_ = 9) then note
         else note - 1);
      ("M"%char, λ note, note + (Math_floor (random * 3) - 1)) ]%Z.
Proof. apply elem_of_list_to_map_2. Qed.

(** X5. The function that [getTransformation] returns for a symbol other than
    [I], [L] and [M] maps a MIDI note (0 to 127) to a MIDI note; the symbols
    without an entry get the identity. *)
Theorem getTransformation_keeps_range (symbol : ascii) (random : Q) (note : Z) :
  symbol ≠ "I"%char → symbol ≠ "L"%char → symbol ≠ "M"%char →
  (0 ≤ note ≤ 127)%Z →
  (0 ≤ getTransformation symbol random note ≤ 127)%Z.
Proof.
  intros HI HL HM Hnote. unfold getTransformation.
  destruct (transformations random !! symbol) as [f|] eqn:Hf; [|done].
  apply transformations_lookup in Hf. cbn [default from_option id].
  repeat (apply elem_of_cons in Hf as [[= -> ->]|Hf]); try done;
    try (by apply elem_of_nil in Hf); cbn beta zeta;
    repeat case_decide; Z.quot_rem_to_equations; lia.
Qed.

Lemma getTransformation_keeps_range_witness :
  (0 ≤ getTransformation "K" (1 # 2) 126 ≤ 127)%Z.
Proof. apply getTransformation_keeps_range; [done|done|done|lia]. Defined.
End lsystem_catalogue.

Section lsystem_music.
Import LSystem.

Lemma Forall_slice {A} (P : A → Prop) (start end_ : nat) (l : list A) :
  Forall P l → Forall P (slice start end_ l).
Proof. intros Hl. unfold slice. by apply Forall_take, Forall_drop. Qed.

Lemma applyToMusic_pointwise (P Q : Z → Prop) (ls : t) (sequence : list Z)
    (transformations : option (gmap ascii (Z → Z))) :
  (∀ note, P note → Q note) →
  (∀ symbol f, default defaultTransform transformations !! symbol = Some f →
     ∀ note, P note → Q (f note)) →
  Forall P sequence →
  Forall Q (applyToMusic ls sequence transformations).1.
Proof.
  intros Hkeep Htransform Hsequence. unfold applyToMusic.
  destruct (String.length (result ls) =? 0).
  { cbn. by eapply Forall_impl. }
  cbn [fst]. apply (for_loop_ind (λ _ transformed, Forall Q transformed)).
  - constructor.
  - intros i transformed _ Htransformed. unfold applyToMusic_body.
    case_decide; [done|].
    pose proof (Forall_slice P (i * ceil_div (length sequence)
                                      (String.length (result ls)))
                  (Nat.min ((i + 1) * ceil_div (length sequence)
                                        (String.length (result ls)))
                     (length sequence))
                  sequence Hsequence) as Hsegment.
    destruct (String.get i (result ls)) as [symbol|]; cbn [mbind option_bind].
    + destruct (default defaultTransform transformations !! symbol) as [f|] eqn:Hf.
      * apply Forall_app. split; [done|]. apply Forall_fmap.
        eapply Forall_impl; [exact Hsegment|]. intros note. by apply (Htransform symbol).
      * apply Forall_app. split; [done|]. by eapply Forall_impl.
    + apply Forall_app. split; [done|]. by eapply Forall_impl.
  - done.
Qed.

Lemma defaultTransform_cases (symbol : ascii) (f : Z → Z) :
  defaultTransform !! symbol = Some f →
  f = (λ note, Z.min (note + 1) 127)
  ∨ f = (λ note, Z.max (note - 1) 0)
  ∨ f = (λ note, 120 - note)%Z
  ∨ f = (λ note, note).
Proof.
  unfold defaultTransform. intros Hf.
  apply elem_of_list_to_map_2 in Hf.
  repeat (apply elem_of_cons in Hf as [Heq|Hf]; [injection Heq as _ <-; tauto|]).
  by apply elem_of_nil in Hf.
Qed.

(** X6. With the default transformations [applyToMusic] maps notes between 0
    and 120 to notes between 0 and 127, for every derivation: [A] and [B]
    clamp, and the inversion [C], [120 - note], stays at or above 0 only up
    to 120. *)
Theorem applyToMusic_default_range (ls : t) (sequence : list Z) :
  Forall (λ note, 0 ≤ note ≤ 120)%Z sequence →
  Forall (λ note, 0 ≤ note ≤ 127)%Z (applyToMusic ls sequence None).1.
Proof.
  apply applyToMusic_pointwise.
  - intros note. lia.
  - intros symbol f Hf note Hnote. cbn in Hf.
    apply defaultTransform_cases in Hf as [-> | [-> | [-> | ->]]]; lia.
Qed.

Lemma applyToMusic_default_range_witness :
  Forall (λ note, 0 ≤ note ≤ 127)%Z
    (applyToMusic (generate fibonacci 3).2 [0; 60; 120]%Z None).1.
Proof.
  apply applyToMusic_default_range.
  repeat constructor; lia.
Defined.
End lsystem_music.

(** ** CellularAutomata *)

Section automaton_table.
Import CellularAutomata.

Lemma ToInt32_testbit (z i : Z) :
  (0 ≤ i < 31)%Z → Z.testbit (ToInt32 z) i = Z.testbit z i.
Proof.
  intros Hi. unfold ToInt32.
  replace ((z + 2 ^ 31) mod 2 ^ 32 - 2 ^ 31)%Z
    with ((z + 2 ^ 31) mod 2 ^ 32 + (-1) * 2 ^ 31)%Z by lia.
  rewrite <- (Z.mod_pow2_bits_low _ 31) by lia.
  rewrite Z.mod_add by lia.
  rewrite Z.mod_pow2_bits_low by lia.
  rewrite Z.mod_pow2_bits_low by lia.
  rewrite <- (Z.mod_pow2_bits_low (z + 2 ^ 31) 31) by lia.
  replace (z + 2 ^ 31)%Z with (z + 1 * 2 ^ 31)%Z by lia.
  rewrite Z.mod_add by lia. by rewrite Z.mod_pow2_bits_low by lia.
Qed.

Lemma rule_bit_any (rule : Z) (i : nat) :
  i < 8 →
  (if decide (Z.land (ToInt32 rule) (ToInt32 (Z.shiftl 1 (Z.of_nat i mod 32))) ≠ 0%Z)
   then 1%Z else 0%Z) = Z.b2z (Z.testbit rule (Z.of_nat i)).
Proof.
  intros Hi.
  assert (0 < 2 ^ Z.of_nat i ≤ 2 ^ 7)%Z as Hpow.
  { split; [apply Z.pow_pos_nonneg; lia|apply Z.pow_le_mono_r; lia]. }
  assert (ToInt32 (Z.shiftl 1 (Z.of_nat i mod 32)) = 2 ^ Z.of_nat i)%Z as ->.
  { rewrite Z.mod_small by lia. rewrite Z.shiftl_1_l.
    unfold ToInt32. rewrite Z.mod_small; lia. }
  rewrite land_pow2 by lia. rewrite ToInt32_testbit by lia.
  destruct (Z.testbit rule (Z.of_nat i)); case_decide; simpl; lia.
Qed.

(** X7. Only the low eight bits of the rule number reach the table: [rule]
    and [rule mod 256] have the same one, for every integer [rule]. *)
Theorem generateRuleTable_low_bits (rule : Z) :
  generateRuleTable rule = generateRuleTable (rule mod 256).
Proof.
  unfold generateRuleTable. cbn [for_loop].
  rewrite !(rule_bit_any rule) by lia.
  rewrite !(rule_bit_any (rule mod 256)) by lia.
  change 256%Z with (2 ^ 8)%Z.
  by rewrite !Z.mod_pow2_bits_low by lia.
Qed.
End automaton_table.

Section automaton_more.
Import CellularAutomata.

Lemma binary_bit (v : value) : binary v ↔ ∃ b, v = bit b.
Proof.
  split.
  - intros [->| ->]; [by exists false|by exists true].
  - intros [[] ->]; [by right|by left].
Qed.

Lemma well_formed_current (ca : t) :
  well_formed ca → binary_row (size ca) (currentState ca).
Proof.
  intros (_ & _ & Hrows & Hlast).
  apply last_Some in Hlast as [front Hhist]. rewrite Hhist in Hrows.
  apply Forall_app in Hrows as [_ Hrow].
  exact (proj1 (Forall_singleton _ _) Hrow).
Qed.

Lemma new_well_formed (rule : Z) (W : nat) (initialState : option (list value)) :
  (0 ≤ rule < 256)%Z → 0 < W →
  (∀ init, initialState = Some init → length init = W → Forall binary init) →
  well_formed (new rule W initialState).
Proof.
  intros Hrule HW Hinit. unfold well_formed, new. cbn.
  split; [done|]. split; [done|]. split; [|done].
  apply Forall_singleton.
  assert (binary_row W (JS.set Undefined (replicate W (Num 0)) (W / 2) (Num 1)))
    as Hseed.
  { unfold JS.set. rewrite length_replicate.
    assert (W / 2 < W) by (apply Nat.div_lt; lia).
    rewrite decide_True by done. split.
    - by rewrite length_insert, length_replicate.
    - apply Forall_insert; [|by right].
      apply Forall_replicate. by left. }
  destruct initialState as [init|]; [|done].
  case_decide as Hlen; [|done]. split; [done|]. by apply Hinit.
Qed.

Lemma evolve_binary (ca : t) :
  well_formed ca → binary_row (size ca) (evolve ca).1.
Proof.
  intros Hwf. pose proof (well_formed_current ca Hwf) as [Hlen Hcells].
  destruct Hwf as (Hrule & Htable & _ & _).
  destruct (evolve_cells ca) as [Hnext_len Hnext].
  split; [done|]. apply Forall_lookup. intros i v Hv.
  assert (i < size ca) as Hi.
  { rewrite <- Hnext_len. by eapply lookup_lt_Some. }
  rewrite Hnext in Hv by done. injection Hv as <-.
  assert (∀ k, k < size ca → ∃ b, get Undefined (currentState ca) k = bit b) as Hbit.
  { intros k Hk. rewrite <- Hlen in Hk.
    apply lookup_lt_is_Some in Hk as [v Hv]. unfold get. rewrite Hv. cbn.
    apply binary_bit. by eapply (Forall_lookup_1 _ _ _ _ Hcells). }
  unfold next_cell.
  destruct (Hbit ((i + size ca - 1) mod size ca)) as [l ->];
    [apply Nat.mod_upper_bound; lia|].
  destruct (Hbit i) as [c ->]; [done|].
  destruct (Hbit ((i + 1) mod size ca)) as [r ->];
    [apply Nat.mod_upper_bound; lia|].
  unfold getNextCellState. rewrite Htable, generateRuleTable_lookup by done.
  apply binary_bit. by eexists.
Qed.

Lemma evolve_well_formed (ca : t) : well_formed ca → well_formed (evolve ca).2.
Proof.
  intros Hwf. pose proof (evolve_binary ca Hwf) as Hrow.
  destruct Hwf as (Hrule & Htable & Hrows & Hlast).
  unfold well_formed. cbn. split; [done|]. split; [done|]. split.
  - apply Forall_app. split; [done|]. by apply Forall_singleton.
  - apply last_snoc.
Qed.

Lemma evolveMultiple_well_formed (ca : t) (steps : nat) :
  well_formed ca → well_formed (evolveMultiple ca steps).2.
Proof.
  intros Hwf. unfold evolveMultiple.
  apply (for_loop_ind (λ _ st, well_formed st.2) (λ st, well_formed st.2)).
  - done.
  - intros i [results ca'] _ Hwf'. cbn. by apply evolve_well_formed.
  - done.
Qed.

(** X8. The rows of an automaton stay binary. The constructor, for a rule
    number in 0..255, a positive width and an initial state that is binary
    when it is used, builds an automaton whose table is that of its rule and
    whose history consists of rows of its width with cells 0 and 1, the
    last of which is the current state; every public method that returns
    leaves such an automaton behind. *)
Theorem automaton_rows_stay_binary :
  (∀ rule W initialState,
     (0 ≤ rule < 256)%Z → 0 < W →
     (∀ init, initialState = Some init → length init = W → Forall binary init) →
     well_formed (new rule W initialState))
  ∧ (∀ fuel op ca ca',
       well_formed ca → run fuel op ca = Some ca' → well_formed ca').
Proof.
  split; [apply new_well_formed|].
  intros fuel op ca ca' Hwf Hrun.
  assert (∀ (A : Type) (r : option A), r ≫= (λ _, Some ca) = Some ca' → ca' = ca)
    as Hread.
  { intros A [r|] Hr; cbn in Hr; congruence. }
  destruct op as [|steps| |row|row lo hi|notes durations row|notes row range
                 |length_ lo hi]; cbn in Hrun.
  - injection Hrun as <-. by apply evolve_well_formed.
  - injection Hrun as <-. by apply evolveMultiple_well_formed.
  - by injection Hrun as <-.
  - by injection Hrun as <-.
  - by apply Hread in Hrun as ->.
  - by apply Hread in Hrun as ->.
  - by apply Hread in Hrun as ->.
  - unfold generatePitches in Hrun.
    destruct (while_loop fuel _ _ ca) as [r|] eqn:Hloop; [|done].
    cbn in Hrun. injection Hrun as <-.
    apply (while_loop_inv well_formed _ _ _ _ _ Hloop Hwf).
    intros s Hs _. by apply evolve_well_formed.
Qed.

Lemma automaton_rows_stay_binary_witness :
  well_formed (evolve (new 30 8 None)).2.
Proof.
  destruct automaton_rows_stay_binary as [Hnew Hrun].
  apply (Hrun 0 call_evolve (new 30 8 None)); [|done].
  apply Hnew; [lia|lia|discriminate].
Defined.

(** X11. [toRhythm] reads the history: an index in range returns that row
    and writes nothing, [-1] returns the last row, an index below [-1] or at
    or beyond the length of the history returns the empty array and writes
    an error, and right after [evolve] the row at [-1] is the one that
    [evolve] returned. *)
Theorem toRhythm_reads_history (ca : t) :
  (∀ k row, history ca !! k = Some row → toRhythm ca (Z.of_nat k) = (row, []))
  ∧ (∀ row, last (history ca) = Some row → toRhythm ca (-1) = (row, []))
  ∧ (∀ index, (index < -1 ∨ Z.of_nat (length (history ca)) ≤ index)%Z →
       toRhythm ca index = ([], [console_error "Invalid row index"]))
  ∧ toRhythm (evolve ca).2 (-1) = ((evolve ca).1, []).
Proof.
  assert (∀ ca' row, last (history ca') = Some row → toRhythm ca' (-1) = (row, []))
    as Hlast.
  { intros ca' row Hrow. unfold toRhythm.
    rewrite (decide_True (P := (-1)%Z = (-1)%Z)) by done.
    apply last_Some in Hrow as [front Hhist]. rewrite Hhist, length_app. cbn [length].
    rewrite decide_False by lia.
    replace (Z.of_nat (length front + 1) - 1)%Z with (Z.of_nat (length front)) by lia.
    rewrite getZ_of_nat. unfold get.
    by rewrite lookup_app_r, Nat.sub_diag by lia. }
  split; [|split; [apply Hlast|split]].
  - intros k row Hrow. unfold toRhythm.
    pose proof (lookup_lt_Some _ _ _ Hrow) as Hk.
    rewrite (decide_False (P := Z.of_nat k = (-1)%Z)) by lia.
    rewrite decide_False by lia.
    rewrite getZ_of_nat. unfold get. by rewrite Hrow.
  - intros index Hout. unfold toRhythm.
    rewrite (decide_False (P := index = (-1)%Z)) by lia.
    by rewrite decide_True by lia.
  - apply Hlast. cbn. apply last_snoc.
Qed.

Lemma toRhythm_reads_history_witness :
  toRhythm (new 30 8 None) 0
  = ([Num 0; Num 0; Num 0; Num 0; Num 1; Num 0; Num 0; Num 0], []).
Proof.
  destruct (toRhythm_reads_history (new 30 8 None)) as (Hrow & _).
  exact (Hrow 0 _ eq_refl).
Defined.

(** *** The rhythm gate *)

Lemma lookup_tiled {A} (l : list A) (k i : nat) :
  i < k * length l → concat (replicate k l) !! i = l !! (i mod length l).
Proof.
  revert i. induction k as [|k IH]; intros i Hi; [lia|].
  cbn [replicate concat]. destruct (decide (i < length l)) as [Hlt|Hge].
  - rewrite lookup_app_l by done. by rewrite Nat.mod_small.
  - rewrite lookup_app_r by lia. rewrite IH by lia. f_equal.
    assert (length l ≠ 0) by lia.
    replace i with ((i - length l) + 1 * length l) at 2 by lia.
    by rewrite Nat.Div0.mod_add.
Qed.

Lemma tile_tiles {A} (fuel : nat) (caRhythm : list value) (notes : list A)
    (full : list value) :
  tile fuel caRhythm notes = Some full →
  length notes ≤ length full
  ∧ ∃ k, full = concat (replicate k caRhythm).
Proof.
  intros Hrun. unfold tile in Hrun. split.
  - apply while_loop_exit, bool_decide_eq_false in Hrun. lia.
  - apply (while_loop_inv (λ full, ∃ k, full = concat (replicate k caRhythm)))
      in Hrun; [done|by exists 0|].
    intros s [k ->] _. exists (S k). cbn [replicate concat].
    clear. induction k as [|k IH]; cbn [replicate concat].
    + by rewrite app_nil_r.
    + by rewrite <- app_assoc, IH.
Qed.

Lemma length_tiled {A} (l : list A) (k : nat) :
  length (concat (replicate k l)) = k * length l.
Proof.
  induction k as [|k IH]; [done|]. cbn [replicate concat].
  rewrite length_app, IH. lia.
Qed.

Lemma Forall_tiled {A} (P : A → Prop) (l : list A) (k : nat) :
  Forall P l → Forall P (concat (replicate k l)).
Proof.
  intros Hl. induction k as [|k IH]; cbn [replicate concat]; [done|].
  apply Forall_app. done.
Qed.

Lemma kept_positions_S (caRhythm : list value) (i : nat) :
  kept_positions caRhythm (S i)
  = kept_positions caRhythm i
    ++ (if decide (caRhythm !! (i mod length caRhythm) = Some (Num 1))
        then [i] else []).
Proof.
  unfold kept_positions. by rewrite seq_S, filter_app.
Qed.

Lemma kept_positions_lt (caRhythm : list value) (n i : nat) :
  i ∈ kept_positions caRhythm n → i < n.
Proof.
  unfold kept_positions. rewrite list_elem_of_filter, elem_of_seq. lia.
Qed.

Lemma picked_sublist {A} (undef : A) (caRhythm : list value) (l : list A) :
  (get undef l <$> kept_positions caRhythm (length l)) `sublist_of` l.
Proof.
  induction l as [|x l IH] using rev_ind; [done|].
  rewrite length_app. cbn [length]. rewrite Nat.add_1_r, kept_positions_S, fmap_app.
  apply sublist_app.
  - erewrite list_fmap_ext; [exact IH|].
    intros j i Hi%list_elem_of_lookup_2%kept_positions_lt.
    unfold get. by rewrite lookup_app_l.
  - case_decide; [|apply sublist_nil_l].
    cbn. unfold get. by rewrite lookup_app_r, Nat.sub_diag.
Qed.

(** X14. [applyToSequence] on a row that is not empty returns, within
    [notes.length] rounds of tiling, the notes and durations at the
    positions where the tiled row has a 1, in order; the notes it keeps are
    a subsequence of the notes. *)
Theorem applyToSequence_gates (fuel : nat) (ca : t) (notes durations : list value)
    (row : Z) :
  (toRhythm ca row).1 ≠ [] → length notes < fuel →
  let kept := kept_positions (toRhythm ca row).1 (length notes) in
  (applyToSequence fuel ca notes durations row).1
  = Some (get Undefined notes <$> kept, get Undefined durations <$> kept)
  ∧ (get Undefined notes <$> kept) `sublist_of` notes.
Proof.
  intros Hne Hfuel kept. split; [|apply picked_sublist].
  subst kept. unfold applyToSequence.
  destruct (toRhythm ca row) as [caRhythm out]. cbn [fst] in *.
  destruct (tile_terminates fuel caRhythm notes Hne Hfuel) as (full & Htile & _).
  rewrite Htile. apply tile_tiles in Htile as [Hlen [k ->]]. cbn [fst]. f_equal.
  apply (for_loop_ind
           (λ i st, st = (get Undefined notes <$> kept_positions caRhythm i,
                          get Undefined durations <$> kept_positions caRhythm i))).
  - done.
  - intros i [newNotes newDurations] [_ Hi] [= -> ->]. cbn [Nat.add] in Hi.
    rewrite kept_positions_S, !fmap_app.
    assert (get Undefined (slice 0 (length notes) (concat (replicate k caRhythm))) i
            = Num 1
            ↔ caRhythm !! (i mod length caRhythm) = Some (Num 1)) as Hcell.
    { unfold slice, get. rewrite drop_0, Nat.sub_0_r, lookup_take_lt by done.
      rewrite lookup_tiled by (rewrite length_tiled in Hlen; lia).
      destruct (caRhythm !! _) as [v|]; cbn; [|done].
      split; [by intros ->|by intros [= ->]]. }
    destruct (decide (caRhythm !! (i mod length caRhythm) = Some (Num 1)))
      as [Hon|Hoff].
    + by rewrite decide_True by (by apply Hcell).
    + rewrite decide_False by (by rewrite Hcell). by rewrite !app_nil_r.
  - done.
Qed.

Lemma applyToSequence_gates_witness :
  (applyToSequence 4 (new 30 4 None) [Num 60; Num 62; Num 64] [Num 1; Num 2; Num 3] 0).1
  = Some ([Num 64], [Num 3]).
Proof.
  destruct (applyToSequence_gates 4 (new 30 4 None) [Num 60; Num 62; Num 64]
              [Num 1; Num 2; Num 3] 0) as [Hcall _].
  - discriminate.
  - cbn. lia.
  - exact Hcall.
Defined.

(** *** The pitch filter *)

Lemma count_cells_numeric (pattern : list value) (i : nat) :
  Forall binary pattern → i < length pattern → length pattern ≠ 2 →
  is_Some
    (for_loop (2 * 3 + 1) 0
       (λ k count,
          let j := (Z.of_nat k - Z.of_nat 3)%Z in
          let index :=
            Z.rem (Z.of_nat i + j + Z.of_nat (length pattern))
                  (Z.of_nat (length pattern)) in
          Continue (add_cell count (getZ Undefined pattern index)))
       (Some 0%Z)).
Proof.
  intros Hbin Hi Hlen.
  apply (for_loop_ind (λ _ count, is_Some count)); [by eexists| |done].
  intros k count [_ Hk] [c ->]. cbn zeta.
  set (index := Z.rem _ _).
  assert (0 ≤ index < Z.of_nat (length pattern))%Z as Hindex.
  { subst index. destruct (decide (length pattern = 1)) as [->|Hne1].
    - rewrite Z.rem_1_r. lia.
    - rewrite Z.rem_mod_nonneg by lia. apply Z.mod_pos_bound. lia. }
  unfold getZ. destruct (Z.ltb_spec index 0) as [|_]; [lia|].
  assert (Z.to_nat index < length pattern) as Hlt by lia.
  apply lookup_lt_is_Some in Hlt as [v Hv]. unfold get. rewrite Hv. cbn.
  apply (Forall_lookup_1 _ _ _ _ Hbin) in Hv as [->| ->]; by eexists.
Qed.

(** X15. [applyToPitches] on a binary row that is not empty, for a list of
    notes that does not have length 2, when the notes and [range] are
    integers of a magnitude of at most [2^53] (which a double holds exactly,
    and at which the transposition stays far below the largest double),
    returns as many pitches as notes, each a number between 0 and 127. *)
Theorem applyToPitches_in_range (fuel : nat) (ca : t) (notes : list Z)
    (row range : Z) :
  (toRhythm ca row).1 ≠ [] → Forall binary (toRhythm ca row).1 →
  (Z.abs range ≤ 2 ^ 53)%Z → Forall (λ note, (Z.abs note ≤ 2 ^ 53)%Z) notes →
  length notes ≠ 2 → length notes < fuel →
  ∃ pitches,
    (applyToPitches fuel ca notes row range).1 = Some pitches
    ∧ length pitches = length notes
    ∧ Forall (λ pitch, ∃ p, pitch = Some p ∧ (0 ≤ p ≤ 127)%Z) pitches.
Proof.
  intros Hne Hbin _ _ Htwo Hfuel. unfold applyToPitches.
  destruct (toRhythm ca row) as [caPattern out]. cbn [fst] in *.
  destruct (tile_terminates fuel caPattern notes Hne Hfuel) as (full & Htile & _).
  rewrite Htile. apply tile_tiles in Htile as [Hlen [k ->]]. cbn [fst].
  eexists. split; [done|]. split; [apply length_imap|].
  set (pattern := slice 0 _ _).
  assert (length pattern = length notes) as Hpattern.
  { subst pattern. unfold slice. rewrite length_take, drop_0. lia. }
  assert (Forall binary pattern) as Hcells.
  { subst pattern. unfold slice. apply Forall_take. rewrite drop_0.
    by apply Forall_tiled. }
  apply Forall_lookup. intros i pitch Hpitch.
  apply list_lookup_imap_Some in Hpitch as (note & Hnote & ->).
  pose proof (lookup_lt_Some _ _ _ Hnote) as Hi.
  destruct (count_cells_numeric pattern i Hcells) as [count Hcount]; [lia..|].
  cbn zeta. cbn zeta in Hcount. rewrite Hcount. cbn [mbind option_bind].
  unfold mapValue. rewrite decide_False by done. cbn [mbind option_bind].
  eexists. split; [done|]. lia.
Qed.

Lemma applyToPitches_in_range_witness :
  ∃ pitches,
    (applyToPitches 4 (new 30 4 None) [60; 61; 62]%Z 0 4).1 = Some pitches
    ∧ length pitches = 3.
Proof.
  destruct (applyToPitches_in_range 4 (new 30 4 None) [60; 61; 62]%Z 0 4)
    as (pitches & Hcall & Hlen & _).
  - discriminate.
  - repeat constructor; by left || by right.
  - by vm_compute.
  - repeat constructor; by vm_compute.
  - cbn. lia.
  - cbn. lia.
  - by exists pitches.
Defined.

(** X16. For exactly two notes [applyToPitches] reads the pattern at index
    [-1] for the first note, adds [undefined] to the count and returns a
    first pitch that is not a number, whatever the row, the notes and the
    range are. *)
Theorem applyToPitches_two_notes (fuel : nat) (ca : t) (a b row range : Z) :
  (toRhythm ca row).1 ≠ [] → 2 < fuel →
  ∃ pitch, (applyToPitches fuel ca [a; b] row range).1 = Some [None; pitch].
Proof.
  intros Hne Hfuel. unfold applyToPitches.
  destruct (toRhythm ca row) as [caPattern out]. cbn [fst] in *.
  destruct (tile_terminates fuel caPattern [a; b] Hne ltac:(cbn; lia))
    as (full & Htile & Hlen).
  rewrite Htile. cbn [fst length] in *.
  set (pattern := slice 0 2 full).
  assert (length pattern = 2) as Hpattern.
  { subst pattern. unfold slice. rewrite length_take, drop_0. lia. }
  cbn [imap]. rewrite Hpattern. eexists. do 2 f_equal.
Qed.

Lemma applyToPitches_two_notes_witness :
  ∃ pitch, (applyToPitches 3 (new 30 4 None) [60; 64]%Z (-1) 4).1 = Some [None; pitch].
Proof. apply applyToPitches_two_notes; [by vm_compute|lia]. Defined.

(** *** Pitches from the density of the rows *)

Lemma active_count (row : list value) (sum : Z) :
  Forall binary row →
  ∃ count,
    for_of row (λ cell sum, add_cell sum cell) (Some sum) = Some count
    ∧ (sum ≤ count ≤ sum + Z.of_nat (length row))%Z.
Proof.
  unfold for_of. intros Hbin. revert sum.
  induction Hbin as [|cell row [->| ->] _ IH]; intros sum; cbn [fold_left add_cell].
  - exists sum. cbn. split; [done|lia].
  - destruct (IH (sum + 0)%Z) as (count & -> & Hcount).
    exists count. split; [done|]. cbn [length]. lia.
  - destruct (IH (sum + 1)%Z) as (count & -> & Hcount).
    exists count. split; [done|]. cbn [length]. lia.
Qed.

Lemma density_pitch_bounds (count W minPitch maxPitch : Z) :
  (0 ≤ count ≤ W)%Z → (0 < W)%Z → (minPitch ≤ maxPitch)%Z →
  (minPitch
   ≤ Math_floor (inject_Z minPitch
                 + inject_Z count / inject_Z W * inject_Z (maxPitch - minPitch))
   ≤ maxPitch)%Z.
Proof.
  intros Hcount HW Hpitch. unfold Math_floor.
  set (t' := (inject_Z count / inject_Z W)%Q).
  assert (0 <= t' <= 1)%Q as Ht.
  { subst t'. assert (0 < inject_Z W)%Q as HWq.
    { change 0%Q with (inject_Z 0). by rewrite <- Zlt_Qlt. }
    split.
    - apply Qle_shift_div_l; [done|]. rewrite Qmult_0_l.
      change 0%Q with (inject_Z 0). rewrite <- Zle_Qle. lia.
    - apply Qle_shift_div_r; [done|]. rewrite Qmult_1_l.
      rewrite <- Zle_Qle. lia. }
  assert (0 <= inject_Z (maxPitch - minPitch))%Q as Hd.
  { change 0%Q with (inject_Z 0). rewrite <- Zle_Qle. lia. }
  assert (inject_Z (maxPitch - minPitch) == inject_Z maxPitch - inject_Z minPitch)%Q
    as Hdiff.
  { unfold Zminus. rewrite inject_Z_plus, inject_Z_opp. ring. }
  split.
  - rewrite <- (Qfloor_Z minPitch) at 1. apply Qfloor_resp_le.
    assert (0 <= t' * inject_Z (maxPitch - minPitch))%Q
      by (apply Qmult_le_0_compat; tauto).
    lra.
  - rewrite <- (Qfloor_Z maxPitch) at 2. apply Qfloor_resp_le.
    assert (t' * inject_Z (maxPitch - minPitch) <= 1 * inject_Z (maxPitch - minPitch))%Q
      by (apply Qmult_le_compat_r; tauto).
    lra.
Qed.

(** X17. [generatePitches(length, minPitch, maxPitch)] on an automaton with
    binary rows and a positive width, for integers
    [-2^52 <= minPitch <= maxPitch <= 2^52] (which a double holds exactly,
    as it does their difference), returns [length] pitches, each a number
    between [minPitch] and [maxPitch]. *)
Theorem generatePitches_in_range (fuel : nat) (ca : t) (length_ : nat)
    (minPitch maxPitch : Z) :
  well_formed ca → 0 < size ca →
  (- 2 ^ 52 ≤ minPitch)%Z → (minPitch ≤ maxPitch)%Z → (maxPitch ≤ 2 ^ 52)%Z →
  length_ - length (history ca) < fuel →
  ∃ pitches ca',
    generatePitches fuel ca length_ minPitch maxPitch = Some (pitches, ca')
    ∧ length pitches = length_
    ∧ Forall (λ pitch, ∃ p, pitch = Some p ∧ (minPitch ≤ p ≤ maxPitch)%Z) pitches.
Proof.
  intros Hwf Hsize _ Hpitch _ Hfuel.
  destruct (generatePitches_history fuel ca length_ minPitch maxPitch Hfuel)
    as (pitches & ca' & rows & Hcall & Hhist & Hrows).
  exists pitches, ca'. split; [done|].
  unfold generatePitches in Hcall.
  destruct (while_loop fuel _ _ ca) as [r|] eqn:Hloop; [|done].
  assert (well_formed r ∧ size r = size ca) as [Hwf' Hsize'].
  { apply (while_loop_inv (λ s, well_formed s ∧ size s = size ca) _ _ _ _ _ Hloop);
      [done|].
    intros s [Hs Heq] _. split; [by apply evolve_well_formed|done]. }
  cbn [mbind option_bind] in Hcall. injection Hcall as <- <-.
  split; [by rewrite length_map, length_seq|].
  apply Forall_forall. intros pitch Hin.
  apply list_elem_of_In, in_map_iff in Hin as (i & <- & _).
  destruct Hwf' as (_ & _ & Hrows' & Hlast).
  assert (length (history r) ≠ 0) as Hnonempty.
  { apply last_Some in Hlast as [front ->]. rewrite length_app. cbn. lia. }
  assert (i mod length (history r) < length (history r)) as Hi
    by (by apply Nat.mod_upper_bound).
  apply lookup_lt_is_Some in Hi as [state Hstate].
  unfold get. rewrite Hstate. cbn [default from_option id].
  apply (Forall_lookup_1 _ _ _ _ Hrows') in Hstate as [Hlen Hbin].
  destruct (active_count state 0 Hbin) as (count & -> & Hcount).
  cbn [mbind option_bind]. rewrite decide_False by lia.
  eexists. split; [done|].
  apply density_pitch_bounds; lia.
Qed.

Lemma generatePitches_in_range_witness :
  ∃ pitches ca',
    generatePitches 5 (new 90 8 None) 4 48 84 = Some (pitches, ca')
    ∧ length pitches = 4.
Proof.
  destruct (generatePitches_in_range 5 (new 90 8 None) 4 48 84)
    as (pitches & ca' & Hcall & Hlen & _).
  - apply new_well_formed; [lia|lia|discriminate].
  - cbn. lia.
  - lia.
  - lia.
  - lia.
  - cbn. lia.
  - by exists pitches, ca'.
Defined.

(** *** Several steps *)

Lemma evolveMultiple_from (steps lo lo' : nat) (results : list (list value)) (ca : t) :
  for_loop steps lo
    (λ _ '(results, ca), let '(row, ca') := evolve ca in
                         Continue (results ++ [row], ca'))
    (results, ca)
  = (results
     ++ (for_loop steps lo'
           (λ _ '(results, ca), let '(row, ca') := evolve ca in
                                Continue (results ++ [row], ca'))
           ([], ca)).1,
     (for_loop steps lo'
        (λ _ '(results, ca), let '(row, ca') := evolve ca in
                             Continue (results ++ [row], ca'))
        ([], ca)).2).
Proof.
  revert lo lo' results ca.
  induction steps as [|steps IH]; intros lo lo' results ca; cbn [for_loop].
  - cbn. by rewrite app_nil_r.
  - destruct (evolve ca) as [row ca'].
    rewrite (IH _ (S lo') (results ++ [row])), (IH (S lo') (S lo') ([] ++ [row])).
    cbn. by rewrite <- app_assoc.
Qed.

Lemma evolveMultiple_S (ca : t) (steps : nat) :
  evolveMultiple ca (S steps)
  = ((evolve ca).1 :: (evolveMultiple (evolve ca).2 steps).1,
     (evolveMultiple (evolve ca).2 steps).2).
Proof.
  unfold evolveMultiple. cbn [for_loop].
  destruct (evolve ca) as [row ca']. cbn [fst snd].
  by rewrite (evolveMultiple_from steps 1 0).
Qed.

(** X10. [evolveMultiple(a + b)] returns the rows of [evolveMultiple(a)]
    followed by those of [evolveMultiple(b)] called next, and leaves the
    same automaton behind. *)
Theorem evolveMultiple_add (ca : t) (a b : nat) :
  evolveMultiple ca (a + b)
  = ((evolveMultiple ca a).1 ++ (evolveMultiple (evolveMultiple ca a).2 b).1,
     (evolveMultiple (evolveMultiple ca a).2 b).2).
Proof.
  revert ca. induction a as [|a IH]; intros ca.
  - change (evolveMultiple ca 0) with (@nil (list value), ca).
    cbn [fst snd app Nat.add]. by destruct (evolveMultiple ca b).
  - cbn [Nat.add]. rewrite !evolveMultiple_S, IH. done.
Qed.

(** *** Durations *)

(** The look-ahead of [toDurations] at an onset: it stops within the row,
    and the cells it passes are rests. *)
Lemma lookahead_bounds (rhythm : list value) (i : nat) :
  i < length rhythm →
  let noteDuration :=
    for_loop (length rhythm) 0
      (λ _ noteDuration,
         if decide (i + noteDuration < length rhythm
                    ∧ get Undefined rhythm (i + noteDuration) = Num 0)
         then Continue (S noteDuration)
         else Break noteDuration)
      1 in
  1 ≤ noteDuration ≤ length rhythm - i
  ∧ ∀ j, 1 ≤ j < noteDuration → rhythm !! (i + j) = Some (Num 0).
Proof.
  intros Hi. cbn zeta.
  apply (for_loop_ind
           (λ _ noteDuration,
              1 ≤ noteDuration ≤ length rhythm - i
              ∧ ∀ j, 1 ≤ j < noteDuration → rhythm !! (i + j) = Some (Num 0))
           (λ noteDuration,
              1 ≤ noteDuration ≤ length rhythm - i
              ∧ ∀ j, 1 ≤ j < noteDuration → rhythm !! (i + j) = Some (Num 0)));
    [split; [lia|intros; lia]| |done].
  intros _ noteDuration _ [Hnote Hrests]. case_decide as Hnext; [|done].
  destruct Hnext as [Hin Hrest]. split; [lia|]. intros j Hj.
  destruct (decide (j = noteDuration)) as [->|Hne]; [|apply Hrests; lia].
  unfold get in Hrest.
  destruct (rhythm !! (i + noteDuration)) as [cell|] eqn:Hcell; [|done].
  cbn in Hrest. by subst cell.
Qed.

Lemma mapValue_undefined (value outMin outMax : Q) :
  mapValue value 1 (inject_Z 1) outMin outMax = None.
Proof. done. Qed.

Lemma mapValue_at_least (noteDuration half : nat) (outMin outMax : Q) :
  (outMin <= outMax)%Q → 1 ≤ noteDuration → half ≠ 1 →
  (half = 0 → noteDuration = 1) →
  ∃ q, mapValue (inject_Z (Z.of_nat noteDuration)) 1 (inject_Z (Z.of_nat half))
         outMin outMax = Some q
       ∧ (outMin <= q)%Q.
Proof.
  intros Hrange Hnote Hhalf Hzero. unfold mapValue.
  assert (0 <= inject_Z (Z.of_nat noteDuration) - 1)%Q as Hnum.
  { change 1%Q with (inject_Z 1).
    assert (inject_Z 1 <= inject_Z (Z.of_nat noteDuration))%Q
      by (rewrite <- Zle_Qle; lia).
    lra. }
  destruct half as [|[|half]]; [| done |].
  - rewrite decide_False by done. eexists. split; [done|].
    rewrite (Hzero eq_refl). change (inject_Z (Z.of_nat 1)) with 1%Q.
    change (inject_Z (Z.of_nat 0)) with 0%Q.
    assert ((outMax - outMin) * (1 - 1) / (0 - 1) == 0)%Q as Heq by (by field).
    rewrite Heq. lra.
  - assert (0 < inject_Z (Z.of_nat (S (S half))) - 1)%Q as Hden.
    { change 1%Q with (inject_Z 1).
      assert (inject_Z 1 < inject_Z (Z.of_nat (S (S half))))%Q
        by (rewrite <- Zlt_Qlt; lia).
      lra. }
    rewrite decide_False by lra. eexists. split; [done|].
    assert (0 <= (outMax - outMin) * (inject_Z (Z.of_nat noteDuration) - 1)
                 / (inject_Z (Z.of_nat (S (S half))) - 1))%Q.
    { apply Qle_shift_div_l; [done|]. rewrite Qmult_0_l.
      apply Qmult_le_0_compat; lra. }
    lra.
Qed.

Lemma onsets_take_S (rhythm : list value) (i : nat) (cell : value) :
  rhythm !! i = Some cell →
  onsets (take (S i) rhythm)
  = onsets (take i rhythm) + (if decide (cell = Num 1) then 1 else 0).
Proof.
  intros Hcell. unfold onsets.
  rewrite (take_S_r _ _ _ Hcell), filter_app, length_app, filter_cons, filter_nil.
  by case_decide.
Qed.

Lemma onsets_skip (rhythm : list value) (i noteDuration : nat) :
  rhythm !! i = Some (Num 1) →
  (∀ j, 1 ≤ j < noteDuration → rhythm !! (i + j) = Some (Num 0)) →
  1 ≤ noteDuration →
  onsets (take (i + noteDuration) rhythm) = onsets (take i rhythm) + 1.
Proof.
  intros Honset Hrests Hnote.
  induction noteDuration as [|noteDuration IH]; [lia|].
  destruct noteDuration as [|noteDuration].
  - rewrite Nat.add_1_r, (onsets_take_S _ _ _ Honset). by rewrite decide_True.
  - rewrite Nat.add_succ_r.
    rewrite (onsets_take_S _ _ (Num 0)) by (apply Hrests; lia).
    rewrite decide_False by done. rewrite IH; [lia| |lia].
    intros j Hj. apply Hrests. lia.
Qed.

(** The scan of [toDurations] over a row: it ends within [rhythm.length]
    rounds, and a property of the position and of the durations pushed so
    far that every round keeps holds at the end. *)
Lemma toDurations_scan (P : nat → list (option Q) → Prop) (fuel : nat)
    (rhythm : list value) (minDuration maxDuration : Q) :
  (0 < minDuration)%Q →
  length rhythm < fuel →
  P 0 [] →
  (∀ i durations rest, P i durations → (0 < rest)%Q →
     P i (durations ++ [Some (- rest)%Q])) →
  (∀ i durations noteDuration, P i durations →
     rhythm !! i = Some (Num 1) →
     1 ≤ noteDuration ≤ length rhythm - i →
     (∀ j, 1 ≤ j < noteDuration → rhythm !! (i + j) = Some (Num 0)) →
     P (i + noteDuration)
       (durations
        ++ [mapValue (inject_Z (Z.of_nat noteDuration)) 1
              (inject_Z (Z.of_nat (length rhythm / 2))) minDuration maxDuration])) →
  (∀ i durations cell, P i durations →
     rhythm !! i = Some cell → cell ≠ Num 1 → P (S i) durations) →
  ∃ i durations currentDuration,
    while_loop fuel
      (λ '(i, _, _), bool_decide (i < length rhythm))
      (toDurations_body rhythm minDuration maxDuration)
      (0, [], 0%Q)
    = Some (i, durations, currentDuration)
    ∧ P i durations ∧ length rhythm ≤ i ∧ (0 <= currentDuration)%Q.
Proof.
  intros Hmin Hfuel Hnil Hrest Hnote Hskip.
  destruct (while_loop_total
              (λ st : nat * list (option Q) * Q, length rhythm - st.1.1)
              (λ st, P st.1.1 st.1.2 ∧ (0 <= st.2)%Q)
              (λ st, P st.1.1 st.1.2 ∧ length rhythm ≤ st.1.1 ∧ (0 <= st.2)%Q)
              (λ '(i, _, _), bool_decide (i < length rhythm))
              (toDurations_body rhythm minDuration maxDuration))
    with (fuel := fuel) (s := (0, @nil (option Q), 0%Q))
    as ([[i durations] currentDuration] & Hrun & Hinv).
  - intros [[i durations] currentDuration] [HP Hcur] Hcond.
    apply bool_decide_eq_false in Hcond. cbn [fst snd] in *.
    split; [done|]. split; [lia|done].
  - intros [[i durations] currentDuration] [HP Hcur] Hcond.
    apply bool_decide_eq_true in Hcond. cbn [fst snd] in *.
    unfold toDurations_body.
    pose proof (lookahead_bounds rhythm i Hcond) as Hlook. cbn zeta in Hlook.
    destruct Hlook as [Hlook Hrests].
    destruct (lookup_lt_is_Some_2 rhythm i Hcond) as [cell Hcell].
    assert (get Undefined rhythm i = cell) as Hget by (unfold get; by rewrite Hcell).
    case_decide as Honset.
    + rewrite Hget in Honset. clear Hget. subst cell.
      set (noteDuration := for_loop _ _ _ _) in *.
      replace (i + (noteDuration - 1) + 1) with (i + noteDuration) by lia.
      case_decide; cbn [fst snd].
      * split; [split; [|lra]|lia].
        apply (Hnote i _ noteDuration); [by apply Hrest|exact Hcell|exact Hlook|exact Hrests].
      * split; [split; [|done]|lia].
        apply (Hnote i _ noteDuration); [exact HP|exact Hcell|exact Hlook|exact Hrests].
    + rewrite Hget in Honset. cbn [fst snd]. replace (i + 1) with (S i) by lia.
      split; [split; [by eapply Hskip|lra]|lia].
  - cbn. split; [done|lra].
  - cbn. lia.
  - exists i, durations, currentDuration. done.
Qed.

Lemma filter_not_rest_app (durations : list (option Q)) (duration : option Q) :
  length (filter (λ d, is_rest d = false) (durations ++ [duration]))
  = length (filter (λ d, is_rest d = false) durations)
    + (if is_rest duration then 0 else 1).
Proof.
  rewrite filter_app, length_app, filter_cons, filter_nil.
  destruct (is_rest duration); by case_decide.
Qed.

(** X12. On a row whose width is neither 2 nor 3, for
    [0 < minDuration <= maxDuration] of a magnitude at which the sums and
    products of the scan stay far below the largest double, [toDurations]
    returns (the scan ends within the width of the row) and every duration
    it returns is a finite number: a rest, which is negative, or a note of
    at least [minDuration]; there is one note for every onset of the
    row. *)
Theorem toDurations_finite (fuel : nat) (ca : t) (row : Z)
    (minDuration maxDuration : Q) :
  (0 < minDuration)%Q → (minDuration <= maxDuration)%Q →
  (maxDuration * inject_Z (Z.of_nat (length (toRhythm ca row).1)) <= 2 ^ 1000)%Q →
  length (toRhythm ca row).1 ≠ 2 → length (toRhythm ca row).1 ≠ 3 →
  length (toRhythm ca row).1 < fuel →
  ∃ durations,
    (toDurations fuel ca row minDuration maxDuration).1 = Some durations
    ∧ Forall (λ duration, ∃ q, duration = Some q
                               ∧ ((q < 0)%Q ∨ (minDuration <= q)%Q))
        durations
    ∧ length (filter (λ duration, is_rest duration = false) durations)
      = onsets (toRhythm ca row).1.
Proof.
  intros Hmin Hrange _ H2 H3 Hfuel. unfold toDurations.
  destruct (toRhythm ca row) as [rhythm out]. cbn [fst snd] in *.
  destruct (toDurations_scan
              (λ i durations,
                 Forall (λ duration, ∃ q, duration = Some q
                                          ∧ ((q < 0)%Q ∨ (minDuration <= q)%Q))
                   durations
                 ∧ length (filter (λ duration, is_rest duration = false) durations)
                   = onsets (take i rhythm))
              fuel rhythm minDuration maxDuration Hmin Hfuel)
    as (i & durations & currentDuration & -> & [Hall Hcount] & Hend & Hcur).
  - split; [constructor|]. by rewrite take_0.
  - intros i durations rest [Hall Hcount] Hrest. split.
    + apply Forall_app. split; [done|].
      apply Forall_singleton. eexists. split; [done|]. left. lra.
    + rewrite filter_not_rest_app, Hcount. cbn [is_rest].
      rewrite bool_decide_eq_true_2 by lra. lia.
  - intros i durations noteDuration [Hall Hcount] Honset Hnote Hrests.
    pose proof (lookup_lt_Some _ _ _ Honset) as Hi.
    destruct (mapValue_at_least noteDuration (length rhythm / 2)
                minDuration maxDuration) as (q & Hq & Hle); [done|lia| | |].
    + intros Hhalf.
      assert (length rhythm = 2 * (length rhythm / 2) + length rhythm mod 2) as Hdiv
        by (apply Nat.div_mod_eq).
      pose proof (Nat.mod_upper_bound (length rhythm) 2). lia.
    + intros Hhalf.
      assert (length rhythm = 2 * (length rhythm / 2) + length rhythm mod 2) as Hdiv
        by (apply Nat.div_mod_eq).
      pose proof (Nat.mod_upper_bound (length rhythm) 2). lia.
    + rewrite Hq. split.
      * apply Forall_app. split; [done|]. apply Forall_singleton. exists q. auto.
      * rewrite filter_not_rest_app, Hcount, onsets_skip by (done || lia).
        cbn [is_rest]. rewrite bool_decide_eq_false_2 by lra. done.
  - intros i durations cell [Hall Hcount] Hcell Hrest. split; [done|].
    rewrite (onsets_take_S _ _ _ Hcell), decide_False by done. lia.
  - cbn [mbind option_bind fst]. rewrite take_ge in Hcount by done.
    eexists. split; [done|].
    case_decide; [|done]. split.
    + apply Forall_app. split; [done|].
      apply Forall_singleton. eexists. split; [done|]. left. lra.
    + rewrite filter_not_rest_app, Hcount. cbn [is_rest].
      rewrite bool_decide_eq_true_2 by lra. lia.
Qed.

Lemma toDurations_finite_witness :
  ∃ durations,
    (toDurations 9 (new 30 8 None) (-1) (1 # 4) 2).1 = Some durations
    ∧ Forall (λ duration, ∃ q, duration = Some q
                               ∧ ((q < 0)%Q ∨ (1 # 4 <= q)%Q))
        durations
    ∧ length (filter (λ duration, is_rest duration = false) durations) = 1.
Proof.
  apply toDurations_finite; [done|done|by vm_compute|vm_compute; lia..].
Defined.

(** X13. On a row of width 2 or 3 the input range of [mapValue] is
    [1 .. floor(width / 2) = 1] and its division is by zero. For a positive
    [minDuration] of a magnitude at which the rests stay far below the
    largest double, [toDurations] returns, and what it returns holds
    negative rests and numbers that are not finite, one such number for
    every onset of the row. *)
Theorem toDurations_narrow_row (fuel : nat) (ca : t) (row : Z)
    (minDuration maxDuration : Q) :
  (0 < minDuration)%Q → (minDuration <= 2 ^ 1000)%Q →
  length (toRhythm ca row).1 = 2 ∨ length (toRhythm ca row).1 = 3 →
  length (toRhythm ca row).1 < fuel →
  ∃ durations,
    (toDurations fuel ca row minDuration maxDuration).1 = Some durations
    ∧ Forall (λ duration, duration = None
                          ∨ ∃ q, duration = Some q ∧ (q < 0)%Q) durations
    ∧ length (filter (λ duration, duration = None) durations)
      = onsets (toRhythm ca row).1.
Proof.
  intros Hmin _ Hwidth Hfuel. unfold toDurations.
  destruct (toRhythm ca row) as [rhythm out]. cbn [fst snd] in *.
  assert (length rhythm / 2 = 1) as Hhalf.
  { destruct Hwidth as [-> | ->]; done. }
  assert (∀ (durations : list (option Q)) duration,
            length (filter (λ d, d = None) (durations ++ [duration]))
            = length (filter (λ d, d = None) durations)
              + (if duration is None then 1 else 0)) as Hfilter.
  { intros durations duration.
    rewrite filter_app, length_app, filter_cons, filter_nil.
    destruct duration; by case_decide. }
  destruct (toDurations_scan
              (λ i durations,
                 Forall (λ duration, duration = None
                                     ∨ ∃ q, duration = Some q ∧ (q < 0)%Q)
                   durations
                 ∧ length (filter (λ duration, duration = None) durations)
                   = onsets (take i rhythm))
              fuel rhythm minDuration maxDuration Hmin Hfuel)
    as (i & durations & currentDuration & -> & [Hall Hcount] & Hend & Hcur).
  - split; [constructor|]. by rewrite take_0.
  - intros i durations rest [Hall Hcount] Hrest. split.
    + apply Forall_app. split; [done|].
      apply Forall_singleton. right. eexists. split; [done|]. lra.
    + rewrite Hfilter, Hcount. lia.
  - intros i durations noteDuration [Hall Hcount] Honset Hnote Hrests.
    rewrite Hhalf, mapValue_undefined. split.
    + apply Forall_app. split; [done|]. apply Forall_singleton. by left.
    + by rewrite Hfilter, Hcount, onsets_skip by (done || lia).
  - intros i durations cell [Hall Hcount] Hcell Hrest. split; [done|].
    rewrite (onsets_take_S _ _ _ Hcell), decide_False by done. lia.
  - cbn [mbind option_bind fst]. rewrite take_ge in Hcount by done.
    eexists. split; [done|].
    case_decide; [|done]. split.
    + apply Forall_app. split; [done|].
      apply Forall_singleton. right. eexists. split; [done|]. lra.
    + rewrite Hfilter, Hcount. lia.
Qed.

Lemma toDurations_narrow_row_witness :
  ∃ durations,
    (toDurations 4 (new 30 3 None) (-1) (1 # 4) 2).1 = Some durations
    ∧ Forall (λ duration, duration = None
                          ∨ ∃ q, duration = Some q ∧ (q < 0)%Q) durations
    ∧ length (filter (λ duration, duration = None) durations) = 1.
Proof.
  apply toDurations_narrow_row; [done|by vm_compute|right; by vm_compute|vm_compute; lia].
Defined.
End automaton_more.

Section automaton_ring.
Import CellularAutomata.

Lemma ring_index_shift (i j k W : nat) :
  0 < W → ((i + j) mod W + k) mod W = ((i + k) mod W + j) mod W.
Proof.
  intros HW.
  rewrite !Nat.Div0.add_mod_idemp_l. f_equal. lia.
Qed.

(** X9. The row is a ring without a first cell: when the current state of one
    automaton is that of another rotated by [k] cells, and both have the
    same table and width, then the row that [evolve] returns for the one is
    the row it returns for the other, rotated by [k] cells. *)
Theorem evolve_commutes_with_rotation (ca ca' : t) (k : nat) :
  ruleTable ca' = ruleTable ca → size ca' = size ca →
  (∀ i, i < size ca →
     currentState ca' !! i = currentState ca !! ((i + k) mod size ca)) →
  ∀ i, i < size ca →
    (evolve ca').1 !! i = (evolve ca).1 !! ((i + k) mod size ca).
Proof.
  intros Htable Hsize Hrotated i Hi.
  destruct (evolve_cells ca) as [_ Hcells].
  destruct (evolve_cells ca') as [_ Hcells'].
  assert ((i + k) mod size ca < size ca) as Hik by (apply Nat.mod_upper_bound; lia).
  rewrite Hcells' by lia. rewrite Hcells by done. f_equal.
  unfold next_cell, getNextCellState, get. rewrite Htable, Hsize.
  assert (∀ j, currentState ca' !! ((i + j) mod size ca)
               = currentState ca !! (((i + k) mod size ca + j) mod size ca)) as Hcell.
  { intros j. rewrite Hrotated by (apply Nat.mod_upper_bound; lia).
    f_equal. apply ring_index_shift. lia. }
  assert (currentState ca' !! i = currentState ca !! ((i + k) mod size ca)) as Hcenter
    by (by apply Hrotated).
  replace (i + size ca - 1) with (i + (size ca - 1)) by lia.
  replace ((i + k) mod size ca + size ca - 1)
    with ((i + k) mod size ca + (size ca - 1)) by lia.
  by rewrite !Hcell, Hcenter.
Qed.

Lemma evolve_commutes_with_rotation_witness :
  (evolve (new 30 4 (Some [Num 0; Num 0; Num 1; Num 0]))).1 !! 0
  = (evolve (new 30 4 (Some [Num 0; Num 1; Num 0; Num 0]))).1 !! 3.
Proof.
  apply (evolve_commutes_with_rotation
           (new 30 4 (Some [Num 0; Num 1; Num 0; Num 0]))
           (new 30 4 (Some [Num 0; Num 0; Num 1; Num 0])) 3); [done|done| |cbn; lia].
  intros i Hi. cbn in Hi.
  destruct i as [|[|[|[|i]]]]; [done..|lia].
Defined.
End automaton_ring.

(** ** MarkovChain *)

Section markov_more.
Import MarkovChain.

(** *** What training records *)

Lemma train_body_get (order : nat) (sequence : list value) (i : nat)
    (table : list (list value * list value)) (key : list value) :
  ∃ table',
    train_body order sequence i table = Continue table'
    ∧ Map_get key table'
      = if decide (JSON_stringify (slice i (i + order) sequence) = key)
        then Some (default [] (Map_get key table)
                   ++ [get Undefined sequence (i + order)])
        else Map_get key table.
Proof.
  unfold train_body. eexists. split; [done|].
  rewrite Map_get_alter. case_decide as Hkey; [|].
  - subst key. destruct (Map_has _ table) eqn:Hhas.
    + apply Map_has_get in Hhas as [next ->]. done.
    + rewrite Map_get_set, decide_True by done.
      apply Map_has_false in Hhas. by rewrite Hhas.
  - destruct (Map_has _ table); [done|].
    by rewrite Map_get_set, decide_False.
Qed.

Lemma train_loop_get (order : nat) (sequence : list value) (n : nat)
    (table : list (list value * list value)) (key : list value) :
  Map_get key (for_loop n 0 (train_body order sequence) table)
  = let observed :=
      (λ i, get Undefined sequence (i + order))
      <$> filter (λ i, JSON_stringify (slice i (i + order) sequence) = key)
            (seq 0 n) in
    if decide (observed = []) then Map_get key table
    else Some (default [] (Map_get key table) ++ observed).
Proof.
  apply (for_loop_ind
           (λ i table',
              Map_get key table'
              = let observed :=
                  (λ i, get Undefined sequence (i + order))
                  <$> filter (λ i, JSON_stringify (slice i (i + order) sequence) = key)
                        (seq 0 i) in
                if decide (observed = []) then Map_get key table
                else Some (default [] (Map_get key table) ++ observed))).
  - done.
  - intros i table' _ IH.
    destruct (train_body_get order sequence i table' key) as (table'' & -> & ->).
    rewrite IH. cbn zeta. rewrite seq_S, filter_app, fmap_app. cbn [seq Nat.add].
    rewrite filter_cons, filter_nil.
    set (observed := _ <$> filter _ (seq 0 i)).
    case_decide as Hkey.
    + cbn [fmap list_fmap].
      rewrite (decide_False (P := observed ++ _ = [])) by (by destruct observed).
      case_decide as Hnil.
      * rewrite Hnil. done.
      * cbn [default from_option id]. by rewrite app_assoc.
    + cbn [fmap list_fmap]. by rewrite app_nil_r.
  - intros table' Htable. by rewrite Nat.add_0_l in Htable.
Qed.

Lemma train_table_get (m : t) (sequence key : list value) :
  order m < length sequence →
  let observed :=
    (λ i, get Undefined sequence (i + order m))
    <$> filter (λ i, JSON_stringify (slice i (i + order m) sequence) = key)
          (seq 0 (length sequence - order m)) in
  Map_get key (transitionTable (train m sequence).1)
  = if decide (observed = []) then Map_get key (transitionTable m)
    else Some (default [] (Map_get key (transitionTable m)) ++ observed).
Proof.
  intros Hlong. unfold train. rewrite decide_False by lia.
  cbn [fst transitionTable].
  replace (S (length sequence - order m - 1)) with (length sequence - order m) by lia.
  apply train_loop_get.
Qed.

(** X18. What [train] records under a context: the successors that the table
    had before, followed by the symbols that follow the occurrences of the
    context in the sequence, in the order of the occurrences; a context that
    does not occur keeps its entry, or its absence. *)
Theorem train_records_transitions (m : t) (sequence key : list value) :
  order m < length sequence →
  let observed :=
    (λ i, get Undefined sequence (i + order m))
    <$> filter (λ i, JSON_stringify (slice i (i + order m) sequence) = key)
          (seq 0 (length sequence - order m)) in
  Map_get key (transitionTable (train m sequence).1)
  = if decide (observed = []) then Map_get key (transitionTable m)
    else Some (default [] (Map_get key (transitionTable m)) ++ observed).
Proof. apply train_table_get. Qed.

Lemma train_records_transitions_witness :
  Map_get [Num 60] (transitionTable (train (new 1) [Num 60; Num 62; Num 60; Num 64]).1)
  = Some [Num 62; Num 64].
Proof.
  rewrite (train_records_transitions (new 1) [Num 60; Num 62; Num 60; Num 64] [Num 60]);
    [done|cbn; lia].
Defined.

Lemma JSON_stringify_length (a : list value) : length (JSON_stringify a) = length a.
Proof. apply length_fmap. Qed.

Lemma trained_invariants (m : t) :
  trained m →
  starting_states_wf m
  ∧ (transitionTable m ≠ [] → startingStates m ≠ [])
  ∧ ∀ key next, Map_get key (transitionTable m) = Some next →
      length key = order m ∧ next ≠ [].
Proof.
  induction 1 as [order|m sequence Htrained (Hwf & Hpool & IH)].
  - split; [apply new_wf|]. split; done.
  - split; [by apply train_preserves_wf|].
    destruct (decide (length sequence ≤ MarkovChain.order m)) as [Hshort|Hlong].
    { unfold train. rewrite decide_True by done. done. }
    split.
    { intros _. rewrite train_starting_states by lia. by destruct (startingStates m). }
    intros key next. rewrite train_table_get by lia. cbn zeta.
    assert ((train m sequence).1.(MarkovChain.order) = MarkovChain.order m) as ->.
    { unfold train. by rewrite decide_False by lia. }
    set (observed := _ <$> _). case_decide as Hobserved; [apply IH|].
    intros [= <-]. split.
    + destruct (filter _ _) as [|i rest] eqn:Hfilter; [done|].
      assert (i ∈ filter (λ i, JSON_stringify
                                 (slice i (i + MarkovChain.order m) sequence) = key)
                    (seq 0 (length sequence - MarkovChain.order m))) as Hi
        by (rewrite Hfilter; apply list_elem_of_here).
      apply list_elem_of_filter in Hi as [<- Hi].
      apply elem_of_seq in Hi.
      rewrite JSON_stringify_length. unfold slice.
      rewrite length_take, length_drop. lia.
    + destruct observed; [done|]. by destruct (default _ _).
Qed.

(** X19. In a model that only [train] has written to, every starting state
    and every context of the table has [order] symbols, every context has
    at least one successor, and a table that is not empty comes with a
    starting state. *)
Theorem trained_table_contexts (m : t) :
  trained m →
  starting_states_wf m
  ∧ (transitionTable m ≠ [] → startingStates m ≠ [])
  ∧ ∀ key next, Map_get key (transitionTable m) = Some next →
      length key = order m ∧ next ≠ [].
Proof. apply trained_invariants. Qed.

Lemma trained_table_contexts_witness :
  starting_states_wf (train (new 2) [Num 60; Num 62; Num 64]).1.
Proof.
  apply (trained_table_contexts (train (new 2) [Num 60; Num 62; Num 64]).1).
  apply trained_train, trained_new.
Defined.

(** *** The walk of generate *)

Lemma walk_step_ok_app (m : t) (sequence : list value) (v : value) (i : nat) :
  i < length sequence →
  walk_step_ok m (sequence ++ [v]) i ↔ walk_step_ok m sequence i.
Proof.
  intros Hi. unfold walk_step_ok.
  assert (slice (i - order m) i (sequence ++ [v]) = slice (i - order m) i sequence)
    as ->.
  { unfold slice. rewrite drop_app_le by lia. rewrite take_app_le; [done|].
    rewrite length_drop. lia. }
  by rewrite lookup_app_l by done.
Qed.

Lemma walk_context (m : t) (sequence : list value) (v : value) :
  order m ≤ length sequence →
  slice (length sequence - order m) (length sequence) (sequence ++ [v])
  = slice_from (Z.of_nat (length sequence) - Z.of_nat (order m)) sequence.
Proof.
  intros Hlen. unfold slice, slice_from.
  destruct (Z.ltb_spec (Z.of_nat (length sequence) - Z.of_nat (order m)) 0); [lia|].
  replace (Z.to_nat (Z.of_nat (length sequence) - Z.of_nat (order m)))
    with (length sequence - order m) by lia.
  rewrite drop_app_le by lia. rewrite take_app_le by (rewrite length_drop; lia).
  apply take_ge. rewrite length_drop. lia.
Qed.

Lemma generate_loop_walks (fuel : nat) (random : nat → Q) (m : t)
    (length_ : nat) (seed : list value) (calls : nat) :
  trained m → startingStates m ≠ [] →
  (∀ k, 0 <= random k ∧ random k < 1)%Q →
  length seed = order m → length_ < fuel →
  ∃ sequence calls',
    while_loop fuel
      (λ '(sequence, _, _), bool_decide (length sequence < length_))
      (generate_body random m) (seed, [], calls)
    = Some (sequence, [], calls')
    ∧ take (order m) sequence = seed
    ∧ ∀ i, order m ≤ i < length sequence → walk_step_ok m sequence i.
Proof.
  intros Htrained Hpool Hrandom Hseed Hfuel.
  destruct (trained_invariants m Htrained) as (Hwf & _ & Htable).
  assert (0 < length (startingStates m)) as Hn
    by (destruct (startingStates m); [done|cbn; lia]).
  destruct (while_loop_total
              (λ st : list value * list console_event * nat, length_ - length st.1.1)
              (λ st, st.1.2 = [] ∧ take (order m) st.1.1 = seed
                     ∧ order m ≤ length st.1.1
                     ∧ ∀ i, order m ≤ i < length st.1.1 → walk_step_ok m st.1.1 i)
              (λ st, st.1.2 = [] ∧ take (order m) st.1.1 = seed
                     ∧ ∀ i, order m ≤ i < length st.1.1 → walk_step_ok m st.1.1 i)
              (λ '(sequence, _, _), bool_decide (length sequence < length_))
              (generate_body random m))
    with (fuel := fuel) (s := (seed, @nil console_event, calls))
    as ([[sequence out] calls'] & Hrun & Hout & Htake & Hwalk).
  - intros [[sequence out] k] (Hout & Htake & _ & Hwalk) _. done.
  - intros [[sequence out] k] (Hout & Htake & Hlen & Hwalk) Hcond.
    apply bool_decide_eq_true in Hcond. cbn [fst snd] in *.
    assert (∀ v, (∀ i, order m ≤ i < length sequence → walk_step_ok m (sequence ++ [v]) i))
      as Hold.
    { intros v i Hi. apply walk_step_ok_app; [lia|]. by apply Hwalk. }
    unfold generate_body.
    destruct (Map_get _ (transitionTable m)) as [possibleNextValues|] eqn:Hget.
    + cbn [fst snd]. rewrite length_app. cbn [length].
      split; [|lia]. split; [done|]. split; [by rewrite take_app_le by lia|].
      split; [lia|]. intros i Hi.
      destruct (decide (i = length sequence)) as [->|Hne]; [|apply Hold; lia].
      unfold walk_step_ok. rewrite walk_context, Hget by done.
      destruct (Htable _ _ Hget) as [_ Hnext].
      destruct (Hrandom k) as [H0 H1].
      assert (0 < length possibleNextValues) as Hpos
        by (destruct possibleNextValues; [done|cbn; lia]).
      pose proof (random_index_lt (random k) _ H0 H1 Hpos) as Hidx.
      apply lookup_lt_is_Some in Hidx as [v Hv].
      exists v. unfold get. rewrite Hv.
      split; [apply list_lookup_middle; lia|by eapply list_elem_of_lookup_2].
    + rewrite decide_True by done. cbn [fst snd]. rewrite length_app. cbn [length].
      split; [|lia]. split; [done|]. split; [by rewrite take_app_le by lia|].
      split; [lia|]. intros i Hi.
      destruct (decide (i = length sequence)) as [->|Hne]; [|apply Hold; lia].
      unfold walk_step_ok. rewrite walk_context, Hget by done.
      destruct (Hrandom k) as [H0 H1].
      pose proof (random_index_lt (random k) _ H0 H1 Hn) as Hidx.
      apply lookup_lt_is_Some in Hidx as [state Hstate].
      exists state. unfold get at 2. rewrite Hstate.
      split; [by eapply list_elem_of_lookup_2|apply list_lookup_middle; lia].
  - cbn [fst snd]. split; [done|]. split; [apply take_ge; lia|].
    split; [lia|]. intros i Hi. lia.
  - cbn. lia.
  - cbn [fst snd] in *. subst out. by exists sequence, calls'.
Qed.

(** X20. On a trained model [generate] returns, for every start context and
    every outcome of [Math.random()] in [[0, 1)], without writing to the
    console, a walk through the table: it begins with the start context
    when that has [order] symbols and with a starting state otherwise, and
    every later symbol is a successor that the table has for the [order]
    symbols before it or, when the table has no entry for them, the first
    symbol of a starting state. *)
Theorem generate_walks_the_table (fuel : nat) (random : nat → Q) (m : t)
    (length_ : nat) (startState : option (list value)) :
  trained m → transitionTable m ≠ [] →
  (∀ k, 0 <= random k ∧ random k < 1)%Q → length_ < fuel →
  ∃ sequence,
    generate fuel random m length_ startState = Some (sequence, [])
    ∧ (∀ s, startState = Some s → length s = order m →
         take (order m) sequence = s)
    ∧ ((∀ s, startState = Some s → length s ≠ order m) →
         take (order m) sequence ∈ startingStates m)
    ∧ ∀ i, order m ≤ i < length sequence → walk_step_ok m sequence i.
Proof.
  intros Htrained Htable Hrandom Hfuel.
  destruct (trained_invariants m Htrained) as (Hwf & Hpool & _).
  specialize (Hpool Htable).
  assert (0 < length (startingStates m)) as Hn
    by (destruct (startingStates m); [done|cbn; lia]).
  destruct (Hrandom 0) as [H0 H1].
  pose proof (random_index_lt (random 0) _ H0 H1 Hn) as Hidx.
  apply lookup_lt_is_Some in Hidx as [state Hstate].
  assert (length state = order m) as Hlen
    by (eapply (Forall_lookup_1 _ _ _ _ Hwf Hstate)).
  assert (state ∈ startingStates m) as Hin by (by eapply list_elem_of_lookup_2).
  unfold generate. rewrite decide_False by (by destruct (transitionTable m)).
  assert (get [] (startingStates m)
            (random_index (random 0) (length (startingStates m))) = state) as Hget
    by (unfold get; by rewrite Hstate).
  cbn zeta. rewrite !Hget.
  rewrite (decide_True (P := 0 < length (startingStates m))) by done.
  destruct (generate_loop_walks fuel random m length_ state 1
              Htrained Hpool Hrandom Hlen Hfuel)
    as (sequence & calls' & Hrun & Htake & Hwalk).
  destruct startState as [s|]; [case_decide as Hs|].
  - destruct (generate_loop_walks fuel random m length_ s 0
                Htrained Hpool Hrandom Hs Hfuel)
      as (sequence' & calls'' & Hrun' & Htake' & Hwalk').
    exists sequence'. rewrite Hrun'. cbn. split; [done|]. split; [by intros ? [= <-]|].
    split; [|done]. intros Hno. by destruct (Hno s).
  - exists sequence. rewrite Hrun. cbn. split; [done|].
    split; [by intros ? [= <-]|]. split; [|done]. intros _. by rewrite Htake.
  - exists sequence. rewrite Hrun. cbn. split; [done|].
    split; [done|]. split; [|done]. intros _. by rewrite Htake.
Qed.

Lemma generate_walks_the_table_witness :
  ∃ sequence,
    generate 9 (λ _, 1 # 2) (train (new 1) [Num 60; Num 62; Num 64]).1 8 None
    = Some (sequence, []).
Proof.
  destruct (generate_walks_the_table 9 (λ _, 1 # 2)
              (train (new 1) [Num 60; Num 62; Num 64]).1 8 None)
    as (sequence & Hrun & _).
  - apply trained_train, trained_new.
  - by vm_compute.
  - intros _. by vm_compute.
  - lia.
  - by exists sequence.
Defined.

(** *** The states and the entries of the probability matrix *)

Lemma sort_le_total : Total sort_le.
Proof.
  intros a b. destruct a, b; cbn; try tauto; lia.
Qed.

Lemma sort_le_trans : Transitive sort_le.
Proof.
  intros a b c. destruct a, b, c; cbn; try tauto; lia.
Qed.

(** X21. The states that [getProbabilityMatrix] returns are the symbols that
    the table has as first symbol of a context or as a successor, each
    once, in ascending order with [undefined] last. *)
Theorem probability_matrix_states (m : t) :
  order m = 1 →
  ∃ states matrix,
    getProbabilityMatrix m = (Some (states, matrix), [])
    ∧ NoDup states
    ∧ StronglySorted sort_le states
    ∧ ∀ v, v ∈ states ↔
        ∃ key nextValues, (key, nextValues) ∈ transitionTable m
          ∧ (v = get Undefined key 0 ∨ v ∈ nextValues).
Proof.
  intros Horder. unfold getProbabilityMatrix.
  rewrite decide_False by (by intros []).
  eexists _, _. split; [reflexivity|].
  destruct (collect_states_spec (transitionTable m)) as [Hnodup Hcollect].
  split; [by rewrite merge_sort_Permutation|].
  split; [apply (StronglySorted_merge_sort _ (Transitive0 := sort_le_trans) (Total0 := sort_le_total))|].
  intros v. rewrite merge_sort_Permutation. split.
  - intros [[]%elem_of_nil|Hv]%collect_states_only. done.
  - intros (key & nextValues & Hin & Hv).
    destruct (Hcollect key nextValues Hin) as [Hfirst Hrest].
    destruct Hv as [->|Hv]; [exact Hfirst|by apply Hrest].
Qed.

Lemma probability_matrix_states_witness :
  ∃ states matrix,
    getProbabilityMatrix (train (new 1) [Num 64; Num 60; Num 62]).1
    = (Some (states, matrix), [])
    ∧ NoDup states.
Proof.
  destruct (probability_matrix_states (train (new 1) [Num 64; Num 60; Num 62]).1 eq_refl)
    as (states & matrix & Hcall & Hnodup & _).
  by exists states, matrix.
Defined.

Lemma counted_inner (fromState s t' : value) (nextValues : list value)
    (entries : value → value → Q) :
  (fold_left
     (λ entries toState,
        alter_entry (λ count, (count + 1)%Q) fromState toState entries)
     nextValues entries s t'
   == entries s t'
      + inject_Z (Z.of_nat (if decide (fromState = s)
                            then count_occ value_eq_dec nextValues t' else 0)))%Q.
Proof.
  revert entries. induction nextValues as [|toState nextValues IH]; intros entries.
  - cbn [fold_left count_occ]. destruct (decide _); cbn; ring.
  - cbn [fold_left count_occ]. rewrite IH. unfold alter_entry at 1.
    destruct (decide (fromState = s)) as [->|Hne].
    + destruct (value_eq_dec toState t') as [->|Hne'].
      * rewrite decide_True by done.
        rewrite Nat2Z.inj_succ, <- Z.add_1_l, inject_Z_plus. ring.
      * rewrite decide_False by (by intros [_ ?]). ring.
    + rewrite decide_False by (by intros [? _]). ring.
Qed.

Lemma counted_count (table : list (list value * list value))
    (entries : value → value → Q) (s t' : value) :
  (counted table entries s t'
   == entries s t'
      + inject_Z (Z.of_nat (count_occ value_eq_dec (transitions_from table s) t')))%Q.
Proof.
  unfold counted, for_of. revert entries.
  induction table as [|[stateStr nextValues] table IH]; intros entries.
  - cbn. ring.
  - cbn [fold_left]. rewrite IH, transitions_from_cons, count_occ_app.
    rewrite counted_inner.
    destruct (decide (get Undefined (JSON_parse stateStr) 0 = s)) as [Heq|Hne].
    + rewrite Nat2Z.inj_add, inject_Z_plus. by rewrite Qplus_assoc.
    + cbn [count_occ Nat.add]. change (inject_Z (Z.of_nat 0)) with 0%Q.
      by rewrite Qplus_0_r.
Qed.

Lemma probability_matrix_entry (m : t) :
  order m = 1 →
  ∃ states matrix,
    getProbabilityMatrix m = (Some (states, matrix), [])
    ∧ ∀ fromState toState,
        fromState ∈ states → toState ∈ states →
        transitions_from (transitionTable m) fromState ≠ [] →
        ∃ row probability,
          Map_get fromState matrix = Some row
          ∧ Map_get toState row = Some probability
          ∧ (probability
             == inject_Z (Z.of_nat (count_occ value_eq_dec
                                      (transitions_from (transitionTable m) fromState)
                                      toState))
                / inject_Z (Z.of_nat (length (transitions_from (transitionTable m)
                                                fromState))))%Q.
Proof.
  intros Horder. unfold getProbabilityMatrix.
  rewrite decide_False by (by intros []).
  set (table := transitionTable m) in *.
  set (states := merge_sort sort_le (collect_states table)).
  destruct (collect_states_spec table) as [Hnodup Hcollect].
  assert (states ≡ₚ collect_states table) as Hperm
    by apply merge_sort_Permutation.
  assert (NoDup states) as Hstates by (by rewrite Hperm).
  assert (∀ stateStr nextValues, (stateStr, nextValues) ∈ table →
            ∀ v, v ∈ nextValues → v ∈ states) as Hnext.
  { intros stateStr nextValues Hin v Hv. rewrite Hperm.
    by apply (Hcollect stateStr nextValues). }
  cbn zeta. rewrite zero_matrix_eq, count_transitions_matrix_of by done.
  unfold normalize. rewrite normalize_rows_matrix_of by done.
  set (count := counted table (λ _ _, 0%Q)).
  eexists _, _. split; [reflexivity|].
  intros fromState toState Hs Ht Hobserved.
  eexists _, _. split; [by apply Map_get_matrix_of|].
  split.
  { unfold matrix_row. rewrite (Map_get_fmap (λ t', _)). by rewrite decide_True. }
  cbn zeta.
  set (total := row_total (matrix_row states count fromState)).
  assert (total == inject_Z (Z.of_nat (length (transitions_from table fromState))))%Q
    as Htotal.
  { subst total. rewrite row_total_Qsum, matrix_row_values.
    subst count. rewrite (counted_total states table _ fromState Hstates Hnext).
    rewrite Qsum_zero. ring. }
  assert (0 < total)%Q as Hpos.
  { rewrite Htotal. change 0%Q with (inject_Z 0). rewrite <- Zlt_Qlt.
    destruct (transitions_from table fromState); [done|cbn; lia]. }
  rewrite decide_True by done. change (row_total _) with total.
  rewrite Htotal. subst count. rewrite counted_count. by rewrite Qplus_0_l.
Qed.

(** X22. The entries of the probability matrix are the observed frequencies:
    in the row of a state with an observed transition, the entry of a state
    is the number of transitions to it divided by the number of transitions
    from the row's state. *)
Theorem probability_matrix_frequencies (m : t) :
  order m = 1 →
  ∃ states matrix,
    getProbabilityMatrix m = (Some (states, matrix), [])
    ∧ ∀ fromState toState,
        fromState ∈ states → toState ∈ states →
        transitions_from (transitionTable m) fromState ≠ [] →
        ∃ row probability,
          Map_get fromState matrix = Some row
          ∧ Map_get toState row = Some probability
          ∧ (probability
             == inject_Z (Z.of_nat (count_occ value_eq_dec
                                      (transitions_from (transitionTable m) fromState)
                                      toState))
                / inject_Z (Z.of_nat (length (transitions_from (transitionTable m)
                                                fromState))))%Q.
Proof. apply probability_matrix_entry. Qed.

Lemma probability_matrix_frequencies_witness :
  ∃ row probability,
    ((getProbabilityMatrix
        (train (new 1) [Num 60; Num 62; Num 64; Num 62; Num 60]).1).1
     ≫= λ r, Map_get (Num 62) r.2) = Some row
    ∧ Map_get (Num 64) row = Some probability
    ∧ (probability == 1 # 2)%Q.
Proof.
  destruct (probability_matrix_frequencies
              (train (new 1) [Num 60; Num 62; Num 64; Num 62; Num 60]).1 eq_refl)
    as (states & matrix & Hcall & Hentries).
  injection Hcall as <- <-.
  destruct (Hentries (Num 62) (Num 64)) as (row & probability & Hrow & Hp & Heq).
  - vm_compute. apply list_elem_of_further, list_elem_of_here.
  - vm_compute. do 2 apply list_elem_of_further. apply list_elem_of_here.
  - by vm_compute.
  - exists row, probability. split; [exact Hrow|]. split; [exact Hp|].
    rewrite Heq. by vm_compute.
Defined.

(** *** Themes *)

Lemma theme_writes (theme_notes baseSequence : list value) (position k : nat) :
  position + k ≤ length baseSequence → k ≤ length theme_notes →
  let written :=
    for_loop k 0
      (λ j baseSequence,
         Continue (JS.set Undefined baseSequence (position + j)
                     (get Undefined theme_notes j)))
      baseSequence in
  length written = length baseSequence
  ∧ ∀ p, written !! p
         = if decide (position ≤ p < position + k) then theme_notes !! (p - position)
           else baseSequence !! p.
Proof.
  intros Hfit Hk. cbn zeta.
  apply (for_loop_ind
           (λ j written,
              length written = length baseSequence
              ∧ ∀ p, written !! p
                     = if decide (position ≤ p < position + j)
                       then theme_notes !! (p - position)
                       else baseSequence !! p)).
  - split; [done|]. intros p. by rewrite decide_False by lia.
  - intros j written Hj [Hlen Hget]. unfold JS.set.
    rewrite decide_True by lia. split; [by rewrite length_insert|].
    intros p. destruct (decide (p = position + j)) as [->|Hne].
    + rewrite list_lookup_insert_eq by lia. rewrite decide_True by lia.
      replace (position + j - position) with j by lia.
      unfold get. destruct (lookup_lt_is_Some_2 theme_notes j) as [v ->]; [lia|done].
    + rewrite list_lookup_insert_ne by done. rewrite Hget.
      destruct (decide (position ≤ p < position + j)).
      * by rewrite decide_True by lia.
      * by rewrite decide_False by lia.
  - intros written. by rewrite Nat.add_0_l.
Qed.

Lemma theme_round (themes : list theme) (themePositions : list nat)
    (i : nat) (baseSequence : list value) :
  ∃ written,
    generateWithThemes_body themes themePositions i baseSequence = Continue written
    ∧ length written = length baseSequence
    ∧ ∀ p, written !! p
           = match themes !! i ≫= notes with
             | Some theme_notes =>
                 if decide (get 0 themePositions i ≤ p
                            < get 0 themePositions i + length theme_notes
                            ∧ p < length baseSequence)
                 then theme_notes !! (p - get 0 themePositions i)
                 else baseSequence !! p
             | None => baseSequence !! p
             end.
Proof.
  unfold generateWithThemes_body.
  destruct (themes !! i) as [theme|]; cbn [mbind option_bind]; [|by eexists].
  set (position := get 0 themePositions i).
  destruct (notes theme) as [theme_notes|].
  - case_decide as Hposition.
    + eexists. split; [done|]. split; [done|]. intros p.
      case_decide as Hp; [|done]. rewrite !lookup_ge_None_2; [done|lia|lia].
    + destruct theme_notes as [|note theme_notes].
      * eexists. split; [done|]. split; [done|]. intros p.
        rewrite decide_False; [done|]. cbn. lia.
      * set (theme_notes' := note :: theme_notes).
        destruct (theme_writes theme_notes' baseSequence position
                    (Nat.min (length theme_notes') (length baseSequence - position)))
          as [Hlen Hget]; [lia|lia|].
        eexists. split; [done|]. split; [done|]. intros p. rewrite Hget.
        destruct (decide (position ≤ p < position + length theme_notes'
                          ∧ p < length baseSequence)).
        -- by rewrite decide_True by lia.
        -- by rewrite decide_False by lia.
  - case_decide; by eexists.
Qed.

Lemma themePositions_get (n segmentSize i : nat) :
  i < n →
  get 0
    (for_loop n 0
       (λ i themePositions, Continue (themePositions ++ [i * segmentSize])) [])
    i
  = i * segmentSize.
Proof.
  intros Hi.
  apply (for_loop_ind
           (λ k themePositions, themePositions = (λ i, i * segmentSize) <$> seq 0 k)
           (λ themePositions, get 0 themePositions i = i * segmentSize)).
  - done.
  - intros k themePositions _ ->. by rewrite seq_S, fmap_app.
  - intros themePositions ->. unfold get.
    rewrite list_lookup_fmap, lookup_seq_lt by lia. done.
Qed.

Lemma generateWithThemes_themed (fuel : nat) (random : nat → Q) (m : t)
    (length_ : nat) (themes : list theme) :
  themes ≠ [] →
  generateWithThemes fuel random m length_ (Some themes)
  = '(baseSequence, out) ← generate fuel random m length_ None;
    Some (for_loop (length themes) 0
            (generateWithThemes_body themes
               (for_loop (length themes) 0
                  (λ i themePositions,
                     Continue (themePositions ++ [i * (length_ / length themes)]))
                  []))
            baseSequence,
          out).
Proof. by destruct themes. Qed.

(** X24. With at least one theme [generateWithThemes] returns the sequence of
    [generate] with notes of the themes written over it: the length and the
    console output are those of [generate]; a theme that is no longer than a
    segment and fits into the sequence stands in full at the start of its
    segment; and a position that no theme reaches keeps its symbol. *)
Theorem generateWithThemes_places_themes (fuel : nat) (random : nat → Q) (m : t)
    (length_ : nat) (themes : list theme) (baseSequence : list value)
    (out : list console_event) :
  themes ≠ [] →
  generate fuel random m length_ None = Some (baseSequence, out) →
  let segmentSize := length_ / length themes in
  ∃ themed,
    generateWithThemes fuel random m length_ (Some themes) = Some (themed, out)
    ∧ length themed = length baseSequence
    ∧ (∀ i theme theme_notes,
         themes !! i = Some theme → notes theme = Some theme_notes →
         length theme_notes ≤ segmentSize →
         i * segmentSize + length theme_notes ≤ length baseSequence →
         slice (i * segmentSize) (i * segmentSize + length theme_notes) themed
         = theme_notes)
    ∧ (∀ p,
         (∀ i theme theme_notes,
            themes !! i = Some theme → notes theme = Some theme_notes →
            ¬ (i * segmentSize ≤ p < i * segmentSize + length theme_notes)) →
         themed !! p = baseSequence !! p).
Proof.
  intros Hthemes Hbase segmentSize.
  rewrite generateWithThemes_themed, Hbase by done.
  cbn [mbind option_bind]. fold segmentSize.
  set (themePositions := for_loop (length themes) 0 _ []).
  eexists. split; [reflexivity|].
  assert (∀ themed,
            (length themed = length baseSequence
             ∧ (∀ i theme theme_notes,
                  i < length themes →
                  themes !! i = Some theme → notes theme = Some theme_notes →
                  length theme_notes ≤ segmentSize →
                  i * segmentSize + length theme_notes ≤ length baseSequence →
                  ∀ j, j < length theme_notes →
                       themed !! (i * segmentSize + j) = theme_notes !! j)
             ∧ (∀ p,
                  (∀ i theme theme_notes,
                     i < length themes →
                     themes !! i = Some theme → notes theme = Some theme_notes →
                     ¬ (i * segmentSize ≤ p < i * segmentSize + length theme_notes)) →
                  themed !! p = baseSequence !! p)) →
            length themed = length baseSequence
            ∧ (∀ i theme theme_notes,
                 themes !! i = Some theme → notes theme = Some theme_notes →
                 length theme_notes ≤ segmentSize →
                 i * segmentSize + length theme_notes ≤ length baseSequence →
                 slice (i * segmentSize) (i * segmentSize + length theme_notes) themed
                 = theme_notes)
            ∧ (∀ p,
                 (∀ i theme theme_notes,
                    themes !! i = Some theme → notes theme = Some theme_notes →
                    ¬ (i * segmentSize ≤ p < i * segmentSize + length theme_notes)) →
                 themed !! p = baseSequence !! p)) as Hfinal.
  { intros themed (Hlen & Hplaced & Hkept). split; [done|]. split.
    - intros i theme theme_notes Hi Hnotes Hshort Hfit.
      apply list_eq. intros j. unfold slice.
      rewrite lookup_take, lookup_drop.
      case_decide as Hj.
      + apply (Hplaced i theme); [by eapply lookup_lt_Some|done..|lia].
      + symmetry. apply lookup_ge_None_2. lia.
    - intros p Hp. apply Hkept. intros i theme theme_notes _. apply Hp. }
  apply Hfinal. clear Hfinal.
  apply (for_loop_ind
           (λ n themed,
              length themed = length baseSequence
              ∧ (∀ i theme theme_notes,
                   i < n →
                   themes !! i = Some theme → notes theme = Some theme_notes →
                   length theme_notes ≤ segmentSize →
                   i * segmentSize + length theme_notes ≤ length baseSequence →
                   ∀ j, j < length theme_notes →
                        themed !! (i * segmentSize + j) = theme_notes !! j)
              ∧ (∀ p,
                   (∀ i theme theme_notes,
                      i < n →
                      themes !! i = Some theme → notes theme = Some theme_notes →
                      ¬ (i * segmentSize ≤ p < i * segmentSize + length theme_notes)) →
                   themed !! p = baseSequence !! p))).
  - split; [done|]. split; [intros; lia|done].
  - intros n themed [_ Hn] (Hlen & Hplaced & Hkept).
    destruct (theme_round themes themePositions n themed)
      as (written & -> & Hlen' & Hget).
    replace (get 0 themePositions n) with (n * segmentSize) in Hget
      by (symmetry; apply themePositions_get; lia).
    split; [congruence|]. split.
    + intros i theme theme_notes Hi Htheme Hnotes Hshort Hfit j Hj.
      rewrite Hget. destruct (decide (i = n)) as [->|Hne].
      * rewrite Htheme. cbn [mbind option_bind]. rewrite Hnotes.
        rewrite decide_True by lia. f_equal. lia.
      * assert (i * segmentSize + length theme_notes ≤ n * segmentSize) by nia.
        destruct (themes !! n ≫= notes) as [notes_n|].
        -- rewrite decide_False by lia.
           apply (Hplaced i theme); [lia|done..].
        -- apply (Hplaced i theme); [lia|done..].
    + intros p Hp. rewrite Hget.
      assert (themed !! p = baseSequence !! p) as Hold.
      { apply Hkept. intros i theme theme_notes Hi. apply Hp. lia. }
      destruct (themes !! n) as [theme|] eqn:Htheme; cbn [mbind option_bind]; [|done].
      destruct (notes theme) as [theme_notes|] eqn:Hnotes; [|done].
      rewrite decide_False; [done|].
      intros [Hcover _]. apply (Hp n theme theme_notes); [lia|done..].
  - intros themed. by rewrite Nat.add_0_l.
Qed.

Lemma generateWithThemes_places_themes_witness :
  let m := (train (new 1) [Num 60; Num 62; Num 64]).1 in
  let themes := [mk_theme "a" (Some [Num 1; Num 2]); mk_theme "b" (Some [Num 3])] in
  ∃ themed,
    generateWithThemes 9 (λ _, 1 # 2) m 6 (Some themes) = Some (themed, [])
    ∧ length themed = 6.
Proof.
  intros m themes.
  destruct (generateWithThemes_places_themes 9 (λ _, 1 # 2) m 6 themes
              [Num 60; Num 62; Num 64; Num 60; Num 62; Num 64] [])
    as (themed & Hcall & Hlen & _).
  - done.
  - vm_compute. reflexivity.
  - exists themed. split; [exact Hcall|exact Hlen].
Defined.

(** *** Declared probabilities, read back *)

Lemma Map_alter_keys {K V} `{EqDecision K} (f : V → V) (k : K) (m : list (K * V)) :
  (Map_alter f k m).*1 = m.*1.
Proof.
  induction m as [|[k' v] m IH]; [done|]. cbn. case_decide; cbn; [done|by rewrite IH].
Qed.

Lemma Map_get_Some_elem {K V} `{EqDecision K} (k : K) (v : V) (m : list (K * V)) :
  Map_get k m = Some v → (k, v) ∈ m.
Proof.
  induction m as [|[k' v'] m IH]; [done|]. cbn. case_decide as Hk.
  - intros [= ->]. subst k'. apply list_elem_of_here.
  - intros Hget. by apply list_elem_of_further, IH.
Qed.

Lemma Map_get_elem {K V} `{EqDecision K} (k : K) (v : V) (m : list (K * V)) :
  NoDup m.*1 → (k, v) ∈ m → Map_get k m = Some v.
Proof.
  induction m as [|[k' v'] m IH]; [by intros _ ?%elem_of_nil|].
  cbn. rewrite NoDup_cons, elem_of_cons. intros [Hnotin Hnodup] [[= <- <-]|Hin].
  - by rewrite decide_True.
  - rewrite decide_False; [by apply IH|]. intros ->. apply Hnotin.
    apply list_elem_of_fmap. by exists (k, v).
Qed.

Lemma Map_set_keys {K V} `{EqDecision K} (k : K) (v : V) (m : list (K * V)) :
  Map_get k m = None → (Map_set k v m).*1 = m.*1 ++ [k].
Proof.
  intros Hget. unfold Map_set. rewrite (proj2 (Map_has_false k m) Hget).
  by rewrite fmap_app.
Qed.

(** The tables that [updateProbabilities] builds: one entry per context,
    and every context is one number. *)
Lemma add_transitions_keyed (fromState : Z) (entry : Z * float)
    (table table' : list (list value * list value)) :
  add_transitions [Num fromState] entry table = Some table' →
  NoDup table.*1 ∧ Forall (λ key, ∃ state, key = [Num state]) table.*1 →
  NoDup table'.*1 ∧ Forall (λ key, ∃ state, key = [Num state]) table'.*1.
Proof.
  intros Hentry [Hnodup Hkeys]. destruct entry as [toState probability].
  unfold add_transitions in Hentry.
  destruct (PrimFloat.leb probability 0); [by injection Hentry as <-|].
  destruct (loop_rounds _) as [rounds|]; [|done].
  case_decide; [|done]. injection Hentry as <-.
  set (table1 := if Map_has _ table then _ else _).
  assert (NoDup table1.*1 ∧ Forall (λ key, ∃ state, key = [Num state]) table1.*1)
    as Htable1.
  { subst table1. destruct (Map_has [Num fromState] table) eqn:Hhas; [done|].
    apply Map_has_false in Hhas. rewrite Map_set_keys by done. split.
    - apply NoDup_app. split; [done|]. split; [|apply NoDup_singleton].
      intros key Hkey ->%list_elem_of_singleton.
      apply list_elem_of_fmap in Hkey as ([key next] & Heq & Hin).
      cbn in Heq. subst key.
      apply (Map_get_elem _ _ _ Hnodup) in Hin. congruence.
    - apply Forall_app. split; [done|]. apply Forall_singleton. by eexists. }
  apply (for_loop_ind
           (λ _ table', NoDup table'.*1
                        ∧ Forall (λ key, ∃ state, key = [Num state]) table'.*1));
    [done| |done].
  intros _ table' _ Htable'. by rewrite Map_alter_keys.
Qed.

Lemma updateProbabilities_keyed (newProbabilities : list (Z * list (Z * float)))
    (table table' : list (list value * list value)) :
  for_of newProbabilities add_from_state (Some table) = Some table' →
  NoDup table.*1 ∧ Forall (λ key, ∃ state, key = [Num state]) table.*1 →
  NoDup table'.*1 ∧ Forall (λ key, ∃ state, key = [Num state]) table'.*1.
Proof.
  unfold for_of. revert table.
  induction newProbabilities as [|[fromState transitions] np IH];
    intros table Hcall Htable; [by injection Hcall as <-|].
  cbn [fold_left] in Hcall.
  destruct (add_from_state (fromState, transitions) (Some table))
    as [table1|] eqn:Hentry.
  2:{ exfalso. revert Hcall. clear. unfold add_from_state.
      induction np as [|[fromState' transitions'] np IH]; [done|].
      cbn [fold_left]. change (for_of transitions' _ None) with
        (for_of transitions'
           (λ entry table,
              table ≫= add_transitions (JSON_stringify [Num fromState']) entry)
           None).
      rewrite for_of_thrown. exact IH. }
  apply (IH table1); [done|]. clear IH Hcall.
  unfold add_from_state, for_of in Hentry. cbn [JSON_stringify fmap list_fmap] in Hentry.
  revert table Htable Hentry.
  induction transitions as [|entry transitions IH]; intros table Htable Hentry;
    [by injection Hentry as <-|].
  cbn [fold_left mbind option_bind] in Hentry.
  destruct (add_transitions [Num fromState] entry table) as [table2|] eqn:Hstep.
  - apply (IH table2); [|done]. by eapply add_transitions_keyed.
  - change (fold_left _ transitions None)
      with (for_of transitions
              (λ entry table, table ≫= add_transitions [Num fromState] entry)
              None) in Hentry.
    by rewrite for_of_thrown in Hentry.
Qed.

Lemma transitions_from_keyed (table : list (list value * list value)) (state : Z) :
  NoDup table.*1 → Forall (λ key, ∃ state, key = [Num state]) table.*1 →
  transitions_from table (Num state) = default [] (Map_get [Num state] table).
Proof.
  induction table as [|[key next] table IH]; [done|].
  cbn [fmap list_fmap fst]. rewrite NoDup_cons, Forall_cons.
  intros [Hnotin Hnodup] [[state' ->] Hkeys].
  rewrite transitions_from_cons, IH by done. cbn [Map_get JSON_parse].
  change (get Undefined [Num state'] 0) with (Num state').
  destruct (decide (state' = state)) as [->|Hne].
  - rewrite !decide_True by done. rewrite Map_get_None by done. apply app_nil_r.
  - rewrite (decide_False (P := Num state' = Num state)) by congruence.
    rewrite (decide_False (P := [Num state'] = [Num state])) by congruence. done.
Qed.

(** The double [k / 100] stands for [k] copies, for [k] up to 100: its
    product with 100 rounds to [k]. *)
Lemma copies_hundredth (toState : Z) (k : nat) :
  k ≤ 100 → copies (toState, hundredth k) = replicate k (Num toState).
Proof.
  intros Hk.
  do 101 (destruct k as [|k]; [by vm_compute|]). lia.
Qed.

Lemma sum_list_elem_of (k : nat) (l : list nat) : k ∈ l → k ≤ sum_list l.
Proof.
  induction l as [|k' l IH]; [by intros ?%elem_of_nil|].
  cbn. intros [->|Hin%IH]%elem_of_cons; lia.
Qed.

Lemma copies_hundredths_total (declared : list (Z * nat)) :
  Forall (λ entry, entry.2 ≤ 100) declared →
  length (concat (copies <$> ((λ entry, (entry.1, hundredth entry.2)) <$> declared)))
  = sum_list declared.*2.
Proof.
  induction 1 as [|[toState k] declared Hk _ IH]; [done|].
  cbn [fmap list_fmap concat fst snd sum_list] in *.
  rewrite length_app, IH. cbn [sum_list_with].
  by rewrite copies_hundredth, length_replicate.
Qed.

(** X23. Probabilities that are declared in whole hundredths, as the
    doubles [k / 100], and sum to 1 for their from-state are read back:
    [updateProbabilities] returns when the entries of every from-state
    can be stored, and after it has returned, the matrix of
    [getProbabilityMatrix] has, for a declared [k / 100] with [k > 0], the
    entry [k / 100]. *)
Theorem updateProbabilities_round_trip (m : t)
    (newProbabilities : list (Z * list (Z * float)))
    (fromState toState : Z) (declared : list (Z * nat)) (hundredths : nat) :
  order m = 1 →
  NoDup newProbabilities.*1 →
  (fromState, (λ entry, (entry.1, hundredth entry.2)) <$> declared)
  ∈ newProbabilities →
  NoDup declared.*1 →
  sum_list declared.*2 = 100 →
  (toState, hundredths) ∈ declared → 0 < hundredths →
  (Forall (λ entry, storable entry.2) newProbabilities →
   is_Some (updateProbabilities m newProbabilities))
  ∧ ∀ m' out,
      updateProbabilities m newProbabilities = Some (m', out) →
      ∃ states matrix row p,
        getProbabilityMatrix m' = (Some (states, matrix), [])
        ∧ Map_get (Num fromState) matrix = Some row
        ∧ Map_get (Num toState) row = Some p
        ∧ (p == inject_Z (Z.of_nat hundredths) / 100)%Q.
Proof.
  intros Horder Hfrom Hin Hto Hsum Hentry Hpos. split.
  { intros Hstorable. unfold updateProbabilities.
    rewrite decide_False by (by intros []).
    destruct (add_from_states_is_Some newProbabilities [] Hfrom Hstorable)
      as [table ->]; [done|]. by eexists. }
  intros m0 out Hcall.
  set (transitions := (λ entry, (entry.1, hundredth entry.2)) <$> declared) in *.
  assert (Forall (λ entry : Z * nat, entry.2 ≤ 100) declared) as Hsmall.
  { apply Forall_forall. intros [to k] Hk. cbn. rewrite <- Hsum.
    apply sum_list_elem_of, list_elem_of_fmap. by exists (to, k). }
  unfold updateProbabilities in Hcall.
  rewrite decide_False in Hcall by (by intros []).
  destruct (for_of newProbabilities add_from_state (Some [])) as [table|] eqn:Htable;
    [|done].
  cbn [mbind option_bind] in Hcall. injection Hcall as <- <-.
  set (m' := {| order := order m; transitionTable := table;
                startingStates := startingStates m |}).
  assert (order m' = 1) as Horder' by done.
  destruct (updateProbabilities_keyed newProbabilities [] table Htable)
    as [Hnodup Hkeys]; [split; constructor|].
  assert (default [] (Map_get [Num fromState] table)
          = concat (copies <$> transitions)) as Hsucc.
  { destruct (add_from_states_get newProbabilities [Num fromState] [] table Htable)
      as (-> & _ & _).
    by rewrite (concat_copies_of _ fromState transitions). }
  assert (transitions_from (transitionTable m') (Num fromState)
          = concat (copies <$> transitions)) as Hobserved.
  { cbn [transitionTable]. by rewrite transitions_from_keyed. }
  assert (length (concat (copies <$> transitions)) = 100) as Htotal.
  { subst transitions. by rewrite copies_hundredths_total. }
  assert (count_occ value_eq_dec (concat (copies <$> transitions)) (Num toState)
          = hundredths) as Hcount.
  { rewrite (count_occ_copies transitions toState (hundredth hundredths)).
    - rewrite copies_hundredth, length_replicate; [done|].
      exact (proj1 (Forall_forall _ declared) Hsmall _ Hentry).
    - subst transitions. by rewrite <- list_fmap_compose.
    - subst transitions. apply list_elem_of_fmap. by exists (toState, hundredths). }
  destruct (probability_matrix_entry m' Horder')
    as (states & matrix & Hmatrix & Hentries).
  assert (Num fromState ∈ states ∧ Num toState ∈ states) as [Hs Ht].
  { unfold getProbabilityMatrix in Hmatrix.
    rewrite decide_False in Hmatrix by (by intros []).
    injection Hmatrix as <- _.
    destruct (collect_states_spec (transitionTable m')) as [_ Hcollect].
    cbn [transitionTable] in *.
    destruct (Map_get [Num fromState] table) as [next|] eqn:Hget.
    - apply Map_get_Some_elem in Hget.
      destruct (Hcollect _ _ Hget) as [Hfirst Hrest].
      rewrite !merge_sort_Permutation. split; [exact Hfirst|].
      apply Hrest. cbn in Hsucc. rewrite Hsucc.
      apply list_elem_of_In, (count_occ_In value_eq_dec). lia.
    - cbn in Hsucc. rewrite <- Hsucc in Htotal. done. }
  destruct (Hentries (Num fromState) (Num toState) Hs Ht)
    as (row & p & Hrow & Hcell & Heq).
  { rewrite Hobserved. intros Hnil. by rewrite Hnil in Htotal. }
  exists states, matrix, row, p. split; [done|]. split; [done|]. split; [done|].
  by rewrite Heq, Hobserved, Hcount, Htotal.
Qed.

Lemma updateProbabilities_round_trip_witness :
  ∃ m' states matrix row p,
    updateProbabilities (new 1) [(60%Z, [(62%Z, hundredth 25); (64%Z, hundredth 75)])]
    = Some (m', [])
    ∧ getProbabilityMatrix m' = (Some (states, matrix), [])
    ∧ Map_get (Num 60) matrix = Some row
    ∧ Map_get (Num 64) row = Some p
    ∧ (p == 3 # 4)%Q.
Proof.
  destruct (updateProbabilities_round_trip (new 1)
              [(60%Z, [(62%Z, hundredth 25); (64%Z, hundredth 75)])] 60 64
              [(62%Z, 25); (64%Z, 75)] 75)
    as [_ Hread].
  - done.
  - repeat constructor. apply not_elem_of_nil.
  - apply list_elem_of_here.
  - repeat constructor; [|apply not_elem_of_nil].
    intros [=]%list_elem_of_singleton.
  - done.
  - apply list_elem_of_further, list_elem_of_here.
  - lia.
  - destruct (updateProbabilities (new 1)
                [(60%Z, [(62%Z, hundredth 25); (64%Z, hundredth 75)])])
      as [[m' out]|] eqn:Hcall; [|by vm_compute in Hcall].
    assert (out = []) as -> by (vm_compute in Hcall; by injection Hcall as _ <-).
    destruct (Hread m' [] eq_refl)
      as (states & matrix & row & p & Hmatrix & Hrow & Hcell & Heq).
    exists m', states, matrix, row, p. split; [done|]. split; [done|].
    split; [done|]. split; [done|]. rewrite Heq. by vm_compute.
Defined.
End markov_more.

(** ** PianoRollVisualizer *)

Section piano_roll.
Import PianoRollVisualizer.

Lemma pretty_N_go_ne_sharp (x : N) (s s' : string) :
  s ≠ String "#" s' → pretty_N_go x s ≠ String "#" s'.
Proof.
  revert s. induction (N.lt_wf_0 x) as [x _ IH]; intros s Hs.
  assert (x = 0 ∨ 0 < x)%N as [->|Hpos] by lia.
  - by rewrite pretty_N_go_0.
  - rewrite pretty_N_go_step by done. apply IH.
    { by apply N.div_lt. }
    unfold pretty_N_char. by repeat case_match.
Qed.

Lemma pretty_Z_ne_sharp (z : Z) (s : string) : pretty z ≠ String "#" s.
Proof.
  destruct z as [|p|p]; [done| |done].
  unfold pretty, pretty_Z, pretty, pretty_positive, pretty, pretty_N.
  rewrite decide_False by done. by apply pretty_N_go_ne_sharp.
Qed.

Lemma floor_twelfth (pitch : Z) : Math_floor (inject_Z pitch / 12) = (pitch / 12)%Z.
Proof.
  unfold Math_floor, Qfloor, Qdiv, Qmult, Qinv, inject_Z. cbn.
  by rewrite Z.mul_1_r.
Qed.

(** X25. Distinct pitches from 0 upward have distinct names: the name is the
    note of the pitch class followed by the octave number, and no octave
    number begins with the sharp sign. *)
Theorem getMidiNoteName_injective (p q : Z) :
  (0 ≤ p)%Z → (0 ≤ q)%Z →
  getMidiNoteName p = getMidiNoteName q → p = q.
Proof.
  intros Hp Hq. unfold getMidiNoteName. cbn zeta. rewrite !floor_twelfth.
  rewrite !Z.rem_mod_nonneg by lia.
  pose proof (Z.mod_pos_bound p 12 ltac:(lia)) as Hpm.
  pose proof (Z.mod_pos_bound q 12 ltac:(lia)) as Hqm.
  destruct (Z.ltb_spec (p mod 12) 0) as [|_]; [lia|].
  destruct (Z.ltb_spec (q mod 12) 0) as [|_]; [lia|].
  assert (p = 12 * (p / 12) + p mod 12)%Z as Hpd by (apply Z.div_mod; lia).
  assert (q = 12 * (q / 12) + q mod 12)%Z as Hqd by (apply Z.div_mod; lia).
  assert (Z.to_nat (p mod 12) < 12) as Ha by lia.
  assert (Z.to_nat (q mod 12) < 12) as Hb by lia.
  assert (p mod 12 = Z.of_nat (Z.to_nat (p mod 12)))%Z as Hpa by lia.
  assert (q mod 12 = Z.of_nat (Z.to_nat (q mod 12)))%Z as Hqb by lia.
  revert Ha Hb Hpa Hqb.
  generalize (Z.to_nat (p mod 12)) as a. generalize (Z.to_nat (q mod 12)) as b.
  intros b a Ha Hb Hpa Hqb Hname.
  assert (p / 12 - 1 = q / 12 - 1 ∧ a = b)%Z as [Hoctave Hnote]; [|lia].
  assert (a = 0 ∨ a = 1 ∨ a = 2 ∨ a = 3 ∨ a = 4 ∨ a = 5 ∨ a = 6 ∨ a = 7
          ∨ a = 8 ∨ a = 9 ∨ a = 10 ∨ a = 11) as Hacases by lia.
  assert (b = 0 ∨ b = 1 ∨ b = 2 ∨ b = 3 ∨ b = 4 ∨ b = 5 ∨ b = 6 ∨ b = 7
          ∨ b = 8 ∨ b = 9 ∨ b = 10 ∨ b = 11) as Hbcases by lia.
  clear Hpa Hqb Ha Hb Hpd Hqd Hpm Hqm.
  repeat (destruct Hacases as [->|Hacases]); try subst a;
    repeat (destruct Hbcases as [->|Hbcases]); try subst b;
    cbn in Hname;
    try (injection Hname as Hname);
    try discriminate;
    try (by apply pretty_Z_ne_sharp in Hname);
    try (symmetry in Hname; by apply pretty_Z_ne_sharp in Hname);
    try (injection Hname as Hname);
    (split; [by apply (inj pretty)|done]).
Qed.

Lemma getMidiNoteName_injective_witness :
  getMidiNoteName 60 ≠ getMidiNoteName 61.
Proof.
  intros Hname. apply getMidiNoteName_injective in Hname; lia.
Defined.
End piano_roll.
